(** * The CRF layer of [bilstm_ner.py]

    A shallow embedding of the dynamic programs of [BiLSTM_CRF]
    ([_forward_alg], [_score_sentence], [_viterbi_decode],
    [neg_log_likelihood]), of the construction of the transition matrix in
    [__init__], of the balanced corpus partition and of the load-or-train
    control flow of [main].

    Tensors of shape [(1, T)] and [(T,)] are lists of scores, a matrix is a
    list of rows.  Python exceptions are values of [exn], and every
    function that can raise returns a [result].  Scores are kept abstract
    behind the class [Score]: the Viterbi decoder and the gold-path scorer
    only add and compare them.  The instance on [Z] runs inside Rocq
    (sums of integer scores of moderate size are exact in the float
    tensors as well), the instance on [R] is the exact-arithmetic reading
    of the float tensors and carries [exp] and [ln] for the forward
    algorithm. *)

From Stdlib Require Import List Arith ZArith Bool Ascii String Lia.
From Stdlib Require Import Reals RList Lra.
Import ListNotations.

Set Implicit Arguments.

(** ** Exceptions *)

Inductive exn : Type :=
| IndexError
| RuntimeError
| AssertionError
| ZeroDivisionError
| KeyError
| FileNotFoundError
| UnpicklingError.

Inductive result (A : Type) : Type :=
| Ok (a : A)
| Raise (e : exn).

Arguments Ok {A} a.
Arguments Raise {A} e.

Definition bind {A B : Type} (c : result A) (k : A -> result B) : result B :=
  match c with
  | Ok a => k a
  | Raise e => Raise e
  end.

Declare Scope result_scope.
Delimit Scope result_scope with result.
Notation "x <- c ;; k" := (bind c (fun x => k))
  (at level 61, c at next level, right associativity) : result_scope.
Notation "' p <- c ;; k" := (bind c (fun x => let p := x in k))
  (at level 61, p pattern, c at next level, right associativity) : result_scope.
Open Scope result_scope.

Fixpoint mapM {A B : Type} (f : A -> result B) (l : list A) : result (list B) :=
  match l with
  | [] => Ok []
  | a :: l' => b <- f a ;; bs <- mapM f l' ;; Ok (b :: bs)
  end.

(** [l[i]] for a non-negative index. *)
Definition get {A : Type} (l : list A) (i : nat) : result A :=
  match nth_error l i with
  | Some a => Ok a
  | None => Raise IndexError
  end.

(** [l[i] = v] for a non-negative index. *)
Fixpoint set_at {A : Type} (l : list A) (i : nat) (v : A) : result (list A) :=
  match l, i with
  | [], _ => Raise IndexError
  | _ :: l', O => Ok (v :: l')
  | a :: l', S i' => r <- set_at l' i' v ;; Ok (a :: r)
  end.

(** ** Scores *)

Class Score (V : Type) : Type := {
  szero : V;
  sadd : V -> V -> V;
  ssentinel : V;          (* the constant -10000. *)
  sltb : V -> V -> bool   (* strict comparison *)
}.

#[export] Instance Z_Score : Score Z := {
  szero := 0%Z;
  sadd := Z.add;
  ssentinel := (-10000)%Z;
  sltb := Z.ltb
}.

Definition Rltb (x y : R) : bool := if Rlt_dec x y then true else false.

#[export] Instance R_Score : Score R := {
  szero := 0%R;
  sadd := Rplus;
  ssentinel := (-10000)%R;
  sltb := Rltb
}.

(** The model object, as far as the CRF layer reads it:
    [tagset_size = len(tag_to_ix)], [START = tag_to_ix[START_TAG]],
    [STOP = tag_to_ix[STOP_TAG]] and the [T x T] tensor [transitions],
    where [transitions[i][j]] scores the step to [i] from [j]. *)
Record BiLSTM_CRF (V : Type) : Type := {
  tagset_size : nat;
  START : nat;
  STOP : nat;
  transitions : list (list V)
}.

Section CRF.

Context {V : Type} `{Score V}.

(** Pointwise sum of two rows of the same length. *)
Definition zip_add (u v : list V) : list V :=
  map (fun p => sadd (fst p) (snd p)) (combine u v).

(** [u + v] on rows.  Equal lengths add pointwise; a row of length one is
    broadcast against the other; any other pair of lengths is torch's
    shape error. *)
Definition vadd (u v : list V) : result (list V) :=
  if List.length u =? List.length v then Ok (zip_add u v)
  else match u, v with
       | _, [b] => Ok (map (fun a => sadd a b) u)
       | [a], _ => Ok (map (fun b => sadd a b) v)
       | _, _ => Raise RuntimeError
       end.

(** [argmax]: [torch.max(vec, 1)] over a [(1, T)] tensor gives the index of
    the first maximal entry; over an empty row, shape [(1, 0)], torch
    refuses the reduction with an [IndexError]. *)
Fixpoint argmax_from (best_i : nat) (best : V) (i : nat) (l : list V) : nat :=
  match l with
  | [] => best_i
  | x :: l' =>
      if sltb best x then argmax_from i x (S i) l'
      else argmax_from best_i best (S i) l'
  end.

Definition argmax (vec : list V) : result nat :=
  match vec with
  | [] => Raise IndexError
  | x :: l => Ok (argmax_from 0 x 1 l)
  end.

Variable self : BiLSTM_CRF V.

(** [self.transitions[i, j]] *)
Definition trans (i j : nat) : result V :=
  row <- get (transitions self) i ;; get row j.

(** *** [_score_sentence] *)

Fixpoint score_loop (i : nat) (feats : list (list V)) (tags : list nat)
    (score : V) : result V :=
  match feats with
  | [] => Ok score
  | feat :: rest =>
      t1 <- get tags (i + 1) ;;
      t0 <- get tags i ;;
      tr <- trans t1 t0 ;;
      e <- get feat t1 ;;
      score_loop (S i) rest tags (sadd (sadd score tr) e)
  end.

Definition _score_sentence (feats : list (list V)) (tags : list nat) : result V :=
  let score := szero in
  let tags := START self :: tags in
  score <- score_loop 0 feats tags score ;;
  tr <- trans (STOP self) (last tags (START self)) ;;
  Ok (sadd score tr).

(** *** [_viterbi_decode] *)

Definition init_vars : result (list V) :=
  set_at (repeat ssentinel (tagset_size self)) (START self) szero.

Definition viterbi_next_tag (forward_var : list V) (next_tag : nat)
    : result (nat * V) :=
  row <- get (transitions self) next_tag ;;
  next_tag_var <- vadd forward_var row ;;
  best_tag_id <- argmax next_tag_var ;;
  v <- get next_tag_var best_tag_id ;;
  Ok (best_tag_id, v).

Definition viterbi_step (forward_var feat : list V)
    : result (list nat * list V) :=
  cells <- mapM (viterbi_next_tag forward_var) (seq 0 (tagset_size self)) ;;
  let bptrs_t := map fst cells in
  let viterbivars_t := map snd cells in
  forward_var <- vadd viterbivars_t feat ;;
  Ok (bptrs_t, forward_var).

Fixpoint viterbi_loop (feats : list (list V)) (forward_var : list V)
    (backpointers : list (list nat)) : result (list (list nat) * list V) :=
  match feats with
  | [] => Ok (backpointers, forward_var)
  | feat :: rest =>
      ' (bptrs_t, forward_var) <- viterbi_step forward_var feat ;;
      viterbi_loop rest forward_var (backpointers ++ [bptrs_t])
  end.

(** The loop over [reversed(backpointers)]. *)
Fixpoint follow (rev_backpointers : list (list nat)) (best_tag_id : nat)
    (best_path : list nat) : result (list nat) :=
  match rev_backpointers with
  | [] => Ok best_path
  | bptrs_t :: rest =>
      best_tag_id <- get bptrs_t best_tag_id ;;
      follow rest best_tag_id (best_path ++ [best_tag_id])
  end.

(** [_viterbi_decode] up to the end of the loop over the back pointers:
    the score of the best path and the path as it is built, last tag first
    and the initial tag last. *)
Definition viterbi_trace (feats : list (list V)) : result (V * list nat) :=
  init_vvars <- init_vars ;;
  ' (backpointers, forward_var) <- viterbi_loop feats init_vvars [] ;;
  stop_row <- get (transitions self) (STOP self) ;;
  terminal_var <- vadd forward_var stop_row ;;
  best_tag_id <- argmax terminal_var ;;
  path_score <- get terminal_var best_tag_id ;;
  best_path <- follow (rev backpointers) best_tag_id [best_tag_id] ;;
  Ok (path_score, best_path).

(** The rest of [_viterbi_decode]: [pop] (the list is never empty), the
    assertion, [reverse]. *)
Definition _viterbi_decode (feats : list (list V)) : result (V * list nat) :=
  ' (path_score, best_path) <- viterbi_trace feats ;;
  let start := last best_path 0 in
  let best_path := removelast best_path in
  if start =? START self then Ok (path_score, rev best_path)
  else Raise AssertionError.

End CRF.

(** *** [BiLSTM_CRF.__init__]

    [tag_to_ix] is the dict from tag names to indices, kept as the list of
    its items (the keys of a dict are distinct, so [len(tag_to_ix)] is the
    length of that list).  [randn] stands for the tensor drawn by
    [torch.randn(tagset_size, tagset_size)]. *)

Definition START_TAG : string := "<START>".
Definition STOP_TAG : string := "<STOP>".

Fixpoint lookup (tag_to_ix : list (string * nat)) (key : string) : result nat :=
  match tag_to_ix with
  | [] => Raise KeyError
  | (k, v) :: rest => if String.eqb k key then Ok v else lookup rest key
  end.

Section Init.

Context {V : Type} `{Score V}.

(** [m[i, :] = -10000] *)
Definition fill_row (m : list (list V)) (i : nat) : result (list (list V)) :=
  row <- get m i ;;
  set_at m i (map (fun _ => ssentinel) row).

(** [m[:, j] = -10000] *)
Definition fill_column (m : list (list V)) (j : nat) : result (list (list V)) :=
  mapM (fun row => set_at row j ssentinel) m.

Definition __init__ (tag_to_ix : list (string * nat)) (randn : list (list V))
    : result (BiLSTM_CRF V) :=
  let tagset_size := List.length tag_to_ix in
  let transitions := randn in
  start <- lookup tag_to_ix START_TAG ;;
  transitions <- fill_row transitions start ;;
  stop <- lookup tag_to_ix STOP_TAG ;;
  transitions <- fill_column transitions stop ;;
  Ok {| tagset_size := tagset_size; START := start; STOP := stop;
        transitions := transitions |}.

End Init.

(** ** The forward algorithm, on real scores *)

Open Scope R_scope.

Definition Rsum (l : list R) : R := fold_right Rplus 0 l.

Definition log_sum_exp (vec : list R) : result R :=
  i <- argmax vec ;;
  max_score <- get vec i ;;
  Ok (max_score + ln (Rsum (map (fun x => exp (x - max_score)) vec))).

Section Forward.

Variable self : BiLSTM_CRF R.

Definition forward_next_tag (forward_var feat : list R) (next_tag : nat)
    : result R :=
  e <- get feat next_tag ;;
  let emit_score := repeat e (tagset_size self) in
  trans_score <- get (transitions self) next_tag ;;
  s <- vadd forward_var trans_score ;;
  next_tag_var <- vadd s emit_score ;;
  log_sum_exp next_tag_var.

Definition forward_step (forward_var feat : list R) : result (list R) :=
  mapM (forward_next_tag forward_var feat) (seq 0 (tagset_size self)).

Fixpoint forward_loop (feats : list (list R)) (forward_var : list R)
    : result (list R) :=
  match feats with
  | [] => Ok forward_var
  | feat :: rest =>
      forward_var <- forward_step forward_var feat ;;
      forward_loop rest forward_var
  end.

Definition _forward_alg (feats : list (list R)) : result R :=
  init_alphas <- init_vars self ;;
  forward_var <- forward_loop feats init_alphas ;;
  stop_row <- get (transitions self) (STOP self) ;;
  terminal_var <- vadd forward_var stop_row ;;
  log_sum_exp terminal_var.

(** [neg_log_likelihood], over the emission model [_get_lstm_features],
    which the CRF layer uses as a black box. *)
Variable _get_lstm_features : list nat -> list (list R).

Definition neg_log_likelihood (sentence tags : list nat) : result R :=
  let feats := _get_lstm_features sentence in
  forward_score <- _forward_alg feats ;;
  gold_score <- _score_sentence self feats tags ;;
  Ok (forward_score - gold_score).

End Forward.

Close Scope R_scope.

(** ** The corpus partition and the load-or-train step of [main] *)

(** [l[a:b]] for non-negative bounds. *)
Definition slice {A : Type} (l : list A) (a b : nat) : list A :=
  firstn (b - a) (skipn a l).

(** [divmod(n, p)] *)
Definition divmod (n p : nat) : result (nat * nat) :=
  if p =? 0 then Raise ZeroDivisionError else Ok (n / p, n mod p).

Definition fragment {A : Type} (training_data : list A) (num_processes : nat)
    : result (list (list A)) :=
  ' (k, m) <- divmod (List.length training_data) num_processes ;;
  Ok (map (fun i => slice training_data (i * k + min i m)
                          ((i + 1) * k + min (i + 1) m))
          (seq 0 num_processes)).

Section Main.

(** The persisted model and the training data are opaque here; [fresh] is
    the model built by [BiLSTM_CRF(...)], [train_workers] what the joined
    worker processes leave in the shared model, and [torch_save] what
    [torch.save(model, MODEL_PATH + 'model.pt')] leaves at the path, or
    the exception it raises. *)
Variables Model Example : Type.
Variable fresh : Model.
Variable train_workers : Model -> list (list Example) -> Model.

(** What is found at [MODEL_PATH + "model.pt"]. *)
Inductive model_file : Type :=
| Absent
| Corrupt
| Saved (m : Model).

Variable torch_save : Model -> result model_file.

Definition model_load (f : model_file) : result Model :=
  match f with
  | Absent => Raise FileNotFoundError
  | Corrupt => Raise UnpicklingError
  | Saved m => Ok m
  end.

Inductive branch : Type := Loaded | Trained.

(** [main] up to the point where [model] is bound: the branch taken, the
    model, and the file left behind.  The bare [except] covers the first
    [model_load] only; the save and the second [model_load] stand in the
    handler, where nothing catches what they raise. *)
Definition main (f : model_file) (training_data : list Example)
    : result (branch * Model * model_file) :=
  match model_load f with
  | Ok model => Ok (Loaded, model, f)
  | Raise _ =>
      let num_processes := 4 in
      fragmented_training_data <- fragment training_data num_processes ;;
      let model := train_workers fresh fragmented_training_data in
      f <- torch_save model ;;
      model <- model_load f ;;
      Ok (Trained, model, f)
  end.

End Main.

(** ** The word dictionary, [prepare_sequence] and [forward] *)

(** [key in d], for a dict kept as the list of its items. *)
Definition mem (key : string) (d : list (string * nat)) : bool :=
  existsb (fun p => String.eqb (fst p) key) d.

(** The body of the inner loop of [dict_load]: a word that is not in the
    dict yet gets [len(word_to_ix)] as its index. *)
Definition add_word (word_to_ix : list (string * nat)) (word : string)
    : list (string * nat) :=
  if mem word word_to_ix then word_to_ix
  else word_to_ix ++ [(word, List.length word_to_ix)].

(** [dict_load], with the dict read from [vocab.json] as [vocab]; a
    sentence is the list of its characters. *)
Definition dict_load (vocab : list (string * nat))
    (training_data : list (list string * list string)) : list (string * nat) :=
  fold_left (fun word_to_ix st => fold_left add_word (fst st) word_to_ix)
            training_data vocab.

(** The words of [words] that are not among [seen], each once, in the
    order in which they are first met. *)
Fixpoint unseen (seen words : list string) : list string :=
  match words with
  | [] => []
  | w :: rest =>
      if existsb (fun k => String.eqb k w) seen then unseen seen rest
      else w :: unseen (seen ++ [w]) rest
  end.

(** An index that a [torch.long], a signed 64-bit integer, can hold. *)
Definition fits_long (i : nat) : bool := (Z.of_nat i <? 2 ^ 63)%Z.

(** [prepare_sequence]: [idxs = [to_ix[w] for w in seq]], a [KeyError] at
    the first word that is not a key, then
    [torch.tensor(idxs, dtype=torch.long)], which refuses an index that a
    signed 64-bit integer cannot hold (torch's overflow error, a
    [RuntimeError]).  The tensor is kept as the list of its entries. *)
Definition prepare_sequence (seq : list string) (to_ix : list (string * nat))
    : result (list nat) :=
  idxs <- mapM (lookup to_ix) seq ;;
  if forallb fits_long idxs then Ok idxs else Raise RuntimeError.

Section ForwardPass.

Context {V : Type} `{Score V}.
Variable self : BiLSTM_CRF V.
Variable _get_lstm_features : list nat -> list (list V).

(** [BiLSTM_CRF.forward] *)
Definition forward (sentence : list nat) : result (V * list nat) :=
  let lstm_feats := _get_lstm_features sentence in
  ' (score, tag_seq) <- _viterbi_decode self lstm_feats ;;
  Ok (score, tag_seq).

End ForwardPass.

(** ** The bracketed output of [main]

    The loop that builds [infer_sentence] from a sentence and the decoded
    tags: an opening bracket before a character tagged 0 (B), a closing
    bracket before a character tagged 2 (O) whose predecessor is tagged 1
    (I). *)

Fixpoint infer_loop (i : nat) (sentence : list string) (postcheck_tags : list nat)
    (infer_sentence : string) : result string :=
  match sentence with
  | [] => Ok infer_sentence
  | c :: rest =>
      t <- get postcheck_tags i ;;
      if t =? 0 then
        infer_loop (S i) rest postcheck_tags
          (String.append (String.append infer_sentence "[") c)
      else if negb (i =? 0) && (t =? 2) then
        p <- get postcheck_tags (i - 1) ;;
        if p =? 1 then
          infer_loop (S i) rest postcheck_tags
            (String.append (String.append infer_sentence "]") c)
        else
          infer_loop (S i) rest postcheck_tags (String.append infer_sentence c)
      else
        infer_loop (S i) rest postcheck_tags (String.append infer_sentence c)
  end.

Definition infer_sentence (sentence : list string) (postcheck_tags : list nat)
    : result string :=
  infer_loop 0 sentence postcheck_tags "".

(** ** Vocabulary of the statements *)

(** A matrix of [rows] rows of [cols] entries each. *)
Definition matrix_shape {A : Type} (rows cols : nat) (m : list (list A)) : Prop :=
  List.length m = rows /\ Forall (fun r => List.length r = cols) m.

(** A model whose transition tensor is [T x T] and whose boundary tags are
    tag indices. *)
Definition well_formed {V : Type} (self : BiLSTM_CRF V) : Prop :=
  matrix_shape (tagset_size self) (tagset_size self) (transitions self) /\
  START self < tagset_size self /\ STOP self < tagset_size self.

(** [m[i][j]], when both indices are in range. *)
Definition entry {A : Type} (m : list (list A)) (i j : nat) : option A :=
  match nth_error m i with
  | Some row => nth_error row j
  | None => None
  end.

Section Walk.

Context {V : Type} `{Score V}.
Variable self : BiLSTM_CRF V.

(** The score accumulated along [tags], entered from tag [prev] with
    [score] in hand: one transition and one emission per position, added in
    the order of the source. *)
Fixpoint walk (score : V) (prev : nat) (feats : list (list V)) (tags : list nat)
    : result V :=
  match feats with
  | [] => Ok score
  | feat :: rest =>
      match tags with
      | [] => Raise IndexError
      | t :: ts =>
          tr <- trans self t prev ;;
          e <- get feat t ;;
          walk (sadd (sadd score tr) e) t rest ts
      end
  end.

End Walk.

Section DecoderVocabulary.

Context {V : Type} `{Score V}.
Variable self : BiLSTM_CRF V.

Local Abbreviation T := (tagset_size self).

(** One cell of a Viterbi step: the back pointer [b] is the [argmax] of
    [forward_var + transitions[k]] and the value is that row at [b]. *)
Definition cell (forward_var : list V) (k b : nat) (v : V) : Prop :=
  exists row, nth_error (transitions self) k = Some row /\
              argmax (zip_add forward_var row) = Ok b /\
              nth_error (zip_add forward_var row) b = Some v.

(** What one iteration of the loop over [feats] computes. *)
Definition step_facts (fv feat : list V) (bptrs : list nat) (fv' : list V) : Prop :=
  List.length bptrs = T /\ List.length fv' = T /\
  forall k, k < T ->
    exists b v e, nth_error bptrs k = Some b /\ cell fv k b v /\
                  nth_error feat k = Some e /\
                  nth_error fv' k = Some (sadd v e).

(** The back pointers recorded so far lead from every tag [k] back to some
    initial tag [s0], and the Viterbi variable of [k] is the score walked
    along that path from the initial variable of [s0]. *)
Definition traced (init : list V) (done : list (list V))
    (bps : list (list nat)) (fv : list V) : Prop :=
  List.length fv = T /\
  forall k, k < T ->
    exists s0 tags v0 vk,
      follow (rev bps) k [k] = Ok (rev (s0 :: tags)) /\
      last tags s0 = k /\
      List.length tags = List.length done /\
      s0 < T /\ Forall (fun t => t < T) tags /\
      nth_error init s0 = Some v0 /\
      nth_error fv k = Some vk /\
      walk self v0 s0 done tags = Ok vk.

End DecoderVocabulary.

(** ** The scores of the spec, on real scores

    Total readings of the same quantities, with [nth] in place of the
    lookups that can raise. *)

Open Scope R_scope.

(** The log-sum-exp of the spec, without the shift by the maximum. *)
Definition log_sum_exp_naive (vec : list R) : R := ln (Rsum (map exp vec)).

Section RealSpec.

Variable self : BiLSTM_CRF R.

(** [M[i][j]] *)
Definition Mat (i j : nat) : R := nth j (nth i (transitions self) []) 0.

(** Transitions and emissions along [tags], entered from [prev]. *)
Fixpoint path_sum (prev : nat) (feats : list (list R)) (tags : list nat) : R :=
  match feats, tags with
  | feat :: rest, t :: ts => Mat t prev + nth t feat 0 + path_sum t rest ts
  | _, _ => 0
  end.

(** The gold-path score in the words of the spec: with [tags'] the
    sequence prefixed by START, the sum over [i = 0 .. L-1] of
    [M[tags'[i+1]][tags'[i]] + E[i][tags'[i+1]]], plus [M[STOP][tags[L-1]]]
    (the last tag of [tags']). *)
Definition gold_path_score (feats : list (list R)) (tags : list nat) : R :=
  let tags' := START self :: tags in
  let L := List.length feats in
  Rsum (map (fun i => Mat (nth (i + 1) tags' 0%nat) (nth i tags' 0%nat)
                      + nth (nth (i + 1) tags' 0%nat) (nth i feats []) 0)
            (seq 0 L))
  + Mat (STOP self) (nth L tags' 0%nat).

(** All tag sequences of length [n] over [T] tags. *)
Fixpoint all_seqs (T n : nat) : list (list nat) :=
  match n with
  | O => [[]]
  | S n' => flat_map (fun k => map (cons k) (all_seqs T n')) (seq 0 T)
  end.

(** The initial vector: 0 at START, the sentinel elsewhere. *)
Definition init_alpha : list R :=
  map (fun j => if j =? START self then 0 else -10000) (seq 0 (tagset_size self)).

(** One position of the forward recurrence of the spec: entry [k] becomes
    [logsumexp_j (prev[j] + M[k][j]) + E[t][k]]. *)
Definition alpha_step (prev feat : list R) : list R :=
  map (fun k => log_sum_exp_naive
                  (map (fun j => nth j prev 0 + Mat k j) (seq 0 (tagset_size self)))
                + nth k feat 0)
      (seq 0 (tagset_size self)).

Definition forward_recurrence (feats : list (list R)) : R :=
  let alpha := fold_left alpha_step feats init_alpha in
  log_sum_exp_naive
    (map (fun j => nth j alpha 0 + Mat (STOP self) j) (seq 0 (tagset_size self))).

(** The score of the path that starts at the initial tag [s0] with the
    initial variable of [s0], visits [tags] and ends in STOP. *)
Definition path_weight (s0 : nat) (feats : list (list R)) (tags : list nat) : R :=
  nth s0 init_alpha 0 + path_sum s0 feats tags + Mat (STOP self) (last tags s0).

(** The sum of the exponentiated path scores over all initial tags and all
    tag sequences. *)
Definition partition (feats : list (list R)) : R :=
  Rsum (map (fun s0 =>
               Rsum (map (fun tags => exp (path_weight s0 feats tags))
                         (all_seqs (tagset_size self) (List.length feats))))
            (seq 0 (tagset_size self))).

(** The same sum over the paths that start at START only. *)
Definition anchored_partition (feats : list (list R)) : R :=
  Rsum (map (fun tags => exp (gold_path_score feats tags))
            (all_seqs (tagset_size self) (List.length feats))).

(** The sentinel invariant of the transition matrix: -10000 in the START
    row and in the STOP column. *)
Definition sentinel_rows : Prop :=
  (forall j, (j < tagset_size self)%nat -> Mat (START self) j = -10000) /\
  (forall i, (i < tagset_size self)%nat -> Mat i (STOP self) = -10000).

(** Every other transition score lies within [B] of zero. *)
Definition transitions_within (B : R) : Prop :=
  forall i j, (i < tagset_size self)%nat -> (j < tagset_size self)%nat ->
    i <> START self -> j <> STOP self -> - B <= Mat i j <= B.

Local Abbreviation T := (tagset_size self).

(** No path of the right length into tag [k] scores more than the Viterbi
    variable of [k]. *)
Definition optimal_so_far (init : list R) (done : list (list R))
    (bps : list (list nat)) (fv : list R) : Prop :=
  forall k s0 tags,
    (k < T)%nat -> (s0 < T)%nat -> Forall (fun t => (t < T)%nat) tags ->
    List.length tags = List.length done -> last tags s0 = k ->
    nth s0 init 0 + path_sum s0 done tags <= nth k fv 0.

(** What a path adds after its initial variable. *)
Definition tail_weight (prev : nat) (feats : list (list R)) (tags : list nat) : R :=
  path_sum prev feats tags + Mat (STOP self) (last tags prev).

End RealSpec.

(** Every emission score lies within [B] of zero. *)
Definition emissions_within (feats : list (list R)) (B : R) : Prop :=
  Forall (Forall (fun x => - B <= x <= B)) feats.

Close Scope R_scope.

(** ** Dicts and bracketed strings *)

(** A dict whose keys are distinct and whose values are distinct indices
    below its length: a numbering of its keys by [0 .. len - 1]. *)
Definition numbering (d : list (string * nat)) : Prop :=
  NoDup (map fst d) /\ NoDup (map snd d) /\
  Forall (fun p => snd p < List.length d) d.

(** The dict only grows at its end. *)
Definition extends (d d2 : list (string * nat)) : Prop := exists d', d2 = d ++ d'.

(** The string with the characters [a] and [b] removed. *)
Fixpoint erase (a b : Ascii.ascii) (s : string) : string :=
  match s with
  | EmptyString => EmptyString
  | String c s' =>
      if Ascii.eqb c a || Ascii.eqb c b then erase a b s'
      else String c (erase a b s')
  end.

(** The number of occurrences of the character [a]. *)
Fixpoint count_char (a : Ascii.ascii) (s : string) : nat :=
  match s with
  | EmptyString => 0
  | String c s' => (if Ascii.eqb c a then 1 else 0) + count_char a s'
  end.

(** The characters of a sentence as one string. *)
Definition join (sentence : list string) : string :=
  fold_right String.append EmptyString sentence.

(** The number of places where a tag 1 (I) is directly followed by a tag
    2 (O). *)
Fixpoint adjacent_IO (tags : list nat) : nat :=
  match tags with
  | [] => 0
  | t :: rest =>
      match rest with
      | t' :: _ => (if (t =? 1) && (t' =? 2) then 1 else 0) + adjacent_IO rest
      | [] => 0
      end
  end.

Definition open_bracket : Ascii.ascii := "["%char.
Definition close_bracket : Ascii.ascii := "]"%char.

(** The bracket put before the character tagged [t] whose predecessor, if
    any, is tagged [prev]. *)
Definition mark (prev : option nat) (t : nat) : string :=
  if t =? 0 then "["%string
  else match prev with
       | Some p => if (t =? 2) && (p =? 1) then "]"%string else ""%string
       | None => ""%string
       end.

Fixpoint bracketed (prev : option nat) (sentence : list string) (tags : list nat)
    : string :=
  match sentence, tags with
  | c :: rest, t :: ts =>
      String.append (mark prev t) (String.append c (bracketed (Some t) rest ts))
  | _, _ => ""%string
  end.

(** ** The shards of the partition *)

(** The first element of shard [i] sits at [offset], and the shard holds
    [shard_size] examples. *)
Definition shard_offset (N P i : nat) : nat := i * (N / P) + Nat.min i (N mod P).
Definition shard_size (N P i : nat) : nat :=
  if i <? N mod P then N / P + 1 else N / P.

(** ** Sample models and emissions *)

Definition toy : BiLSTM_CRF Z :=
  {| tagset_size := 3; START := 1; STOP := 2;
     transitions := [[1; 2; -10000]; [-10000; -10000; -10000]; [3; 0; -10000]]%Z |}.

Definition main_tag_to_ix : list (string * nat) :=
  [("B", 0); ("I", 1); ("O", 2); (START_TAG, 3); (STOP_TAG, 4)]%string.

Definition sample_randn : list (list Z) :=
  [[1; -2; 0; 3; 1]; [0; 1; 2; -1; 4]; [2; 2; -3; 0; 1];
   [5; 0; 1; 1; -2]; [0; -1; 3; 2; 2]]%Z.

(** An emission model that gives every position the same row. *)
Definition toy_emit (sentence : list nat) : list (list Z) :=
  map (fun _ => [1; 2; 3]%Z) sentence.

Definition sample_vocab : list (string * nat) := [("a", 0); ("b", 1)]%string.

Definition sample_data : list (list string * list string) :=
  [(["a"; "c"], ["O"; "B"]); (["d"; "a"], ["O"; "O"])]%string.

Open Scope R_scope.

Definition sample_randnR : list (list R) :=
  [[1; -2; 0; 3; 1]; [0; 1; 2; -1; 4]; [2; 2; -3; 0; 1];
   [5; 0; 1; 1; -2]; [0; -1; 3; 2; 2]].

Definition toyR : BiLSTM_CRF R :=
  {| tagset_size := 3; START := 1; STOP := 2;
     transitions := [[1; 2; -10000]; [-10000; -10000; -10000]; [3; 0; -10000]] |}.

Definition toy_feats : list (list R) := [[1; 2; 3]; [4; 0; 0]].

Ltac tag_cases i :=
  destruct i as [|[|[|i]]]; [ | | | exfalso; simpl in *; lia].

(** A transition matrix with the sentinel row and column and one large
    score on the step from tag 0 to itself. *)
Definition steepR : BiLSTM_CRF R :=
  {| tagset_size := 3; START := 1; STOP := 2;
     transitions := [[20000; 0; -10000]; [-10000; -10000; -10000]; [0; 0; -10000]] |}.

Definition steepZ : BiLSTM_CRF Z :=
  {| tagset_size := 3; START := 1; STOP := 2;
     transitions := [[20000; 0; -10000]; [-10000; -10000; -10000]; [0; 0; -10000]]%Z |}.

Close Scope R_scope.

Unset Implicit Arguments.

(** ** Small runs *)

Example toy_decode :
  _viterbi_decode toy [[1; 2; 3]; [4; 0; 0]]%Z = Ok (11%Z, [0; 0]).
Proof. reflexivity. Qed.

Example toy_score :
  _score_sentence toy [[1; 2; 3]; [4; 0; 0]]%Z [0; 0] = Ok 11%Z.
Proof. reflexivity. Qed.

Example steepZ_assertion_fails :
  _viterbi_decode steepZ [[0; 0; 0]]%Z = Raise AssertionError /\
  viterbi_trace steepZ [[0; 0; 0]]%Z = Ok (10000%Z, [0; 0]%nat).
Proof. split; reflexivity. Qed.

Example fragment_10_4 :
  fragment (seq 0 10) 4 = Ok [[0; 1; 2]; [3; 4; 5]; [6; 7]; [8; 9]].
Proof. reflexivity. Qed.

(** ** Lists, lookups and the result monad *)

Lemma bind_Ok_inv {A B : Type} (c : result A) (k : A -> result B) (b : B) :
  bind c k = Ok b -> exists a, c = Ok a /\ k a = Ok b.
Proof.
  destruct c as [a|e]; simpl; intros E; [exists a; auto | discriminate].
Qed.

Lemma get_Ok {A : Type} (l : list A) (i : nat) (a : A) :
  get l i = Ok a <-> nth_error l i = Some a.
Proof.
  unfold get. destruct (nth_error l i); split; intros E; congruence.
Qed.

Lemma get_lt {A : Type} (l : list A) (i : nat) :
  i < List.length l -> exists a, get l i = Ok a.
Proof.
  intros Hi. unfold get.
  destruct (nth_error l i) eqn:E; [eauto|].
  apply nth_error_None in E. lia.
Qed.

Lemma get_Raise {A : Type} (l : list A) (i : nat) (e : exn) :
  get l i = Raise e -> e = IndexError /\ List.length l <= i.
Proof.
  unfold get. destruct (nth_error l i) eqn:E; [discriminate|].
  intros [= <-]. split; [reflexivity|]. now apply nth_error_None.
Qed.

Lemma set_at_Ok {A : Type} (l : list A) (i : nat) (v : A) :
  i < List.length l ->
  exists r, set_at l i v = Ok r /\ List.length r = List.length l /\
            nth_error r i = Some v /\
            forall j, j <> i -> nth_error r j = nth_error l j.
Proof.
  revert i. induction l as [|a l IH]; intros i Hi; simpl in Hi; [lia|].
  destruct i as [|i].
  - exists (v :: l). repeat split; auto. intros [|j] Hj; [lia|reflexivity].
  - destruct (IH i) as (r & E & Hl & Hv & Ho); [lia|].
    exists (a :: r). simpl. rewrite E. simpl. repeat split; auto.
    intros [|j] Hj; [reflexivity|]. simpl. apply Ho. lia.
Qed.


Lemma mapM_Forall2 {A B : Type} (f : A -> result B) (l : list A) (bs : list B) :
  mapM f l = Ok bs <-> Forall2 (fun a b => f a = Ok b) l bs.
Proof.
  revert bs. induction l as [|a l IH]; intros bs; simpl.
  - split; [intros [= <-]; constructor | intros F; inversion F; reflexivity].
  - split.
    + intros E. apply bind_Ok_inv in E as (b & Eb & E).
      apply bind_Ok_inv in E as (bs' & Ebs & [= <-]).
      constructor; [assumption | now apply IH].
    + intros F. inversion F as [|? b ? bs' Eb F']; subst.
      rewrite Eb. simpl. apply IH in F'. rewrite F'. reflexivity.
Qed.

Lemma mapM_total {A B : Type} (f : A -> result B) (l : list A) :
  (forall a, In a l -> exists b, f a = Ok b) -> exists bs, mapM f l = Ok bs.
Proof.
  induction l as [|a l IH]; intros Hf; simpl; [eauto|].
  destruct (Hf a) as [b Eb]; [now left|].
  destruct IH as [bs Ebs]; [intros; apply Hf; now right|].
  rewrite Eb, Ebs. simpl. eauto.
Qed.

Lemma Forall2_nth_error {A B : Type} (P : A -> B -> Prop) (l : list A)
    (bs : list B) (k : nat) (a : A) :
  Forall2 P l bs -> nth_error l k = Some a ->
  exists b, nth_error bs k = Some b /\ P a b.
Proof.
  intros F. revert k. induction F as [|a' b l' bs' Hab F IH]; intros k Hk.
  - destruct k; discriminate.
  - destruct k as [|k]; simpl in *.
    + injection Hk as <-. eauto.
    + now apply IH.
Qed.

Lemma last_nonempty {A : Type} (x : A) (l : list A) (d d' : A) :
  last (x :: l) d = last (x :: l) d'.
Proof.
  revert x. induction l as [|y l IH]; intros x; [reflexivity|].
  change (last (y :: l) d = last (y :: l) d'). apply IH.
Qed.

Lemma last_In {A : Type} (l : list A) (d : A) : l <> [] -> In (last l d) l.
Proof.
  intros Hne. destruct (exists_last Hne) as (l' & a & ->).
  rewrite last_last. apply in_or_app. right. now left.
Qed.

Lemma nth_error_seq0 (n k : nat) : k < n -> nth_error (seq 0 n) k = Some k.
Proof.
  intros Hk. rewrite nth_error_nth' with (d := 0) by (rewrite length_seq; lia).
  rewrite seq_nth by lia. reflexivity.
Qed.

Lemma Forall2_seq_nth {B : Type} (P : nat -> B -> Prop) (n : nat) (bs : list B) :
  Forall2 P (seq 0 n) bs ->
  List.length bs = n /\
  forall k, k < n -> exists b, nth_error bs k = Some b /\ P k b.
Proof.
  intros F. split.
  - apply Forall2_length in F. rewrite length_seq in F. auto.
  - intros k Hk. eapply Forall2_nth_error; eauto using nth_error_seq0.
Qed.

(** ** Rows, [vadd] and [argmax] *)

Section Rows.

Context {V : Type} `{Score V}.

Lemma zip_add_length (u v : list V) :
  List.length (zip_add u v) = Nat.min (List.length u) (List.length v).
Proof. unfold zip_add. now rewrite length_map, length_combine. Qed.

Lemma nth_error_zip_add (u v : list V) (i : nat) (a b : V) :
  nth_error u i = Some a -> nth_error v i = Some b ->
  nth_error (zip_add u v) i = Some (sadd a b).
Proof.
  revert v i. induction u as [|x u IH]; intros [|y v] [|i]; simpl; try discriminate.
  - now intros [= ->] [= ->].
  - apply IH.
Qed.

Lemma nth_error_zip_add_inv (u v : list V) (i : nat) (c : V) :
  nth_error (zip_add u v) i = Some c ->
  exists a b, nth_error u i = Some a /\ nth_error v i = Some b /\ c = sadd a b.
Proof.
  revert v i. induction u as [|x u IH]; intros [|y v] [|i]; simpl; try discriminate.
  - intros [= <-]. eauto.
  - apply IH.
Qed.

Lemma vadd_same_length (u v : list V) :
  List.length u = List.length v -> vadd u v = Ok (zip_add u v).
Proof. intros E. unfold vadd. now rewrite E, Nat.eqb_refl. Qed.

Lemma argmax_from_range (l : list V) (bi i : nat) (b : V) :
  argmax_from bi b i l = bi \/
  i <= argmax_from bi b i l < i + List.length l.
Proof.
  revert bi i b. induction l as [|x l IH]; intros bi i b; simpl; [now left|].
  destruct (sltb b x).
  - right. destruct (IH i (S i) x) as [-> | ?]; lia.
  - destruct (IH bi (S i) b) as [-> | ?]; [now left | right; lia].
Qed.

Lemma argmax_lt (vec : list V) (k : nat) :
  argmax vec = Ok k -> k < List.length vec.
Proof.
  destruct vec as [|x l]; simpl; [discriminate|].
  intros [= <-]. destruct (argmax_from_range l 0 1 x) as [-> | ?]; lia.
Qed.

Lemma argmax_total (vec : list V) :
  0 < List.length vec -> exists k, argmax vec = Ok k.
Proof. destruct vec; simpl; [lia | eauto]. Qed.

End Rows.

(** ** The decoder and the scorer walk the same path *)

Section Decoder.

Context {V : Type} `{Score V}.
Variable self : BiLSTM_CRF V.
Hypothesis WF : well_formed self.

Local Abbreviation T := (tagset_size self).

Lemma transitions_row (k : nat) :
  k < T -> exists row, nth_error (transitions self) k = Some row /\
                       List.length row = T.
Proof.
  intros Hk. destruct WF as ((Hlen & Hrows) & _).
  destruct (nth_error (transitions self) k) as [row|] eqn:E.
  - exists row. split; [reflexivity|].
    rewrite Forall_forall in Hrows. apply Hrows. eapply nth_error_In; eauto.
  - apply nth_error_None in E. lia.
Qed.

Lemma trans_Ok (i j : nat) (row : list V) (m : V) :
  nth_error (transitions self) i = Some row -> nth_error row j = Some m ->
  trans self i j = Ok m.
Proof.
  intros Ei Ej. unfold trans, get. now rewrite Ei; simpl; rewrite Ej.
Qed.

Lemma cell_parts (fv : list V) (k b : nat) (v : V) :
  List.length fv = T -> k < T -> cell self fv k b v ->
  b < T /\ exists x m, nth_error fv b = Some x /\ trans self k b = Ok m /\
                       v = sadd x m.
Proof.
  intros Hfv Hk (row & Er & Ea & Ev).
  destruct (transitions_row k Hk) as (row' & Er' & Hrow).
  rewrite Er in Er'. injection Er' as <-.
  split.
  - apply argmax_lt in Ea. rewrite zip_add_length in Ea. lia.
  - apply nth_error_zip_add_inv in Ev as (x & m & Ex & Em & ->).
    exists x, m. repeat split; auto. eapply trans_Ok; eauto.
Qed.

Lemma viterbi_next_tag_Ok (fv : list V) (k : nat) :
  List.length fv = T -> k < T ->
  exists b v, viterbi_next_tag self fv k = Ok (b, v) /\ cell self fv k b v.
Proof.
  intros Hfv Hk.
  destruct (transitions_row k Hk) as (row & Er & Hrow).
  unfold viterbi_next_tag, get. rewrite Er. simpl.
  rewrite vadd_same_length by congruence. simpl.
  destruct (argmax_total (zip_add fv row)) as [b Eb].
  { rewrite zip_add_length. lia. }
  rewrite Eb. simpl.
  destruct (nth_error (zip_add fv row) b) as [v|] eqn:Ev.
  - exists b, v. split; [reflexivity|]. exists row. auto.
  - apply nth_error_None in Ev. apply argmax_lt in Eb. lia.
Qed.

Lemma viterbi_next_tag_cell (fv : list V) (k b : nat) (v : V) :
  viterbi_next_tag self fv k = Ok (b, v) ->
  List.length fv = T -> k < T -> cell self fv k b v.
Proof.
  intros E Hfv Hk.
  destruct (viterbi_next_tag_Ok fv k Hfv Hk) as (b' & v' & E' & C).
  rewrite E in E'. now injection E' as <- <-.
Qed.

(** A Viterbi step never fails on rows of the right length, and each of
    its cells is as [cell] says, with the emission added afterwards. *)
Lemma viterbi_step_Ok (fv feat : list V) :
  List.length fv = T -> List.length feat = T ->
  exists bptrs fv',
    viterbi_step self fv feat = Ok (bptrs, fv') /\
    List.length bptrs = T /\ List.length fv' = T /\
    forall k, k < T ->
      exists b v e, nth_error bptrs k = Some b /\ cell self fv k b v /\
                    nth_error feat k = Some e /\
                    nth_error fv' k = Some (sadd v e).
Proof.
  intros Hfv Hfeat. unfold viterbi_step.
  destruct (mapM_total (viterbi_next_tag self fv) (seq 0 T)) as [cells Ec].
  { intros k Hk. apply in_seq in Hk.
    destruct (viterbi_next_tag_Ok fv k) as (b & v & E & _); [auto|lia|].
    eauto. }
  rewrite Ec. simpl.
  apply mapM_Forall2, Forall2_seq_nth in Ec as [Hlen Hcells].
  rewrite vadd_same_length by (rewrite length_map; congruence). simpl.
  do 2 eexists. split; [reflexivity|].
  split; [now rewrite length_map|].
  split; [rewrite zip_add_length, length_map; lia|].
  intros k Hk. destruct (Hcells k Hk) as ([b v] & Ek & E).
  destruct (nth_error feat k) as [e|] eqn:Ee;
    [|apply nth_error_None in Ee; lia].
  exists b, v, e. split; [|split; [|split]].
  - rewrite nth_error_map, Ek. reflexivity.
  - eapply viterbi_next_tag_cell; eauto.
  - reflexivity.
  - apply nth_error_zip_add; [|assumption].
    rewrite nth_error_map, Ek. reflexivity.
Qed.

(** The loop over [feats] runs to its end and carries any property that
    each iteration preserves. *)
Lemma viterbi_loop_invariant
    (P : list (list V) -> list (list nat) -> list V -> Prop) :
  (forall done bps fv, P done bps fv -> List.length fv = T) ->
  (forall done bps fv feat bptrs fv',
      P done bps fv -> List.length feat = T ->
      step_facts self fv feat bptrs fv' ->
      P (done ++ [feat]) (bps ++ [bptrs]) fv') ->
  forall feats done bps fv,
    Forall (fun feat => List.length feat = T) feats ->
    P done bps fv ->
    exists bps' fv',
      viterbi_loop self feats fv bps = Ok (bps', fv') /\
      P (done ++ feats) bps' fv'.
Proof.
  intros Hlen Hstep feats.
  induction feats as [|feat rest IH]; intros done bps fv Hfeats HP; simpl.
  - exists bps, fv. now rewrite app_nil_r.
  - inversion Hfeats as [|? ? Hfeat Hrest]; subst.
    destruct (viterbi_step_Ok fv feat (Hlen _ _ _ HP) Hfeat)
      as (bptrs & fv' & E & F).
    rewrite E. simpl.
    destruct (IH (done ++ [feat]) (bps ++ [bptrs]) fv' Hrest) as (bps' & fv'' & E' & HP').
    { eapply Hstep; eauto. }
    exists bps', fv''. split; [assumption|].
    now rewrite <- app_assoc in HP'.
Qed.

Lemma follow_app (l : list (list nat)) (b : nat) (p q : list nat) :
  follow l b (p ++ q) = (r <- follow l b q ;; Ok (p ++ r)).
Proof.
  revert b q. induction l as [|bp l IH]; intros b q; simpl; [reflexivity|].
  destruct (get bp b) as [b'|e]; simpl; [|reflexivity].
  rewrite <- app_assoc. apply IH.
Qed.

Lemma walk_app (v : V) (p : nat) (feats1 feats2 : list (list V))
    (tags1 tags2 : list nat) (v1 : V) :
  List.length tags1 = List.length feats1 ->
  walk self v p feats1 tags1 = Ok v1 ->
  walk self v p (feats1 ++ feats2) (tags1 ++ tags2) =
  walk self v1 (last tags1 p) feats2 tags2.
Proof.
  revert v p tags1. induction feats1 as [|feat feats1 IH]; intros v p tags1 Hl E.
  - destruct tags1; [|discriminate]. simpl in *. now injection E as <-.
  - destruct tags1 as [|t ts]; [discriminate|].
    simpl in E |- *.
    destruct (trans self t p) as [tr|]; [|discriminate]. simpl in *.
    destruct (get feat t) as [e|]; [|discriminate]. simpl in *.
    rewrite (IH _ t ts) by (auto; lia).
    f_equal. destruct ts; [reflexivity | apply last_nonempty].
Qed.

Lemma score_loop_walk (feats : list (list V)) (pre : list nat) (prev : nat)
    (ts : list nat) (score : V) :
  score_loop self (List.length pre) feats (pre ++ prev :: ts) score =
  walk self score prev feats ts.
Proof.
  revert pre prev ts score.
  induction feats as [|feat rest IH]; intros pre prev ts score; simpl;
    [reflexivity|].
  unfold get at 1 2.
  rewrite nth_error_app2 by lia.
  replace (List.length pre + 1 - List.length pre) with 1 by lia.
  rewrite nth_error_app2 by lia. rewrite Nat.sub_diag. simpl.
  destruct ts as [|t ts]; simpl; [reflexivity|].
  destruct (trans self t prev) as [tr|]; simpl; [|reflexivity].
  destruct (get feat t) as [e|]; simpl; [|reflexivity].
  specialize (IH (pre ++ [prev]) t ts (sadd (sadd score tr) e)).
  rewrite length_app, <- app_assoc in IH. simpl in IH.
  now rewrite Nat.add_1_r in IH.
Qed.

(** [_score_sentence] is the walk from START with score zero, closed by
    the transition to STOP. *)
Lemma score_sentence_walk (feats : list (list V)) (tags : list nat) :
  _score_sentence self feats tags =
  (score <- walk self szero (START self) feats tags ;;
   tr <- trans self (STOP self) (last (START self :: tags) (START self)) ;;
   Ok (sadd score tr)).
Proof.
  unfold _score_sentence.
  now rewrite (score_loop_walk feats [] (START self) tags szero).
Qed.

Lemma traced_start (init : list V) :
  List.length init = T -> traced self init [] [] init.
Proof.
  intros Hl. split; [assumption|]. intros k Hk.
  destruct (nth_error init k) as [v|] eqn:E;
    [|apply nth_error_None in E; lia].
  exists k, [], v, v. simpl. repeat split; auto.
Qed.

Lemma traced_step (init : list V) (done : list (list V))
    (bps : list (list nat)) (fv feat : list V) (bptrs : list nat) (fv' : list V) :
  traced self init done bps fv -> List.length feat = T ->
  step_facts self fv feat bptrs fv' ->
  traced self init (done ++ [feat]) (bps ++ [bptrs]) fv'.
Proof.
  intros (Hfv & Htr) Hfeat (Hbl & Hfl & Hcells).
  split; [assumption|]. intros k Hk.
  destruct (Hcells k Hk) as (b & v & e & Ebp & C & Ee & Ek).
  destruct (cell_parts fv k b v Hfv Hk C) as (Hb & x & m & Ex & Em & ->).
  destruct (Htr b Hb) as (s0 & tags & v0 & vb & Ef & Hlast & Hlen & Hs0 & Htags & E0 & Eb & W).
  rewrite Ex in Eb. injection Eb as <-.
  exists s0, (tags ++ [k]), v0, (sadd (sadd x m) e).
  split; [|split; [|split; [|split; [|split; [|split; [|split]]]]]]; auto.
  - rewrite rev_app_distr. simpl. unfold get. rewrite Ebp. simpl.
    change [k; b] with ([k] ++ [b]).
    rewrite (follow_app (rev bps) b [k] [b]), Ef. simpl.
    rewrite rev_app_distr. reflexivity.
  - apply last_last.
  - rewrite !length_app. simpl. lia.
  - apply Forall_app. split; [assumption|]. constructor; [assumption|constructor].
  - rewrite (walk_app v0 s0 done [feat] tags [k] x Hlen W).
    rewrite Hlast. simpl. rewrite Em. simpl.
    unfold get. rewrite Ee. reflexivity.
Qed.

Lemma viterbi_loop_traced (init : list V) (feats : list (list V)) :
  List.length init = T ->
  Forall (fun feat => List.length feat = T) feats ->
  exists bps fv,
    viterbi_loop self feats init [] = Ok (bps, fv) /\ traced self init feats bps fv.
Proof.
  intros Hinit Hfeats.
  apply (viterbi_loop_invariant (traced self init)) with (done := []); auto.
  - now intros done bps fv [Hl _].
  - intros. eapply traced_step; eauto.
  - now apply traced_start.
Qed.

Lemma last_cons {A : Type} (a d : A) (l : list A) : last (a :: l) d = last l a.
Proof.
  revert a. induction l as [|y l IH]; intros a; [reflexivity|].
  change (last (y :: l) d = last (y :: l) a). apply last_nonempty.
Qed.

Lemma init_vars_Ok :
  exists init,
    init_vars self = Ok init /\ List.length init = T /\
    nth_error init (START self) = Some szero /\
    forall j, j < T -> j <> START self -> nth_error init j = Some ssentinel.
Proof.
  destruct WF as (_ & HS & _).
  destruct (set_at_Ok (repeat ssentinel T) (START self) szero)
    as (init & E & Hl & Hs & Ho).
  { now rewrite repeat_length. }
  exists init. unfold init_vars. rewrite E.
  rewrite repeat_length in Hl. repeat split; auto.
  intros j Hj Hne. rewrite (Ho j Hne).
  rewrite nth_error_repeat by assumption. reflexivity.
Qed.

(** A run of the decoder on an [L x T] emission matrix: every lookup and
    every sum succeeds, the trace ends at some initial tag [s0], and the
    only exception left is the assertion on [s0].  [Q] is any further
    property that the loop preserves. *)
Lemma viterbi_decode_run
    (Q : list V -> list (list V) -> list (list nat) -> list V -> Prop)
    (feats : list (list V)) :
  (forall init, init_vars self = Ok init -> Q init [] [] init) ->
  (forall init done bps fv feat bptrs fv',
      List.length fv = T -> Q init done bps fv -> List.length feat = T ->
      step_facts self fv feat bptrs fv' ->
      Q init (done ++ [feat]) (bps ++ [bptrs]) fv') ->
  Forall (fun feat => List.length feat = T) feats ->
  exists init bps fv stop_row best s0 tags x m,
    init_vars self = Ok init /\
    Q init feats bps fv /\ List.length fv = T /\
    nth_error (transitions self) (STOP self) = Some stop_row /\
    argmax (zip_add fv stop_row) = Ok best /\
    nth_error fv best = Some x /\
    nth_error stop_row best = Some m /\
    last tags s0 = best /\
    List.length tags = List.length feats /\
    s0 < T /\ Forall (fun t => t < T) tags /\
    (exists v0, nth_error init s0 = Some v0 /\
                walk self v0 s0 feats tags = Ok x) /\
    viterbi_trace self feats = Ok (sadd x m, rev (s0 :: tags)) /\
    _viterbi_decode self feats =
      if s0 =? START self then Ok (sadd x m, tags) else Raise AssertionError.
Proof.
  intros Q0 Qstep Hfeats.
  destruct init_vars_Ok as (init & Ei & Hil & His & Hio).
  destruct (viterbi_loop_invariant
              (fun done bps fv => traced self init done bps fv /\ Q init done bps fv))
    with (feats := feats) (done := @nil (list V)) (bps := @nil (list nat)) (fv := init)
    as (bps & fv & El & (Hfl & Htr) & HQ); auto.
  { now intros done bps fv [[Hl _] _]. }
  { intros done bps fv feat bptrs fv' [Ht HQ] Hf Hs. split.
    - eapply traced_step; eauto.
    - apply (Qstep init done bps fv feat bptrs fv'); auto. apply Ht. }
  { split; [now apply traced_start | now apply Q0]. }
  simpl in El, Htr, HQ.
  destruct WF as (_ & HSTART & HSTOP).
  destruct (transitions_row (STOP self) HSTOP) as (stop_row & Es & Hsl).
  destruct (argmax_total (zip_add fv stop_row)) as [best Eb].
  { rewrite zip_add_length. lia. }
  assert (Hbest : best < T).
  { apply argmax_lt in Eb. rewrite zip_add_length in Eb. lia. }
  destruct (Htr best Hbest)
    as (s0 & tags & v0 & x & Ef & Hlast & Hlen & Hs0 & Htags & E0 & Ex & W).
  destruct (nth_error stop_row best) as [m|] eqn:Em;
    [|apply nth_error_None in Em; lia].
  assert (Et : viterbi_trace self feats = Ok (sadd x m, rev (s0 :: tags))).
  { unfold viterbi_trace. rewrite Ei. simpl. rewrite El. simpl.
    unfold get at 1. rewrite Es. simpl.
    rewrite vadd_same_length by congruence. simpl.
    rewrite Eb. simpl.
    unfold get. rewrite (nth_error_zip_add fv stop_row best x m Ex Em). simpl.
    rewrite Ef. reflexivity. }
  exists init, bps, fv, stop_row, best, s0, tags, x, m.
  repeat (split; [first [assumption | eauto] |]).
  unfold _viterbi_decode. rewrite Et. simpl.
  rewrite last_last, removelast_last, rev_involutive. reflexivity.
Qed.

End Decoder.

Section RoundTrip.

Context {V : Type} `{Score V}.
Variable self : BiLSTM_CRF V.

Lemma set_at_Ok_lt {A : Type} (l r : list A) (i : nat) (v : A) :
  set_at l i v = Ok r -> i < List.length l.
Proof.
  intros E. destruct (Nat.lt_ge_cases i (List.length l)) as [Hlt|Hge]; [assumption|].
  exfalso. revert i r E Hge. induction l as [|a l IH]; intros i r E Hge.
  - discriminate.
  - destruct i as [|i]; simpl in *; [lia|].
    apply bind_Ok_inv in E as (r' & E' & _). apply (IH i r' E'). lia.
Qed.

(** A decoder that returns has found its boundary tags in range. *)
Lemma viterbi_decode_Ok_well_formed (feats : list (list V)) (r : V * list nat) :
  matrix_shape (tagset_size self) (tagset_size self) (transitions self) ->
  _viterbi_decode self feats = Ok r -> well_formed self.
Proof.
  intros Hshape E. split; [assumption|].
  unfold _viterbi_decode in E.
  apply bind_Ok_inv in E as ([sc trail] & E & _).
  unfold viterbi_trace in E.
  apply bind_Ok_inv in E as (init & Ei & E).
  apply bind_Ok_inv in E as ([bps fv] & _ & E).
  apply bind_Ok_inv in E as (stop_row & Es & _).
  split.
  - apply set_at_Ok_lt in Ei. now rewrite repeat_length in Ei.
  - apply get_Ok in Es. destruct Hshape as [<- _].
    apply nth_error_Some. congruence.
Qed.

(** C4. Whenever [_viterbi_decode] returns [(score, path)] on an emission
    matrix with [T] columns, [_score_sentence] on the same emissions and
    the returned path returns exactly [score]: both add the same
    transitions and emissions in the same order, so the equality needs no
    law of the addition. *)
Theorem viterbi_score_round_trip (feats : list (list V)) (score : V)
    (path : list nat) :
  matrix_shape (tagset_size self) (tagset_size self) (transitions self) ->
  matrix_shape (List.length feats) (tagset_size self) feats ->
  _viterbi_decode self feats = Ok (score, path) ->
  _score_sentence self feats path = Ok score.
Proof.
  intros Hshape [_ Hfeats] E.
  pose proof (viterbi_decode_Ok_well_formed feats _ Hshape E) as WF.
  destruct (viterbi_decode_run self WF (fun _ _ _ _ => True) feats)
    as (init & bps & fv & stop_row & best & s0 & tags & x & m & Ei & _ & Hfl &
        Es & Eb & Ex & Em & Hlast & Hlen & Hs0 & Htags & (v0 & E0 & W) & _ & Ed);
    auto.
  rewrite E in Ed.
  destruct (Nat.eqb_spec s0 (START self)) as [->|]; [|discriminate].
  injection Ed as -> ->.
  destruct (init_vars_Ok self WF) as (init' & Ei' & _ & His & _).
  rewrite Ei in Ei'. injection Ei' as <-.
  rewrite E0 in His. injection His as ->.
  rewrite score_sentence_walk, W. cbn [bind].
  rewrite last_cons, Hlast.
  now rewrite (trans_Ok self (STOP self) best stop_row m Es Em).
Qed.

End RoundTrip.

Lemma viterbi_score_round_trip_witness :
  _score_sentence toy [[1; 2; 3]; [4; 0; 0]]%Z [0; 0] = Ok 11%Z.
Proof.
  apply (viterbi_score_round_trip toy [[1; 2; 3]; [4; 0; 0]]%Z 11%Z [0; 0]).
  - split; [reflexivity | repeat constructor].
  - split; [reflexivity | repeat constructor].
  - reflexivity.
Defined.

(** ** The transition matrix built by [__init__] *)

Section InitFacts.

Context {V : Type} `{Score V}.

Lemma set_at_spec {A : Type} (l r : list A) (i : nat) (v : A) :
  set_at l i v = Ok r ->
  List.length r = List.length l /\ nth_error r i = Some v /\
  forall j, j <> i -> nth_error r j = nth_error l j.
Proof.
  intros E. pose proof (set_at_Ok_lt l r i v E) as Hi.
  destruct (set_at_Ok l i v Hi) as (r' & E' & P).
  rewrite E in E'. now injection E' as <-.
Qed.

Lemma fill_row_spec (m : list (list V)) (T i : nat) :
  matrix_shape T T m -> i < T ->
  exists m', fill_row m i = Ok m' /\ matrix_shape T T m' /\
             nth_error m' i = Some (repeat ssentinel T) /\
             forall k, k <> i -> nth_error m' k = nth_error m k.
Proof.
  intros [Hlen Hrows] Hi. unfold fill_row.
  destruct (get_lt m i) as [row Er]; [lia|]. rewrite Er. simpl.
  assert (Hrow : List.length row = T).
  { apply get_Ok in Er. rewrite Forall_forall in Hrows.
    apply Hrows. eapply nth_error_In; eauto. }
  assert (Hs : map (fun _ : V => ssentinel) row = repeat ssentinel T).
  { rewrite <- Hrow. clear. induction row; simpl; congruence. }
  rewrite Hs.
  destruct (set_at_Ok m i (repeat ssentinel T)) as (m' & E & Hl & Hv & Ho); [lia|].
  exists m'. repeat split; auto; try congruence.
  apply Forall_forall. intros r Hr.
  apply In_nth_error in Hr as [k Ek].
  destruct (Nat.eq_dec k i) as [->|Hne].
  - rewrite Hv in Ek. injection Ek as <-. apply repeat_length.
  - rewrite (Ho k Hne) in Ek. rewrite Forall_forall in Hrows.
    apply Hrows. eapply nth_error_In; eauto.
Qed.

Lemma fill_column_spec (m : list (list V)) (R C j : nat) :
  matrix_shape R C m -> j < C ->
  exists m', fill_column m j = Ok m' /\ matrix_shape R C m' /\
             forall i row, nth_error m i = Some row ->
               exists row', nth_error m' i = Some row' /\
                 nth_error row' j = Some ssentinel /\
                 forall k, k <> j -> nth_error row' k = nth_error row k.
Proof.
  intros [Hlen Hrows] Hj. unfold fill_column.
  rewrite Forall_forall in Hrows.
  destruct (mapM_total (fun row => set_at row j ssentinel) m) as [m' E].
  { intros row Hr. destruct (set_at_Ok row j ssentinel) as (r & Er & _); eauto.
    rewrite (Hrows row Hr). assumption. }
  exists m'. split; [assumption|].
  apply mapM_Forall2 in E.
  assert (Hall : forall i row, nth_error m i = Some row ->
            exists row', nth_error m' i = Some row' /\
                         set_at row j ssentinel = Ok row').
  { intros i row Ei. eapply Forall2_nth_error in E; eauto. }
  split; [split|].
  - apply Forall2_length in E. congruence.
  - apply Forall_forall. intros row' Hr'.
    apply In_nth_error in Hr' as [i Ei].
    destruct (nth_error m i) as [row|] eqn:Em.
    + destruct (Hall i row Em) as (row'' & Ei' & Es).
      rewrite Ei in Ei'. injection Ei' as <-.
      apply set_at_spec in Es as (Hl & _). rewrite Hl.
      apply Hrows. eapply nth_error_In; eauto.
    + apply nth_error_None in Em. apply Forall2_length in E.
      assert (i < List.length m') by (apply nth_error_Some; congruence). lia.
  - intros i row Ei. destruct (Hall i row Ei) as (row' & Ei' & Es).
    exists row'. split; [assumption|].
    apply set_at_spec in Es as (_ & Hv & Ho). auto.
Qed.

(** C7. [__init__] on a dict of [T] tags whose START and STOP indices are
    below [T], with a random draw of shape [T x T], returns a model whose
    transition tensor is [T x T], whose START row (transitions into START)
    and STOP column (transitions out of STOP) hold the sentinel -10000 in
    every entry, and whose other entries are the entries of the random
    draw, so that they are finite as soon as the draw is. *)
Theorem init_sentinel_invariant (tag_to_ix : list (string * nat))
    (randn : list (list V)) (s t : nat) (finite : V -> Prop) :
  let T := List.length tag_to_ix in
  lookup tag_to_ix START_TAG = Ok s -> lookup tag_to_ix STOP_TAG = Ok t ->
  s < T -> t < T ->
  matrix_shape T T randn ->
  Forall (Forall finite) randn ->
  exists self,
    __init__ tag_to_ix randn = Ok self /\
    tagset_size self = T /\ START self = s /\ STOP self = t /\
    matrix_shape T T (transitions self) /\
    (forall j, j < T -> entry (transitions self) s j = Some ssentinel) /\
    (forall i, i < T -> entry (transitions self) i t = Some ssentinel) /\
    (forall i j, i < T -> j < T -> i <> s -> j <> t ->
       entry (transitions self) i j = entry randn i j /\
       exists x, entry (transitions self) i j = Some x /\ finite x).
Proof.
  intros T Es Et Hs Ht Hshape Hfin.
  destruct (fill_row_spec randn T s Hshape Hs) as (m1 & E1 & Hshape1 & Hrow1 & Ho1).
  destruct (fill_column_spec m1 T T t Hshape1 Ht) as (m2 & E2 & Hshape2 & Hc2).
  exists {| tagset_size := T; START := s; STOP := t; transitions := m2 |}.
  unfold __init__. rewrite Es. simpl. rewrite E1. simpl. rewrite Et. simpl.
  rewrite E2. simpl.
  split; [reflexivity|]. do 4 (split; [auto|]).
  split; [|split].
  - intros j Hj. unfold entry.
    destruct (Hc2 s _ Hrow1) as (row' & -> & Hv & Ho).
    destruct (Nat.eq_dec j t) as [->|Hne]; [assumption|].
    rewrite (Ho j Hne). now apply nth_error_repeat.
  - intros i Hi. unfold entry.
    destruct (nth_error m1 i) as [row|] eqn:Ei.
    + destruct (Hc2 i row Ei) as (row' & -> & Hv & _). assumption.
    + apply nth_error_None in Ei. destruct Hshape1 as [Hl _]. lia.
  - intros i j Hi Hj Hni Hnj.
    assert (Eq : entry m2 i j = entry randn i j).
    { unfold entry. rewrite <- (Ho1 i Hni).
      destruct (nth_error m1 i) as [row|] eqn:Ei.
      - destruct (Hc2 i row Ei) as (row' & -> & _ & Ho). now apply Ho.
      - apply nth_error_None in Ei. destruct Hshape1 as [Hl _]. lia. }
    split; [assumption|]. rewrite Eq. unfold entry.
    destruct Hshape as [Hl Hrows].
    destruct (nth_error randn i) as [row|] eqn:Ei;
      [|apply nth_error_None in Ei; lia].
    apply nth_error_In in Ei.
    rewrite Forall_forall in Hrows, Hfin.
    destruct (nth_error row j) as [x|] eqn:Ej.
    + exists x. split; [reflexivity|].
      specialize (Hfin row Ei). rewrite Forall_forall in Hfin.
      apply Hfin. eapply nth_error_In; eauto.
    + apply nth_error_None in Ej. rewrite (Hrows row Ei) in Ej. lia.
Qed.

End InitFacts.

Lemma init_sentinel_invariant_witness :
  exists self,
    __init__ main_tag_to_ix sample_randn = Ok self /\
    tagset_size self = 5 /\ START self = 3 /\ STOP self = 4 /\
    matrix_shape 5 5 (transitions self) /\
    (forall j, j < 5 -> entry (transitions self) 3 j = Some ssentinel) /\
    (forall i, i < 5 -> entry (transitions self) i 4 = Some ssentinel) /\
    (forall i j, i < 5 -> j < 5 -> i <> 3 -> j <> 4 ->
       entry (transitions self) i j = entry sample_randn i j /\
       exists x, entry (transitions self) i j = Some x /\ (-5 <= x <= 5)%Z).
Proof.
  apply (init_sentinel_invariant main_tag_to_ix sample_randn 3 4
           (fun x => (-5 <= x <= 5)%Z)).
  - reflexivity.
  - reflexivity.
  - simpl; lia.
  - simpl; lia.
  - split; [reflexivity | repeat constructor].
  - repeat constructor; lia.
Defined.

(** ** The balanced partition *)

Section Partition.

Context {A : Type}.

Lemma firstn_plus (a b : nat) (l : list A) :
  firstn (a + b) l = firstn a l ++ firstn b (skipn a l).
Proof.
  revert l. induction a as [|a IH]; intros l; simpl; [reflexivity|].
  destruct l as [|x l]; simpl.
  - now rewrite firstn_nil.
  - now rewrite IH.
Qed.

Lemma concat_slices (l : list A) (off : nat -> nat) (n : nat) :
  off 0 = 0 -> (forall i, i < n -> off i <= off (S i)) ->
  List.concat (map (fun i => slice l (off i) (off (S i))) (seq 0 n)) =
  firstn (off n) l.
Proof.
  intros H0 Hmono. induction n as [|n IH].
  - simpl. now rewrite H0.
  - rewrite seq_S, map_app, concat_app, IH by auto. simpl.
    rewrite app_nil_r. unfold slice.
    rewrite <- firstn_plus. f_equal. specialize (Hmono n). lia.
Qed.

Lemma slice_length (l : list A) (a b : nat) :
  a <= b -> b <= List.length l -> List.length (slice l a b) = b - a.
Proof.
  intros Hab Hb. unfold slice. rewrite length_firstn, length_skipn. lia.
Qed.

End Partition.

Lemma shard_offset_succ (N P i : nat) :
  shard_offset N P (S i) = shard_offset N P i + shard_size N P i.
Proof.
  unfold shard_offset, shard_size.
  set (k := N / P). set (m := N mod P).
  destruct (Nat.ltb_spec i m); cbv iota; lia.
Qed.

Lemma shard_offset_last (N P : nat) : 0 < P -> shard_offset N P P = N.
Proof.
  intros HP. unfold shard_offset.
  pose proof (Nat.mod_upper_bound N P ltac:(lia)) as Hm.
  rewrite Nat.min_r by lia.
  pose proof (Nat.div_mod_eq N P). lia.
Qed.

Lemma shard_offset_mono (N P i j : nat) :
  i <= j -> shard_offset N P i <= shard_offset N P j.
Proof.
  intros Hij. unfold shard_offset.
  pose proof (Nat.mul_le_mono_r i j (N / P) Hij). lia.
Qed.

Lemma fragment_Ok {A : Type} (training_data : list A) (P : nat) :
  0 < P -> exists shards, fragment training_data P = Ok shards.
Proof.
  intros HP. unfold fragment, divmod.
  destruct (Nat.eqb_spec P 0) as [|_]; [lia|]. simpl. eauto.
Qed.

(** C8. [fragment] on a corpus of [N] examples and [P > 0] workers returns
    [P] shards; shard [i] is the contiguous slice of [shard_size N P i]
    examples starting at [shard_offset N P i], its size is [N / P + 1] for
    the first [N mod P] shards and [N / P] for the others, so the larger
    shards come first and two sizes differ by at most one; the shards
    concatenated in order are the corpus, so the sizes sum to [N]; and a
    corpus of 10 examples split 4 ways gives the sizes [3; 3; 2; 2]. *)
Theorem fragment_balanced {A : Type} (training_data : list A) (P : nat) :
  0 < P ->
  let N := List.length training_data in
  exists shards,
    fragment training_data P = Ok shards /\
    List.length shards = P /\
    (forall i, i < P ->
       exists shard, nth_error shards i = Some shard /\
         shard = firstn (shard_size N P i) (skipn (shard_offset N P i) training_data) /\
         List.length shard = shard_size N P i /\
         (shard_size N P i = N / P \/ shard_size N P i = N / P + 1)) /\
    (forall i j, i <= j -> shard_size N P j <= shard_size N P i <= shard_size N P j + 1) /\
    List.concat shards = training_data /\
    list_sum (map (@List.length A) shards) = N /\
    (N = 10 -> P = 4 -> map (@List.length A) shards = [3; 3; 2; 2]).
Proof.
  intros HP N.
  set (f := fun i => slice training_data (shard_offset N P i) (shard_offset N P (S i))).
  assert (Ef : fragment training_data P = Ok (map f (seq 0 P))).
  { unfold fragment, divmod. destruct (Nat.eqb_spec P 0) as [|_]; [lia|]. simpl.
    f_equal. apply map_ext. intros i. unfold f, shard_offset. fold N.
    now rewrite Nat.add_1_r. }
  assert (Hslice : forall i, i < P ->
            f i = firstn (shard_size N P i) (skipn (shard_offset N P i) training_data) /\
            List.length (f i) = shard_size N P i).
  { intros i Hi.
    assert (Hsub : shard_offset N P (S i) - shard_offset N P i = shard_size N P i)
      by (rewrite shard_offset_succ; lia).
    split.
    - unfold f, slice. now rewrite Hsub.
    - unfold f. rewrite slice_length; auto.
      + rewrite shard_offset_succ; lia.
      + pose proof (shard_offset_mono N P (S i) P ltac:(lia)) as Hm.
        rewrite (shard_offset_last N P HP) in Hm. exact Hm. }
  assert (Hcat : List.concat (map f (seq 0 P)) = training_data).
  { unfold f. rewrite (concat_slices training_data (shard_offset N P) P).
    - rewrite shard_offset_last by assumption. apply firstn_all.
    - reflexivity.
    - intros i _. apply shard_offset_mono. lia. }
  exists (map f (seq 0 P)).
  split; [assumption|].
  split; [now rewrite length_map, length_seq|].
  split; [|split; [|split; [|split]]].
  - intros i Hi. exists (f i). destruct (Hslice i Hi) as [E1 E2].
    split; [|split; [|split]]; auto.
    + rewrite nth_error_map, nth_error_seq0 by assumption. reflexivity.
    + unfold shard_size. destruct (i <? N mod P); auto.
  - intros i j Hij. unfold shard_size.
    destruct (Nat.ltb_spec i (N mod P)), (Nat.ltb_spec j (N mod P)); lia.
  - assumption.
  - rewrite <- length_concat, Hcat. reflexivity.
  - intros HN ->.
    rewrite map_map. cbn [seq map].
    rewrite (proj2 (Hslice 0 ltac:(lia))), (proj2 (Hslice 1 ltac:(lia))),
      (proj2 (Hslice 2 ltac:(lia))), (proj2 (Hslice 3 ltac:(lia))).
    rewrite HN. reflexivity.
Qed.

Lemma fragment_balanced_witness :
  exists shards,
    fragment (seq 0 10) 4 = Ok shards /\
    List.length shards = 4 /\
    List.concat shards = seq 0 10 /\
    map (@List.length nat) shards = [3; 3; 2; 2].
Proof.
  destruct (fragment_balanced (seq 0 10) 4) as
    (shards & E & Hl & _ & _ & Hc & _ & H10); [lia|].
  exists shards. repeat split; auto.
Defined.

(** ** Loading or training *)

Section MainFacts.

Variables Model Example : Type.
Variable fresh : Model.
Variable train_workers : Model -> list (list Example) -> Model.
Variable torch_save : Model -> result (model_file Model).

(** A model file that is there and loads is used as it is. *)
Lemma main_loads_saved_model (m : Model) (training_data : list Example) :
  main fresh train_workers torch_save (Saved m) training_data =
    Ok (Loaded, m, Saved m).
Proof. reflexivity. Qed.

(** Whatever the first [model_load] raises, [main] goes on as it does on
    the missing file: the exception is dropped by the bare [except]. *)
Lemma main_load_failure (f : model_file Model) (training_data : list Example)
    (e : exn) :
  model_load f = Raise e ->
  main fresh train_workers torch_save f training_data =
  main fresh train_workers torch_save (Absent Model) training_data.
Proof. intros E. unfold main. rewrite E. reflexivity. Qed.

(** The training path: the fresh model is trained on the four shards and
    saved, and the file that the save has left is loaded. *)
Lemma main_trains (training_data : list Example) :
  exists shards,
    fragment training_data 4 = Ok shards /\
    main fresh train_workers torch_save (Absent Model) training_data =
      (f <- torch_save (train_workers fresh shards) ;;
       model <- model_load f ;;
       Ok (Trained, model, f)).
Proof.
  destruct (fragment_Ok training_data 4) as (shards & Ef); [lia|].
  exists shards. split; [assumption|].
  unfold main. cbn [model_load]. rewrite Ef. reflexivity.
Qed.

(** The save and the second load are not under the [try]: what they raise
    leaves [main]. *)
Lemma main_save_failure_propagates (f : model_file Model)
    (training_data : list Example) (shards : list (list Example)) (e e' : exn) :
  model_load f = Raise e ->
  fragment training_data 4 = Ok shards ->
  (torch_save (train_workers fresh shards) = Raise e' \/
   exists f', torch_save (train_workers fresh shards) = Ok f' /\
              model_load f' = Raise e') ->
  main fresh train_workers torch_save f training_data = Raise e'.
Proof.
  intros E Ef Hs. unfold main. rewrite E, Ef. cbn [bind].
  destruct Hs as [-> | (f' & -> & E')]; [reflexivity|].
  cbn [bind]. rewrite E'. reflexivity.
Qed.

(** C9. The code departs from the claim on a model file that is there but
    does not load.  [model_load] then raises an error that is not the
    error of the missing file, and [main] does not let it through: the
    bare [except] catches it, and [main] goes on exactly as it does on the
    missing file.  It trains the fresh model on the four shards and
    saves it, and when the save has written the model it returns the
    trained model and leaves the file overwritten. *)
Theorem main_corrupt_file_is_caught (training_data : list Example) :
  model_load (Corrupt Model) = Raise UnpicklingError /\
  UnpicklingError <> FileNotFoundError /\
  main fresh train_workers torch_save (Corrupt Model) training_data =
  main fresh train_workers torch_save (Absent Model) training_data /\
  exists shards,
    fragment training_data 4 = Ok shards /\
    (torch_save (train_workers fresh shards) =
       Ok (Saved (train_workers fresh shards)) ->
     main fresh train_workers torch_save (Corrupt Model) training_data =
       Ok (Trained, train_workers fresh shards,
           Saved (train_workers fresh shards))).
Proof.
  split; [reflexivity|]. split; [discriminate|]. split; [reflexivity|].
  destruct (main_trains training_data) as (shards & Ef & Em).
  exists shards. split; [assumption|]. intros Es.
  rewrite (main_load_failure (Corrupt Model) training_data UnpicklingError eq_refl).
  rewrite Em, Es. reflexivity.
Qed.

End MainFacts.

Lemma main_corrupt_file_is_caught_witness :
  model_load (Corrupt unit) = Raise UnpicklingError /\
  UnpicklingError <> FileNotFoundError /\
  main tt (fun m (_ : list (list nat)) => m) (fun m => Ok (Saved m))
       (Corrupt unit) [1; 2; 3; 4; 5] =
  main tt (fun m (_ : list (list nat)) => m) (fun m => Ok (Saved m))
       (Absent unit) [1; 2; 3; 4; 5] /\
  exists shards,
    fragment [1; 2; 3; 4; 5] 4 = Ok shards /\
    (Ok (Saved tt) = Ok (Saved tt) ->
     main tt (fun m (_ : list (list nat)) => m) (fun m => Ok (Saved m))
          (Corrupt unit) [1; 2; 3; 4; 5] = Ok (Trained, tt, Saved tt)).
Proof.
  exact (main_corrupt_file_is_caught unit nat tt (fun m _ => m)
           (fun m => Ok (Saved m)) [1; 2; 3; 4; 5]).
Defined.

Example main_corrupt_file_run :
  main tt (fun m (_ : list (list nat)) => m) (fun m => Ok (Saved m))
       (Corrupt unit) [1; 2; 3; 4; 5] = Ok (Trained, tt, Saved tt).
Proof. reflexivity. Qed.

Example main_save_failure_run :
  main tt (fun m (_ : list (list nat)) => m) (fun _ => Ok (Corrupt unit))
       (Absent unit) [1; 2; 3; 4; 5] = Raise UnpicklingError.
Proof. reflexivity. Qed.

(** ** Real scores: comparison, sums, log-sum-exp *)

Open Scope R_scope.

Lemma Rltb_true (x y : R) : Rltb x y = true <-> x < y.
Proof. unfold Rltb. destruct (Rlt_dec x y); split; intros; auto; discriminate. Qed.

Lemma Rltb_false (x y : R) : Rltb x y = false <-> y <= x.
Proof.
  unfold Rltb. destruct (Rlt_dec x y); split; intros; auto; try discriminate; lra.
Qed.

Lemma argmax_from_max (l : list R) (bi i : nat) (b : R) :
  exists vb,
    (argmax_from bi b i l = bi /\ vb = b \/
     exists j, argmax_from bi b i l = (i + j)%nat /\ nth_error l j = Some vb) /\
    b <= vb /\ Forall (fun x => x <= vb) l.
Proof.
  revert bi i b. induction l as [|x l IH]; intros bi i b.
  - exists b. split; [left; auto | split; [lra | constructor]].
  - simpl. destruct (Rltb b x) eqn:Hc.
    + apply Rltb_true in Hc.
      destruct (IH i (S i) x) as (vb & Hpos & Hx & Hall).
      exists vb. split; [|split; [lra | constructor; auto]].
      right. destruct Hpos as [[E ->] | (j & E & Ej)].
      * exists 0%nat. rewrite E. split; [lia | reflexivity].
      * exists (S j). rewrite E. split; [lia | assumption].
    + apply Rltb_false in Hc.
      destruct (IH bi (S i) b) as (vb & Hpos & Hb & Hall).
      exists vb. split; [|split; [lra | constructor; auto; lra]].
      destruct Hpos as [[E ->] | (j & E & Ej)]; [left; auto|].
      right. exists (S j). rewrite E. split; [lia | assumption].
Qed.

(** On real scores [argmax] points at an entry that no entry exceeds. *)
Lemma argmax_max (vec : list R) (b : nat) :
  argmax vec = Ok b ->
  exists vb, nth_error vec b = Some vb /\ Forall (fun x => x <= vb) vec.
Proof.
  destruct vec as [|x l]; simpl; [discriminate|]. intros [= <-].
  destruct (argmax_from_max l 0 1 x) as (vb & Hpos & Hx & Hall).
  exists vb. split; [|constructor; auto].
  destruct Hpos as [[-> ->] | (j & -> & Ej)]; [reflexivity | assumption].
Qed.

Lemma Rsum_cons (x : R) (l : list R) : Rsum (x :: l) = x + Rsum l.
Proof. reflexivity. Qed.

Lemma Rsum_app (l1 l2 : list R) : Rsum (l1 ++ l2) = Rsum l1 + Rsum l2.
Proof. induction l1 as [|x l1 IH]; simpl; [lra | rewrite IH; lra]. Qed.

Lemma Rsum_map_ext {A : Type} (f g : A -> R) (l : list A) :
  (forall a, In a l -> f a = g a) -> Rsum (map f l) = Rsum (map g l).
Proof.
  intros E. induction l as [|a l IH]; simpl; [reflexivity|].
  rewrite E by now left. rewrite IH; [reflexivity|]. intros; apply E; now right.
Qed.

Lemma Rsum_map_scal {A : Type} (c : R) (f : A -> R) (l : list A) :
  Rsum (map (fun a => c * f a) l) = c * Rsum (map f l).
Proof. induction l as [|a l IH]; simpl; [lra | rewrite IH; lra]. Qed.

Lemma Rsum_map_plus {A : Type} (f g : A -> R) (l : list A) :
  Rsum (map (fun a => f a + g a) l) = Rsum (map f l) + Rsum (map g l).
Proof. induction l as [|a l IH]; simpl; [lra | rewrite IH; lra]. Qed.

Lemma Rsum_swap {A B : Type} (f : A -> B -> R) (la : list A) (lb : list B) :
  Rsum (map (fun a => Rsum (map (fun b => f a b) lb)) la) =
  Rsum (map (fun b => Rsum (map (fun a => f a b) la)) lb).
Proof.
  induction la as [|a la IH]; simpl.
  - induction lb; simpl; [reflexivity | lra].
  - rewrite IH. now rewrite Rsum_map_plus.
Qed.

Lemma Rsum_flat_map {A B : Type} (g : B -> R) (h : A -> list B) (l : list A) :
  Rsum (map g (flat_map h l)) = Rsum (map (fun a => Rsum (map g (h a))) l).
Proof.
  induction l as [|a l IH]; simpl; [reflexivity|].
  now rewrite map_app, Rsum_app, IH.
Qed.

Lemma Rsum_nonneg (l : list R) : Forall (fun x => 0 <= x) l -> 0 <= Rsum l.
Proof. induction 1; simpl; lra. Qed.

Lemma Rsum_pos (l : list R) :
  l <> [] -> Forall (fun x => 0 < x) l -> 0 < Rsum l.
Proof.
  intros Hne Hall. destruct Hall as [|x l Hx Hl]; [congruence|].
  simpl. assert (0 <= Rsum l); [|lra].
  apply Rsum_nonneg. eapply Forall_impl; [|exact Hl]. simpl. intros; lra.
Qed.

Lemma Rsum_ge_member (l : list R) (x : R) :
  Forall (fun y => 0 <= y) l -> In x l -> x <= Rsum l.
Proof.
  induction 1 as [|y l Hy Hl IH]; simpl; [tauto|].
  pose proof (Rsum_nonneg l Hl). intros [->|Hin]; [lra|].
  specialize (IH Hin). lra.
Qed.

Lemma Rsum_exp_pos {A : Type} (f : A -> R) (l : list A) :
  l <> [] -> 0 < Rsum (map (fun a => exp (f a)) l).
Proof.
  intros Hne. apply Rsum_pos.
  - destruct l; simpl; congruence.
  - apply Forall_forall. intros y Hy. apply in_map_iff in Hy as (a & <- & _).
    apply exp_pos.
Qed.

(** The shift by any [m] leaves the log-sum-exp unchanged. *)
Lemma log_sum_exp_shift (vec : list R) (m : R) :
  vec <> [] ->
  m + ln (Rsum (map (fun x => exp (x - m)) vec)) = log_sum_exp_naive vec.
Proof.
  intros Hne. unfold log_sum_exp_naive.
  rewrite <- (ln_exp m) at 1.
  rewrite <- ln_mult; [|apply exp_pos | now apply Rsum_exp_pos].
  f_equal. rewrite <- Rsum_map_scal. apply Rsum_map_ext.
  intros x _. rewrite <- exp_plus. f_equal. lra.
Qed.

Lemma log_sum_exp_Ok (vec : list R) :
  vec <> [] ->
  exists b m, argmax vec = Ok b /\ nth_error vec b = Some m /\
              Forall (fun x => x <= m) vec /\
              log_sum_exp vec =
                Ok (m + ln (Rsum (map (fun x => exp (x - m)) vec))).
Proof.
  intros Hne. destruct (argmax_total vec) as [b Eb].
  { destruct vec; simpl; [congruence | lia]. }
  destruct (argmax_max vec b Eb) as (m & Em & Hall).
  exists b, m. repeat split; auto.
  unfold log_sum_exp, get. rewrite Eb. simpl. rewrite Em. reflexivity.
Qed.

Lemma log_sum_exp_eq (vec : list R) :
  vec <> [] -> log_sum_exp vec = Ok (log_sum_exp_naive vec).
Proof.
  intros Hne. destruct (log_sum_exp_Ok vec Hne) as (b & m & _ & _ & _ & ->).
  now rewrite log_sum_exp_shift.
Qed.

(** C10. On a non-empty row, [log_sum_exp] returns the maximum of the row
    plus the logarithm of the sum of the exponentials of the entries
    shifted by that maximum, and this is the logarithm of the sum of the
    exponentials of the entries: the shift does not change the value. *)
Theorem log_sum_exp_refines_naive (vec : list R) :
  vec <> [] ->
  log_sum_exp vec =
    Ok (MaxRlist vec + ln (Rsum (map (fun x => exp (x - MaxRlist vec)) vec))) /\
  MaxRlist vec + ln (Rsum (map (fun x => exp (x - MaxRlist vec)) vec)) =
    log_sum_exp_naive vec.
Proof.
  intros Hne. split; [|now apply log_sum_exp_shift].
  destruct (log_sum_exp_Ok vec Hne) as (b & m & _ & Em & Hall & ->).
  assert (Hm : m = MaxRlist vec).
  { apply Rle_antisym.
    - apply MaxRlist_P1. eapply nth_error_In; eauto.
    - rewrite Forall_forall in Hall. apply Hall, MaxRlist_P2.
      exists m. eapply nth_error_In; eauto. }
  now rewrite Hm.
Qed.

Lemma log_sum_exp_refines_naive_witness :
  log_sum_exp [1; 3; 2] =
    Ok (MaxRlist [1; 3; 2] + ln (Rsum (map (fun x => exp (x - MaxRlist [1; 3; 2])) [1; 3; 2]))) /\
  MaxRlist [1; 3; 2] + ln (Rsum (map (fun x => exp (x - MaxRlist [1; 3; 2])) [1; 3; 2])) =
    log_sum_exp_naive [1; 3; 2].
Proof.
  apply (log_sum_exp_refines_naive [1; 3; 2]). discriminate.
Defined.

Lemma mapM_map {A B : Type} (f : A -> result B) (g : A -> B) (l : list A) :
  (forall a, In a l -> f a = Ok (g a)) -> mapM f l = Ok (map g l).
Proof.
  intros E. induction l as [|a l IH]; simpl; [reflexivity|].
  rewrite E by now left. simpl. rewrite IH; [reflexivity|].
  intros; apply E; now right.
Qed.

Lemma nth_map_seq {B : Type} (f : nat -> B) (n k : nat) (d : B) :
  (k < n)%nat -> nth k (map f (seq 0 n)) d = f k.
Proof.
  intros Hk. apply nth_error_nth.
  now rewrite nth_error_map, nth_error_seq0.
Qed.

Lemma list_as_map (l : list R) (n : nat) :
  List.length l = n -> l = map (fun j => nth j l 0) (seq 0 n).
Proof.
  intros Hl. apply nth_ext with (d := 0) (d' := 0).
  - now rewrite length_map, length_seq.
  - intros k Hk. rewrite nth_map_seq by lia. reflexivity.
Qed.

Lemma zip_add_as_map (u v : list R) (n : nat) :
  List.length u = n -> List.length v = n ->
  zip_add u v = map (fun j => nth j u 0 + nth j v 0) (seq 0 n).
Proof.
  intros Hu Hv. apply nth_ext with (d := 0) (d' := 0).
  - rewrite zip_add_length, length_map, length_seq. lia.
  - intros k Hk. rewrite zip_add_length in Hk.
    rewrite nth_map_seq by lia.
    apply nth_error_nth.
    destruct (nth_error u k) as [a|] eqn:Ea; [|apply nth_error_None in Ea; lia].
    destruct (nth_error v k) as [b|] eqn:Eb; [|apply nth_error_None in Eb; lia].
    rewrite (nth_error_zip_add u v k a b Ea Eb).
    rewrite (nth_error_nth u k 0 Ea), (nth_error_nth v k 0 Eb). reflexivity.
Qed.

Lemma log_sum_exp_naive_plus {A : Type} (g : A -> R) (e : R) (l : list A) :
  l <> [] ->
  log_sum_exp_naive (map (fun a => g a + e) l) = log_sum_exp_naive (map g l) + e.
Proof.
  intros Hne. unfold log_sum_exp_naive. rewrite !map_map.
  transitivity (ln (Rsum (map (fun a => exp (g a)) l)) + ln (exp e));
    [|now rewrite ln_exp].
  rewrite <- ln_mult; [|now apply Rsum_exp_pos | apply exp_pos].
  f_equal. rewrite Rmult_comm, <- Rsum_map_scal. apply Rsum_map_ext.
  intros a _. rewrite <- exp_plus. f_equal. lra.
Qed.

Lemma exp_log_sum_exp_naive {A : Type} (g : A -> R) (l : list A) :
  l <> [] -> exp (log_sum_exp_naive (map g l)) = Rsum (map (fun a => exp (g a)) l).
Proof.
  intros Hne. unfold log_sum_exp_naive. rewrite map_map.
  apply exp_ln. now apply Rsum_exp_pos.
Qed.

Lemma seq_nonempty (n : nat) : (0 < n)%nat -> seq 0 n <> [].
Proof. destruct n; simpl; [lia | discriminate]. Qed.

(** ** The forward algorithm computes the recurrence of the spec *)

Section ForwardFacts.

Variable self : BiLSTM_CRF R.
Hypothesis WF : well_formed self.

Local Abbreviation T := (tagset_size self).

Lemma T_pos : (0 < T)%nat.
Proof. destruct WF as (_ & HS & _). lia. Qed.

Lemma row_Mat (k : nat) (row : list R) (j : nat) :
  nth_error (transitions self) k = Some row -> nth j row 0 = Mat self k j.
Proof. intros E. unfold Mat. now rewrite (nth_error_nth _ _ [] E). Qed.

Lemma forward_next_tag_Ok (fv feat : list R) (k : nat) :
  List.length fv = T -> List.length feat = T -> (k < T)%nat ->
  forward_next_tag self fv feat k =
    Ok (log_sum_exp_naive (map (fun j => nth j fv 0 + Mat self k j) (seq 0 T))
        + nth k feat 0).
Proof.
  intros Hfv Hfeat Hk. unfold forward_next_tag, get.
  destruct (nth_error feat k) as [e|] eqn:Ee; [|apply nth_error_None in Ee; lia].
  simpl. destruct (transitions_row self WF k Hk) as (row & Er & Hrow). rewrite Er. simpl.
  rewrite vadd_same_length by congruence. simpl.
  rewrite vadd_same_length
    by (rewrite zip_add_length, repeat_length; lia).
  simpl.
  rewrite log_sum_exp_eq.
  2:{ intros E. apply (f_equal (@List.length R)) in E.
      rewrite !zip_add_length, repeat_length in E. simpl in E.
      pose proof T_pos. lia. }
  f_equal.
  rewrite (zip_add_as_map (zip_add fv row) (repeat e T) T);
    [|rewrite zip_add_length; lia | apply repeat_length].
  rewrite (nth_error_nth feat k 0 Ee).
  rewrite <- (log_sum_exp_naive_plus _ e) by (apply seq_nonempty, T_pos).
  f_equal. apply map_ext_in. intros j Hj. apply in_seq in Hj.
  rewrite (zip_add_as_map fv row T Hfv Hrow), nth_map_seq by lia.
  rewrite (row_Mat k row j Er). f_equal.
  apply nth_error_nth. apply nth_error_repeat. lia.
Qed.

Lemma alpha_step_length (fv feat : list R) :
  List.length (alpha_step self fv feat) = T.
Proof. unfold alpha_step. now rewrite length_map, length_seq. Qed.

Lemma forward_step_Ok (fv feat : list R) :
  List.length fv = T -> List.length feat = T ->
  forward_step self fv feat = Ok (alpha_step self fv feat).
Proof.
  intros Hfv Hfeat. unfold forward_step, alpha_step.
  apply mapM_map. intros k Hk. apply in_seq in Hk.
  apply forward_next_tag_Ok; auto; lia.
Qed.

Lemma fold_alpha_length (feats : list (list R)) (fv : list R) :
  List.length fv = T ->
  List.length (fold_left (alpha_step self) feats fv) = T.
Proof.
  revert fv. induction feats as [|feat rest IH]; intros fv Hfv; simpl; auto.
  apply IH, alpha_step_length.
Qed.

Lemma forward_loop_Ok (feats : list (list R)) (fv : list R) :
  List.length fv = T -> Forall (fun feat => List.length feat = T) feats ->
  forward_loop self feats fv = Ok (fold_left (alpha_step self) feats fv).
Proof.
  revert fv. induction feats as [|feat rest IH]; intros fv Hfv Hfeats; simpl;
    [reflexivity|].
  inversion Hfeats; subst.
  rewrite forward_step_Ok by auto. simpl.
  apply IH; auto. apply alpha_step_length.
Qed.

Lemma init_alpha_length : List.length (init_alpha self) = T.
Proof. unfold init_alpha. now rewrite length_map, length_seq. Qed.

Lemma init_vars_alpha : init_vars self = Ok (init_alpha self).
Proof.
  destruct (init_vars_Ok self WF) as (init & E & Hl & Hs & Ho).
  rewrite E. f_equal. apply nth_ext with (d := 0) (d' := 0).
  - now rewrite init_alpha_length.
  - intros k Hk. unfold init_alpha.
    rewrite nth_map_seq by lia.
    apply nth_error_nth.
    destruct (Nat.eqb_spec k (START self)) as [->|Hne]; [exact Hs|].
    apply Ho; [lia | assumption].
Qed.

Lemma forward_alg_recurrence (feats : list (list R)) :
  Forall (fun feat => List.length feat = T) feats ->
  _forward_alg self feats = Ok (forward_recurrence self feats).
Proof.
  intros Hfeats. unfold _forward_alg.
  rewrite init_vars_alpha. simpl.
  rewrite forward_loop_Ok by (auto using init_alpha_length). simpl.
  destruct WF as (_ & _ & HSTOP).
  destruct (transitions_row self WF (STOP self) HSTOP) as (row & Er & Hrow). unfold get. rewrite Er. simpl.
  pose proof (fold_alpha_length feats (init_alpha self) init_alpha_length) as Hl.
  rewrite vadd_same_length by congruence. simpl.
  rewrite log_sum_exp_eq.
  2:{ intros E. apply (f_equal (@List.length R)) in E.
      rewrite zip_add_length in E. simpl in E. pose proof T_pos. lia. }
  f_equal. unfold forward_recurrence. f_equal.
  rewrite (zip_add_as_map _ row T Hl Hrow).
  apply map_ext. intros j. now rewrite (row_Mat (STOP self) row j Er).
Qed.

End ForwardFacts.

(** ** The recurrence sums over all paths *)

Section PartitionFacts.

Variable self : BiLSTM_CRF R.

Local Abbreviation T := (tagset_size self).

Hypothesis T_positive : (0 < T)%nat.

Lemma alpha_sum (feats : list (list R)) (fv : list R) :
  Rsum (map (fun k => exp (nth k (fold_left (alpha_step self) feats fv) 0
                           + Mat self (STOP self) k))
            (seq 0 T)) =
  Rsum (map (fun s0 =>
               Rsum (map (fun tags => exp (nth s0 fv 0 + path_sum self s0 feats tags
                                           + Mat self (STOP self) (last tags s0)))
                         (all_seqs T (List.length feats))))
            (seq 0 T)).
Proof.
  revert fv. induction feats as [|feat rest IH]; intros fv.
  - simpl. apply Rsum_map_ext. intros k _. rewrite Rplus_0_r. f_equal. lra.
  - cbn [fold_left]. rewrite IH. clear IH.
    set (n := List.length rest).
    set (G := fun (j k : nat) (tags' : list nat) =>
                exp (nth j fv 0 + Mat self k j + nth k feat 0
                     + path_sum self k rest tags'
                     + Mat self (STOP self) (last tags' k))).
    transitivity
      (Rsum (map (fun k => Rsum (map (fun tags' => Rsum (map (fun j => G j k tags')
                                                              (seq 0 T)))
                                     (all_seqs T n)))
                 (seq 0 T))).
    { apply Rsum_map_ext. intros k Hk. apply in_seq in Hk.
      apply Rsum_map_ext. intros tags' _.
      unfold alpha_step. rewrite nth_map_seq by lia.
      rewrite !Rplus_assoc, exp_plus.
      rewrite exp_log_sum_exp_naive by (now apply seq_nonempty).
      rewrite Rmult_comm, <- Rsum_map_scal. apply Rsum_map_ext. intros j _.
      unfold G. rewrite <- exp_plus. f_equal. lra. }
    transitivity
      (Rsum (map (fun k => Rsum (map (fun j => Rsum (map (fun tags' => G j k tags')
                                                         (all_seqs T n)))
                                     (seq 0 T)))
                 (seq 0 T))).
    { apply Rsum_map_ext. intros k _.
      apply (Rsum_swap (fun tags' j => G j k tags')). }
    rewrite (Rsum_swap (fun k j => Rsum (map (fun tags' => G j k tags')
                                             (all_seqs T n)))).
    apply Rsum_map_ext. intros j _.
    change (List.length (feat :: rest)) with (S n). cbn [all_seqs].
    rewrite Rsum_flat_map. apply Rsum_map_ext. intros k _.
    rewrite map_map. apply Rsum_map_ext. intros tags' _.
    unfold G. cbn [path_sum]. rewrite last_cons. f_equal. lra.
Qed.

Lemma forward_recurrence_partition (feats : list (list R)) :
  forward_recurrence self feats = ln (partition self feats).
Proof.
  unfold forward_recurrence, log_sum_exp_naive, partition, path_weight.
  rewrite map_map. f_equal. apply alpha_sum.
Qed.

Lemma partition_pos (feats : list (list R)) : 0 < partition self feats.
Proof.
  unfold partition, path_weight.
  rewrite <- alpha_sum. apply Rsum_exp_pos. now apply seq_nonempty.
Qed.

End PartitionFacts.

(** ** The gold-path scorer on real scores *)

Section ScorerFacts.

Variable self : BiLSTM_CRF R.
Hypothesis WF : well_formed self.

Local Abbreviation T := (tagset_size self).

Lemma trans_Mat (i j : nat) :
  (i < T)%nat -> (j < T)%nat -> trans self i j = Ok (Mat self i j).
Proof.
  intros Hi Hj. destruct (transitions_row self WF i Hi) as (row & Er & Hrow).
  destruct (nth_error row j) as [m|] eqn:Em; [|apply nth_error_None in Em; lia].
  rewrite (trans_Ok self i j row m Er Em). f_equal.
  rewrite <- (row_Mat self i row j Er). symmetry. now apply nth_error_nth.
Qed.

(** On well-shaped input the walk of the code is the sum of the spec. *)
Lemma walk_path_sum (feats : list (list R)) (tags : list nat) (v : R) (prev : nat) :
  Forall (fun feat => List.length feat = T) feats ->
  List.length tags = List.length feats ->
  Forall (fun t => (t < T)%nat) tags -> (prev < T)%nat ->
  walk self v prev feats tags = Ok (v + path_sum self prev feats tags).
Proof.
  revert tags v prev.
  induction feats as [|feat rest IH]; intros tags v prev Hfeats Hlen Htags Hprev.
  - destruct tags; [|discriminate]. simpl. f_equal. lra.
  - destruct tags as [|t ts]; [discriminate|].
    inversion Hfeats as [|? ? Hfeat Hrest]; subst.
    inversion Htags as [|? ? Ht Hts]; subst.
    cbn [walk path_sum]. rewrite trans_Mat by assumption. cbn [bind].
    unfold get.
    destruct (nth_error feat t) as [e|] eqn:Ee;
      [|apply nth_error_None in Ee; lia].
    cbn [bind]. rewrite IH; auto. f_equal.
    rewrite (nth_error_nth feat t 0 Ee). simpl. lra.
Qed.

Lemma walk_path_sum_inv (feats : list (list R)) (tags : list nat) (v x : R)
    (prev : nat) :
  Forall (fun feat => List.length feat = T) feats ->
  List.length tags = List.length feats ->
  Forall (fun t => (t < T)%nat) tags -> (prev < T)%nat ->
  walk self v prev feats tags = Ok x -> x = v + path_sum self prev feats tags.
Proof.
  intros Hf Hl Ht Hp W. rewrite walk_path_sum in W by assumption.
  now injection W as <-.
Qed.

Lemma nth_length_last (l : list nat) (a d d' : nat) :
  nth (List.length l) (a :: l) d = last (a :: l) d'.
Proof.
  revert a. induction l as [|b l IH]; intros a; [reflexivity|].
  change (nth (List.length l) (b :: l) d = last (b :: l) d'). apply IH.
Qed.

Lemma path_sum_indexed (feats : list (list R)) (prev : nat) (ts : list nat) :
  List.length ts = List.length feats ->
  path_sum self prev feats ts =
  Rsum (map (fun i => Mat self (nth (i + 1) (prev :: ts) 0%nat)
                                (nth i (prev :: ts) 0%nat)
                      + nth (nth (i + 1) (prev :: ts) 0%nat) (nth i feats []) 0)
            (seq 0 (List.length feats))).
Proof.
  revert prev ts. induction feats as [|feat rest IH]; intros prev ts Hlen.
  - destruct ts; reflexivity.
  - destruct ts as [|t ts]; [discriminate|].
    cbn [path_sum List.length seq]. rewrite <- seq_shift.
    cbn [map]. rewrite map_map, Rsum_cons.
    rewrite (IH t ts) by (simpl in Hlen; lia).
    reflexivity.
Qed.

Lemma score_sentence_gold (feats : list (list R)) (tags : list nat) :
  matrix_shape (List.length tags) T feats ->
  Forall (fun t => (t < T)%nat) tags ->
  _score_sentence self feats tags = Ok (gold_path_score self feats tags).
Proof.
  intros [Hlen Hfeats] Htags.
  destruct WF as (_ & HSTART & HSTOP).
  rewrite score_sentence_walk.
  rewrite walk_path_sum by auto. cbn [bind].
  assert (Hlast : (last (START self :: tags) (START self) < T)%nat).
  { rewrite last_cons. destruct tags as [|t ts]; [assumption|].
    rewrite Forall_forall in Htags. apply Htags, last_In. discriminate. }
  rewrite trans_Mat by assumption. cbn [bind]. f_equal.
  unfold gold_path_score. cbn [szero sadd R_Score].
  rewrite Hlen, (nth_length_last tags (START self) 0%nat (START self)).
  rewrite (path_sum_indexed feats (START self) tags) by auto.
  rewrite Hlen. lra.
Qed.

End ScorerFacts.

(** ** The partition function against single paths *)

Lemma all_seqs_spec (T n : nat) (tags : list nat) :
  In tags (all_seqs T n) <->
  List.length tags = n /\ Forall (fun t => (t < T)%nat) tags.
Proof.
  revert tags. induction n as [|n IH]; intros tags; simpl.
  - split.
    + intros [<-|[]]. split; [reflexivity | constructor].
    + intros [Hl _]. destruct tags; [now left | discriminate].
  - rewrite in_flat_map. split.
    + intros (k & Hk & Hin). apply in_map_iff in Hin as (ts & <- & Hts).
      apply IH in Hts as [Hl Hall]. apply in_seq in Hk.
      split; [simpl; lia | constructor; [lia | assumption]].
    + intros [Hl Hall]. destruct tags as [|k ts]; [discriminate|].
      inversion Hall; subst. exists k. split; [apply in_seq; lia|].
      apply in_map, IH. split; [simpl in Hl; lia | assumption].
Qed.

Lemma all_seqs_nonempty (T n : nat) : (0 < T)%nat -> all_seqs T n <> [].
Proof.
  intros HT E.
  assert (Hin : In (repeat 0%nat n) (all_seqs T n)).
  { apply all_seqs_spec. split; [apply repeat_length|].
    apply Forall_forall. intros t Ht. apply repeat_spec in Ht. lia. }
  rewrite E in Hin. destruct Hin.
Qed.

Lemma ln_le_compat (x y : R) : 0 < x -> x <= y -> ln x <= ln y.
Proof.
  intros Hx [Hlt | ->]; [|lra]. left. now apply ln_increasing.
Qed.

Section Dominance.

Variable self : BiLSTM_CRF R.
Hypothesis WF : well_formed self.

Local Abbreviation T := (tagset_size self).

Lemma init_alpha_START : nth (START self) (init_alpha self) 0 = 0.
Proof.
  destruct WF as (_ & HS & _). unfold init_alpha.
  rewrite nth_map_seq by assumption. now rewrite Nat.eqb_refl.
Qed.

Lemma init_alpha_other (j : nat) :
  (j < T)%nat -> j <> START self -> nth j (init_alpha self) 0 = -10000.
Proof.
  intros Hj Hne. unfold init_alpha. rewrite nth_map_seq by assumption.
  destruct (Nat.eqb_spec j (START self)); [contradiction | reflexivity].
Qed.

Lemma gold_path_weight (feats : list (list R)) (tags : list nat) :
  List.length tags = List.length feats ->
  gold_path_score self feats tags = path_weight self (START self) feats tags.
Proof.
  intros Hlen. unfold gold_path_score, path_weight.
  rewrite init_alpha_START, (path_sum_indexed self feats (START self) tags Hlen).
  rewrite <- Hlen, (nth_length_last tags (START self) 0%nat (START self)), last_cons.
  lra.
Qed.

Lemma anchored_partition_inner (feats : list (list R)) :
  anchored_partition self feats =
  Rsum (map (fun tags => exp (path_weight self (START self) feats tags))
            (all_seqs T (List.length feats))).
Proof.
  unfold anchored_partition. apply Rsum_map_ext. intros tags Hin.
  apply all_seqs_spec in Hin as [Hl _]. now rewrite gold_path_weight.
Qed.

Lemma anchored_partition_pos (feats : list (list R)) :
  0 < anchored_partition self feats.
Proof.
  unfold anchored_partition. apply Rsum_exp_pos, all_seqs_nonempty.
  destruct WF as (_ & HS & _). lia.
Qed.

(** The gold path is one term of the partition function. *)
Lemma gold_le_partition (feats : list (list R)) (tags : list nat) :
  List.length tags = List.length feats ->
  Forall (fun t => (t < T)%nat) tags ->
  exp (gold_path_score self feats tags) <= partition self feats.
Proof.
  intros Hlen Htags. destruct WF as (_ & HS & _).
  rewrite gold_path_weight by assumption.
  set (inner := fun s0 =>
         Rsum (map (fun tags => exp (path_weight self s0 feats tags))
                   (all_seqs T (List.length feats)))).
  apply Rle_trans with (inner (START self)).
  - apply Rsum_ge_member.
    + apply Forall_forall. intros y Hy. apply in_map_iff in Hy as (a & <- & _).
      left. apply exp_pos.
    + apply (in_map (fun tags => exp (path_weight self (START self) feats tags))).
      apply all_seqs_spec. now rewrite Hlen.
  - unfold partition. fold inner. apply Rsum_ge_member.
    + apply Forall_forall. intros y Hy. apply in_map_iff in Hy as (a & <- & _).
      unfold inner. apply Rsum_nonneg, Forall_forall.
      intros z Hz. apply in_map_iff in Hz as (b & <- & _). left. apply exp_pos.
    + apply (in_map inner). apply in_seq. lia.
Qed.

(** With a second tag besides START, the paths that leave from another
    initial tag add a positive amount to the partition function. *)
Lemma partition_exceeds_anchored (feats : list (list R)) :
  (2 <= T)%nat -> anchored_partition self feats < partition self feats.
Proof.
  intros HT. destruct WF as (_ & HS & _).
  rewrite anchored_partition_inner. unfold partition.
  set (inner := fun s0 =>
         Rsum (map (fun tags => exp (path_weight self s0 feats tags))
                   (all_seqs T (List.length feats)))).
  change (inner (START self) < Rsum (map inner (seq 0 T))).
  assert (Hpos : forall s0, 0 < inner s0).
  { intros s0. unfold inner. apply Rsum_exp_pos, all_seqs_nonempty. lia. }
  assert (Hin : In (START self) (seq 0 T)) by (apply in_seq; lia).
  apply in_split in Hin as (l1 & l2 & E).
  assert (Hl : List.length (l1 ++ l2) = (T - 1)%nat).
  { apply (f_equal (@List.length nat)) in E.
    rewrite length_seq, length_app in E. simpl in E. rewrite length_app. lia. }
  rewrite E, map_app, Rsum_app. simpl.
  assert (0 < Rsum (map inner (l1 ++ l2))).
  { apply Rsum_pos.
    - destruct (l1 ++ l2); simpl in *; [lia | discriminate].
    - apply Forall_forall. intros y Hy. apply in_map_iff in Hy as (a & <- & _).
      apply Hpos. }
  rewrite map_app, Rsum_app in H. lra.
Qed.

End Dominance.

(** C1, as the code has it. On an emission matrix of [L] rows of [T]
    scores, [_forward_alg] returns the value of the recurrence of the
    spec: start from the vector that is 0 at START and -10000 elsewhere,
    at each position replace entry [k] by
    [logsumexp_j (prev[j] + M[k][j]) + E[t][k]], add the STOP row and take
    a last log-sum-exp.  That value is the logarithm of the sum of the
    exponentiated path scores over all initial tags and all tag sequences
    of length [L], a path that leaves from an initial tag other than START
    carrying the -10000 of the initial vector. *)
Theorem forward_alg_log_partition (self : BiLSTM_CRF R) (feats : list (list R)) :
  well_formed self ->
  matrix_shape (List.length feats) (tagset_size self) feats ->
  _forward_alg self feats = Ok (forward_recurrence self feats) /\
  forward_recurrence self feats = ln (partition self feats).
Proof.
  intros WF [_ Hfeats]. split.
  - now apply forward_alg_recurrence.
  - apply forward_recurrence_partition. destruct WF as (_ & HS & _). lia.
Qed.

(** C2. On an emission matrix of [L] rows of [T] scores and [L] valid tag
    indices, [_score_sentence] returns the sum, over [i = 0 .. L-1], of
    [M[tags'[i+1]][tags'[i]] + E[i][tags'[i+1]]], where [tags'] is [tags]
    prefixed by START, plus the transition [M[STOP][tags'[L]]] out of the
    last tag (which is [tags[L-1]]). *)
Theorem score_sentence_is_gold_path_score (self : BiLSTM_CRF R)
    (feats : list (list R)) (tags : list nat) :
  well_formed self ->
  matrix_shape (List.length tags) (tagset_size self) feats ->
  Forall (fun t => (t < tagset_size self)%nat) tags ->
  _score_sentence self feats tags = Ok (gold_path_score self feats tags).
Proof. intros WF. now apply score_sentence_gold. Qed.

(** C3. For every legal tag sequence the forward score is at least the
    gold score, and [neg_log_likelihood], their difference, is not
    negative. *)
Theorem forward_dominates_gold (self : BiLSTM_CRF R)
    (_get_lstm_features : list nat -> list (list R))
    (sentence tags : list nat) (feats : list (list R)) :
  well_formed self ->
  _get_lstm_features sentence = feats ->
  matrix_shape (List.length tags) (tagset_size self) feats ->
  Forall (fun t => (t < tagset_size self)%nat) tags ->
  exists forward_score gold_score,
    _forward_alg self feats = Ok forward_score /\
    _score_sentence self feats tags = Ok gold_score /\
    gold_score <= forward_score /\
    neg_log_likelihood self _get_lstm_features sentence tags =
      Ok (forward_score - gold_score) /\
    0 <= forward_score - gold_score.
Proof.
  intros WF Efeats Hshape Htags.
  assert (Hshape' : matrix_shape (List.length feats) (tagset_size self) feats).
  { destruct Hshape as [Hl Hf]. split; auto. }
  pose proof (forward_alg_recurrence self WF feats (proj2 Hshape')) as Ef.
  assert (Ep : forward_recurrence self feats = ln (partition self feats)).
  { apply forward_recurrence_partition. destruct WF as (_ & HS & _). lia. }
  pose proof (score_sentence_gold self WF feats tags Hshape Htags) as Eg.
  exists (forward_recurrence self feats), (gold_path_score self feats tags).
  assert (Hle : gold_path_score self feats tags <= forward_recurrence self feats).
  { rewrite Ep, <- (ln_exp (gold_path_score self feats tags)).
    apply ln_le_compat; [apply exp_pos|].
    apply gold_le_partition; auto. destruct Hshape as [Hl _]. auto. }
  repeat split; auto; [|lra].
  unfold neg_log_likelihood. rewrite Efeats, Ef, Eg. reflexivity.
Qed.

(** ** The decoded path is a best path *)

Section Optimality.

Variable self : BiLSTM_CRF R.
Hypothesis WF : well_formed self.

Local Abbreviation T := (tagset_size self).

Lemma path_sum_app (prev : nat) (feats1 feats2 : list (list R))
    (tags1 tags2 : list nat) :
  List.length tags1 = List.length feats1 ->
  path_sum self prev (feats1 ++ feats2) (tags1 ++ tags2) =
  path_sum self prev feats1 tags1
  + path_sum self (last tags1 prev) feats2 tags2.
Proof.
  revert prev tags1. induction feats1 as [|feat rest IH]; intros prev tags1 Hl.
  - destruct tags1; [|discriminate]. simpl. lra.
  - destruct tags1 as [|t ts]; [discriminate|].
    cbn [app path_sum]. rewrite (IH t ts) by (simpl in Hl; lia).
    rewrite last_cons. lra.
Qed.

Lemma optimal_start (init : list R) : optimal_so_far self init [] [] init.
Proof.
  intros k s0 tags Hk Hs0 Htags Hlen Hlast.
  destruct tags; [|discriminate]. simpl in *. subst. lra.
Qed.

(** The value of a cell is at least every candidate of its row. *)
Lemma cell_max (fv : list R) (k b : nat) (v : R) (j : nat) :
  List.length fv = T -> (k < T)%nat -> (j < T)%nat ->
  cell self fv k b v -> nth j fv 0 + Mat self k j <= v.
Proof.
  intros Hfv Hk Hj (row & Er & Ea & Ev).
  destruct (transitions_row self WF k Hk) as (row' & Er' & Hrow).
  rewrite Er in Er'. injection Er' as <-.
  destruct (argmax_max _ _ Ea) as (vb & Evb & Hall).
  rewrite Ev in Evb. injection Evb as <-.
  rewrite Forall_forall in Hall.
  rewrite <- (row_Mat self k row j Er).
  apply Hall.
  rewrite (zip_add_as_map fv row T Hfv Hrow).
  apply in_map_iff. exists j. split; [reflexivity | apply in_seq; lia].
Qed.

Lemma optimal_step (init : list R) (done : list (list R)) (bps : list (list nat))
    (fv feat : list R) (bptrs : list nat) (fv' : list R) :
  List.length fv = T -> optimal_so_far self init done bps fv ->
  List.length feat = T -> step_facts self fv feat bptrs fv' ->
  optimal_so_far self init (done ++ [feat]) (bps ++ [bptrs]) fv'.
Proof.
  intros Hfv Hopt Hfeat (_ & _ & Hcells) k s0 tags Hk Hs0 Htags Hlen Hlast.
  rewrite length_app in Hlen. simpl in Hlen.
  destruct (@exists_last _ tags) as (tags0 & t & ->).
  { destruct tags; [simpl in Hlen; lia | discriminate]. }
  rewrite last_last in Hlast. subst t.
  rewrite length_app in Hlen. simpl in Hlen.
  apply Forall_app in Htags as [Htags0 _].
  rewrite path_sum_app by lia. cbn [path_sum].
  set (j := last tags0 s0).
  assert (Hj : (j < T)%nat).
  { unfold j. destruct tags0 as [|a l]; [assumption|].
    rewrite Forall_forall in Htags0. apply Htags0, last_In. discriminate. }
  destruct (Hcells k Hk) as (b & v & e & _ & C & Ee & Ek).
  pose proof (cell_max fv k b v j Hfv Hk Hj C) as Hmax.
  pose proof (Hopt j s0 tags0 Hj Hs0 Htags0 ltac:(lia) eq_refl) as Hprev.
  rewrite (nth_error_nth fv' k 0 Ek), (nth_error_nth feat k 0 Ee).
  cbn [sadd R_Score]. lra.
Qed.

(** The decoder finds a path of maximal weight among all the paths from
    all initial tags, and fails its assertion exactly when that path does
    not leave from START. *)
Lemma viterbi_trace_optimal (feats : list (list R)) :
  Forall (fun feat => List.length feat = T) feats ->
  exists s0 tags,
    (s0 < T)%nat /\ Forall (fun t => (t < T)%nat) tags /\
    List.length tags = List.length feats /\
    viterbi_trace self feats =
      Ok (path_weight self s0 feats tags, rev (s0 :: tags)) /\
    _viterbi_decode self feats =
      (if s0 =? START self then Ok (path_weight self s0 feats tags, tags)
       else Raise AssertionError) /\
    forall s0' tags',
      (s0' < T)%nat -> Forall (fun t => (t < T)%nat) tags' ->
      List.length tags' = List.length feats ->
      path_weight self s0' feats tags' <= path_weight self s0 feats tags.
Proof.
  intros Hfeats.
  destruct (viterbi_decode_run self WF (optimal_so_far self) feats
              (fun init _ => optimal_start init) optimal_step Hfeats)
    as (init & bps & fv & stop_row & best & s0 & tags & x & m & Ei & Hopt & Hfl &
        Es & Eb & Ex & Em & Hlast & Hlen & Hs0 & Htags & (v0 & E0 & W) & Et & Ed).
  rewrite (init_vars_alpha self WF) in Ei. injection Ei as <-.
  apply walk_path_sum_inv in W; auto.
  assert (Hbest : (best < T)%nat).
  { apply argmax_lt in Eb. rewrite zip_add_length in Eb. lia. }
  assert (Hw : sadd x m = path_weight self s0 feats tags).
  { unfold path_weight. rewrite Hlast, W.
    rewrite (nth_error_nth _ _ 0 E0).
    rewrite <- (row_Mat self (STOP self) stop_row best Es).
    rewrite (nth_error_nth _ _ 0 Em). reflexivity. }
  rewrite Hw in Et, Ed.
  exists s0, tags. repeat (split; [assumption|]).
  intros s0' tags' Hs0' Htags' Hlen'.
  rewrite <- Hw. unfold path_weight.
  set (j := last tags' s0').
  assert (Hj : (j < T)%nat).
  { unfold j. destruct tags' as [|a l]; [assumption|].
    rewrite Forall_forall in Htags'. apply Htags', last_In. discriminate. }
  pose proof (Hopt j s0' tags' Hj Hs0' Htags' Hlen' eq_refl) as Hprev.
  destruct (argmax_max _ _ Eb) as (vb & Evb & Hall).
  rewrite (nth_error_zip_add fv stop_row best x m Ex Em) in Evb.
  injection Evb as <-.
  rewrite Forall_forall in Hall.
  assert (Hrow : List.length stop_row = T).
  { destruct WF as (_ & _ & HSTOP).
    destruct (transitions_row self WF (STOP self) HSTOP) as (r & Er & Hr).
    rewrite Es in Er. now injection Er as <-. }
  assert (Hterm : nth j fv 0 + Mat self (STOP self) j <= sadd x m).
  { rewrite <- (row_Mat self (STOP self) stop_row j Es). apply Hall.
    rewrite (zip_add_as_map fv stop_row T Hfl Hrow).
    apply in_map_iff. exists j. split; [reflexivity | apply in_seq; lia]. }
  lra.
Qed.

End Optimality.

(** ** Paths through the sentinels lose *)

Section Bounds.

Variable self : BiLSTM_CRF R.
Hypothesis WF : well_formed self.

Local Abbreviation T := (tagset_size self).

Variable B : R.
Hypothesis B_nonneg : 0 <= B.
Hypothesis START_not_STOP : START self <> STOP self.
Hypothesis Hsent : sentinel_rows self.
Hypothesis Htrans : transitions_within self B.

Lemma Mat_upper (i j : nat) : (i < T)%nat -> (j < T)%nat -> Mat self i j <= B.
Proof.
  intros Hi Hj. destruct Hsent as [Hrow Hcol].
  destruct (Nat.eq_dec i (START self)) as [->|Hi'].
  - rewrite Hrow by assumption. lra.
  - destruct (Nat.eq_dec j (STOP self)) as [->|Hj'].
    + rewrite Hcol by assumption. lra.
    + apply Htrans; assumption.
Qed.

Lemma emission_bounds (feat : list R) (t : nat) :
  Forall (fun x => - B <= x <= B) feat -> - B <= nth t feat 0 <= B.
Proof.
  intros Hf. destruct (nth_in_or_default t feat 0) as [Hin | ->]; [|lra].
  rewrite Forall_forall in Hf. now apply Hf.
Qed.

Lemma tail_weight_cons (prev t : nat) (feat : list R) (rest : list (list R))
    (ts : list nat) :
  tail_weight self prev (feat :: rest) (t :: ts) =
  Mat self t prev + nth t feat 0 + tail_weight self t rest ts.
Proof. unfold tail_weight. cbn [path_sum]. rewrite last_cons. lra. Qed.

Lemma tail_upper (feats : list (list R)) (tags : list nat) (prev : nat) :
  emissions_within feats B -> List.length tags = List.length feats ->
  Forall (fun t => (t < T)%nat) tags -> (prev < T)%nat ->
  tail_weight self prev feats tags <= (2 * INR (List.length feats) + 1) * B.
Proof.
  revert tags prev.
  induction feats as [|feat rest IH]; intros tags prev He Hl Ht Hp.
  - destruct tags; [|discriminate]. unfold tail_weight. simpl.
    destruct WF as (_ & _ & HSTOP). pose proof (Mat_upper (STOP self) prev HSTOP Hp).
    lra.
  - destruct tags as [|t ts]; [discriminate|].
    inversion He; subst. inversion Ht; subst.
    rewrite tail_weight_cons.
    change (List.length (feat :: rest)) with (S (List.length rest)). rewrite S_INR.
    pose proof (IH ts t ltac:(assumption) ltac:(simpl in Hl; lia)
                  ltac:(assumption) ltac:(assumption)).
    pose proof (Mat_upper t prev ltac:(assumption) Hp).
    pose proof (emission_bounds feat t ltac:(assumption)). nra.
Qed.

Lemma tail_upper_from_STOP (feats : list (list R)) (tags : list nat) :
  emissions_within feats B -> List.length tags = List.length feats ->
  Forall (fun t => (t < T)%nat) tags ->
  tail_weight self (STOP self) feats tags <= -10000 + 2 * INR (List.length feats) * B.
Proof.
  intros He Hl Ht. destruct Hsent as [_ Hcol].
  destruct WF as (_ & _ & HSTOP).
  destruct feats as [|feat rest]; destruct tags as [|t ts]; try discriminate.
  - unfold tail_weight. simpl. rewrite Hcol by assumption. lra.
  - inversion He; subst. inversion Ht; subst.
    rewrite tail_weight_cons, Hcol by assumption.
    change (List.length (feat :: rest)) with (S (List.length rest)). rewrite S_INR.
    pose proof (tail_upper rest ts t ltac:(assumption) ltac:(simpl in Hl; lia)
                  ltac:(assumption) ltac:(assumption)).
    pose proof (emission_bounds feat t ltac:(assumption)). nra.
Qed.

Lemma tail_upper_sentinel_tag (feats : list (list R)) (tags : list nat) (prev : nat) :
  emissions_within feats B -> List.length tags = List.length feats ->
  Forall (fun t => (t < T)%nat) tags -> (prev < T)%nat ->
  Exists (fun t => t = START self \/ t = STOP self) tags ->
  tail_weight self prev feats tags <= -10000 + 2 * INR (List.length feats) * B.
Proof.
  revert tags prev.
  induction feats as [|feat rest IH]; intros tags prev He Hl Ht Hp Hex.
  - destruct tags; [inversion Hex | discriminate].
  - destruct tags as [|t ts]; [discriminate|].
    inversion He; subst. inversion Ht; subst.
    change (List.length (feat :: rest)) with (S (List.length rest)). rewrite S_INR.
    pose proof (emission_bounds feat t ltac:(assumption)) as Hem.
    assert (Hlen : List.length ts = List.length rest) by (simpl in Hl; lia).
    destruct (Nat.eq_dec t (START self)) as [->|HnS].
    + rewrite tail_weight_cons. destruct Hsent as [Hrow _].
      rewrite Hrow by assumption.
      pose proof (tail_upper rest ts (START self) ltac:(assumption) Hlen
                    ltac:(assumption) ltac:(assumption)). nra.
    + pose proof (Mat_upper t prev ltac:(assumption) Hp) as Hm.
      destruct (Nat.eq_dec t (STOP self)) as [->|HnT].
      * rewrite tail_weight_cons.
        pose proof (tail_upper_from_STOP rest ts ltac:(assumption) Hlen
                      ltac:(assumption)). nra.
      * rewrite tail_weight_cons.
        assert (Hex' : Exists (fun t => t = START self \/ t = STOP self) ts).
        { inversion Hex as [? ? [?|?] | ]; subst; tauto. }
        pose proof (IH ts t ltac:(assumption) Hlen ltac:(assumption)
                      ltac:(assumption) Hex'). nra.
Qed.

Lemma tail_lower_clean (c : nat) (feats : list (list R)) (prev : nat) :
  (c < T)%nat -> c <> START self -> c <> STOP self ->
  emissions_within feats B -> (prev < T)%nat -> prev <> STOP self ->
  - ((2 * INR (List.length feats) + 1) * B) <=
  tail_weight self prev feats (repeat c (List.length feats)).
Proof.
  intros Hc HcS HcT. revert prev.
  induction feats as [|feat rest IH]; intros prev He Hp HpT.
  - unfold tail_weight. simpl. destruct WF as (_ & _ & HSTOP).
    pose proof (Htrans (STOP self) prev HSTOP Hp ltac:(congruence) HpT). lra.
  - inversion He; subst.
    change (List.length (feat :: rest)) with (S (List.length rest)).
    cbn [repeat]. rewrite tail_weight_cons, S_INR.
    pose proof (IH c ltac:(assumption) Hc HcT).
    pose proof (Htrans c prev Hc Hp HcS HpT).
    pose proof (emission_bounds feat c ltac:(assumption)). nra.
Qed.

Lemma path_weight_tail (s0 : nat) (feats : list (list R)) (tags : list nat) :
  path_weight self s0 feats tags =
  nth s0 (init_alpha self) 0 + tail_weight self s0 feats tags.
Proof. unfold path_weight, tail_weight. lra. Qed.

(** Leaving from another initial tag than START costs the sentinel. *)
Lemma weight_prefers_START (feats : list (list R)) (tags : list nat) (s0 : nat) :
  2 * B < 10000 ->
  List.length tags = List.length feats ->
  Forall (fun t => (t < T)%nat) tags -> (s0 < T)%nat -> s0 <> START self ->
  path_weight self s0 feats tags < path_weight self (START self) feats tags.
Proof.
  intros HB Hl Ht Hs0 Hne.
  destruct WF as (_ & HSTART & HSTOP).
  rewrite !path_weight_tail, (init_alpha_START self WF),
    (init_alpha_other self s0 Hs0 Hne).
  destruct feats as [|feat rest]; destruct tags as [|t ts]; try discriminate.
  - unfold tail_weight. simpl.
    pose proof (Mat_upper (STOP self) s0 HSTOP Hs0).
    pose proof (Htrans (STOP self) (START self) HSTOP HSTART
                  ltac:(congruence) START_not_STOP). lra.
  - inversion Ht; subst. rewrite !tail_weight_cons.
    destruct (Nat.eq_dec t (START self)) as [->|HnS].
    + destruct Hsent as [Hrow _]. rewrite !Hrow by assumption. lra.
    + pose proof (Mat_upper t s0 ltac:(assumption) Hs0).
      pose proof (Htrans t (START self) ltac:(assumption) HSTART HnS
                    START_not_STOP). lra.
Qed.

(** A path that leaves from another initial tag than START, or visits
    START or STOP, scores less than the path that stays on a real tag. *)
Lemma sentinel_path_loses (c : nat) (feats : list (list R)) (tags : list nat)
    (s0 : nat) :
  (c < T)%nat -> c <> START self -> c <> STOP self ->
  emissions_within feats B ->
  2 * (2 * INR (List.length feats) + 1) * B < 10000 ->
  List.length tags = List.length feats ->
  Forall (fun t => (t < T)%nat) tags -> (s0 < T)%nat ->
  s0 <> START self \/ Exists (fun t => t = START self \/ t = STOP self) tags ->
  path_weight self s0 feats tags <
  path_weight self (START self) feats (repeat c (List.length feats)).
Proof.
  intros Hc HcS HcT He HB Hl Ht Hs0 Hbad.
  destruct WF as (_ & HSTART & HSTOP).
  pose proof (tail_lower_clean c feats (START self) Hc HcS HcT He HSTART
                START_not_STOP) as Hclean.
  rewrite !path_weight_tail, (init_alpha_START self WF).
  pose proof (pos_INR (List.length feats)) as Hn.
  destruct (Nat.eq_dec s0 (START self)) as [->|Hne].
  - destruct Hbad as [Hbad|Hbad]; [congruence|].
    rewrite (init_alpha_START self WF).
    pose proof (tail_upper_sentinel_tag feats tags (START self) He Hl Ht HSTART Hbad).
    nra.
  - rewrite (init_alpha_other self s0 Hs0 Hne).
    pose proof (tail_upper feats tags s0 He Hl Ht Hs0). nra.
Qed.

End Bounds.

(** C6, as the code has it. On an emission matrix of [L] rows of [T]
    scores the trace along the back pointers always completes, with [L]
    tags and the initial tag last.  When that initial tag is not START,
    [_viterbi_decode] raises [AssertionError] and returns nothing; when it
    is START, the decoder returns the trace with START popped off,
    reversed, [L] tags long.  The initial tag is START whenever the
    transition matrix has its sentinel row and column and every other
    transition score lies within [B] of zero for some [B] with
    [2 * B < 10000]. *)
Theorem viterbi_trace_assertion (self : BiLSTM_CRF R) (feats : list (list R)) :
  well_formed self ->
  matrix_shape (List.length feats) (tagset_size self) feats ->
  exists score trail,
    viterbi_trace self feats = Ok (score, trail) /\
    List.length trail = S (List.length feats) /\
    (last trail 0%nat <> START self ->
       _viterbi_decode self feats = Raise AssertionError) /\
    (last trail 0%nat = START self ->
       _viterbi_decode self feats = Ok (score, rev (removelast trail)) /\
       List.length (rev (removelast trail)) = List.length feats) /\
    (forall B, START self <> STOP self -> sentinel_rows self ->
       transitions_within self B -> 2 * B < 10000 ->
       last trail 0%nat = START self).
Proof.
  intros WF [_ Hfeats].
  destruct (viterbi_trace_optimal self WF feats Hfeats)
    as (s0 & tags & Hs0 & Htags & Hlen & Et & Ed & Hopt).
  exists (path_weight self s0 feats tags), (rev (s0 :: tags)).
  assert (Hlast : last (rev (s0 :: tags)) 0%nat = s0).
  { simpl. apply last_last. }
  assert (Hrm : rev (removelast (rev (s0 :: tags))) = tags).
  { simpl. now rewrite removelast_last, rev_involutive. }
  rewrite Hlast, Hrm.
  split; [assumption|]. split; [rewrite length_rev; simpl; lia|].
  split; [|split].
  - intros Hne. rewrite Ed.
    destruct (Nat.eqb_spec s0 (START self)); [contradiction | reflexivity].
  - intros ->. rewrite Ed, Nat.eqb_refl. auto.
  - intros B Hneq Hsent Htrans HB.
    destruct (Nat.eq_dec s0 (START self)) as [|Hne]; [assumption|exfalso].
    assert (HB0 : 0 <= B).
    { destruct WF as (_ & HSTART & HSTOP).
      pose proof (Htrans (STOP self) (START self) HSTOP HSTART
                    ltac:(congruence) Hneq). lra. }
    pose proof (weight_prefers_START self WF B HB0 Hneq Hsent Htrans
                  feats tags s0 HB Hlen Htags Hs0 Hne) as Hlt.
    assert (HS : (START self < tagset_size self)%nat) by apply WF.
    pose proof (Hopt (START self) tags HS Htags Hlen). lra.
Qed.

(** C5. Let the transition matrix have its sentinel row and column, let
    there be a tag besides START and STOP, and let every other transition
    score and every emission score lie within [B] of zero, with
    [2 * (2 * L + 1) * B < 10000], so that the sentinel outweighs every sum
    of the [2 * L + 1] scores of a path.  Then [_viterbi_decode] returns,
    and the path it returns has [L] tags, none of them START or STOP. *)
Theorem viterbi_decode_no_sentinel_tags (self : BiLSTM_CRF R)
    (feats : list (list R)) (B : R) (c : nat) :
  well_formed self ->
  matrix_shape (List.length feats) (tagset_size self) feats ->
  START self <> STOP self ->
  (c < tagset_size self)%nat -> c <> START self -> c <> STOP self ->
  sentinel_rows self -> transitions_within self B ->
  emissions_within feats B ->
  2 * (2 * INR (List.length feats) + 1) * B < 10000 ->
  exists score path,
    _viterbi_decode self feats = Ok (score, path) /\
    List.length path = List.length feats /\
    Forall (fun t => t <> START self /\ t <> STOP self) path.
Proof.
  intros WF [_ Hfeats] Hneq Hc HcS HcT Hsent Htrans Hem HB.
  destruct (viterbi_trace_optimal self WF feats Hfeats)
    as (s0 & tags & Hs0 & Htags & Hlen & _ & Ed & Hopt).
  assert (HB0 : 0 <= B).
  { pose proof (Htrans c c Hc Hc HcS HcT). lra. }
  assert (Hclean : Forall (fun t => (t < tagset_size self)%nat)
                     (repeat c (List.length feats))).
  { apply Forall_forall. intros t Ht. apply repeat_spec in Ht. now subst. }
  assert (HS : (START self < tagset_size self)%nat) by apply WF.
  pose proof (Hopt (START self) (repeat c (List.length feats)) HS Hclean
                (repeat_length _ _)) as Hbest.
  assert (Hgood : ~ (s0 <> START self \/
                     Exists (fun t => t = START self \/ t = STOP self) tags)).
  { intros Hbad.
    pose proof (sentinel_path_loses self WF B HB0 Hneq Hsent Htrans c feats tags s0
                  Hc HcS HcT Hem HB Hlen Htags Hs0 Hbad). lra. }
  assert (Es0 : s0 = START self).
  { destruct (Nat.eq_dec s0 (START self)); [assumption|tauto]. }
  rewrite Es0, Nat.eqb_refl in Ed.
  exists (path_weight self (START self) feats tags), tags.
  split; [assumption|]. split; [assumption|].
  apply Forall_forall. intros t Ht. split; intros ->; apply Hgood; right;
    apply Exists_exists; eauto.
Qed.

(** ** Runs on real scores *)

Lemma toyR_well_formed : well_formed toyR.
Proof.
  split; [split; [reflexivity | repeat constructor] | simpl; lia].
Qed.

Lemma toyR_shape : matrix_shape 2 3 toy_feats.
Proof. split; [reflexivity | repeat constructor]. Qed.

Lemma toyR_sentinel_rows : sentinel_rows toyR.
Proof.
  split; intros i Hi; tag_cases i; unfold Mat; simpl; reflexivity.
Qed.

Lemma toyR_transitions_within : transitions_within toyR 4.
Proof.
  intros i j Hi Hj HiS HjT. tag_cases i; tag_cases j; unfold Mat; simpl;
    simpl in HiS, HjT; try congruence; lra.
Qed.

Lemma toyR_emissions_within : emissions_within toy_feats 4.
Proof. repeat constructor; lra. Qed.

Lemma forward_alg_log_partition_witness :
  _forward_alg toyR toy_feats = Ok (forward_recurrence toyR toy_feats) /\
  forward_recurrence toyR toy_feats = ln (partition toyR toy_feats).
Proof.
  apply (forward_alg_log_partition toyR toy_feats).
  - exact toyR_well_formed.
  - exact toyR_shape.
Defined.

Lemma score_sentence_is_gold_path_score_witness :
  _score_sentence toyR toy_feats [0; 0]%nat =
  Ok (gold_path_score toyR toy_feats [0; 0]%nat).
Proof.
  apply (score_sentence_is_gold_path_score toyR toy_feats [0; 0]%nat).
  - exact toyR_well_formed.
  - exact toyR_shape.
  - repeat constructor.
Defined.

Lemma forward_dominates_gold_witness :
  exists forward_score gold_score,
    _forward_alg toyR toy_feats = Ok forward_score /\
    _score_sentence toyR toy_feats [0; 2]%nat = Ok gold_score /\
    gold_score <= forward_score /\
    neg_log_likelihood toyR (fun _ => toy_feats) [7; 8]%nat [0; 2]%nat =
      Ok (forward_score - gold_score) /\
    0 <= forward_score - gold_score.
Proof.
  apply (forward_dominates_gold toyR (fun _ => toy_feats) [7; 8]%nat [0; 2]%nat
           toy_feats).
  - exact toyR_well_formed.
  - reflexivity.
  - exact toyR_shape.
  - repeat constructor.
Defined.

Lemma viterbi_trace_assertion_witness :
  exists score trail,
    viterbi_trace toyR toy_feats = Ok (score, trail) /\
    List.length trail = 3%nat /\
    last trail 0%nat = START toyR /\
    _viterbi_decode toyR toy_feats = Ok (score, rev (removelast trail)) /\
    List.length (rev (removelast trail)) = 2%nat.
Proof.
  destruct (viterbi_trace_assertion toyR toy_feats toyR_well_formed toyR_shape)
    as (score & trail & Et & Hlen & _ & Hok & Hdom).
  assert (Hlast : last trail 0%nat = START toyR).
  { apply (Hdom 4).
    - discriminate.
    - exact toyR_sentinel_rows.
    - exact toyR_transitions_within.
    - lra. }
  exists score, trail. destruct (Hok Hlast) as [Ed Hl]. auto.
Defined.

Lemma viterbi_decode_no_sentinel_tags_witness :
  exists score path,
    _viterbi_decode toyR toy_feats = Ok (score, path) /\
    List.length path = 2%nat /\
    Forall (fun t => t <> 1%nat /\ t <> 2%nat) path.
Proof.
  apply (viterbi_decode_no_sentinel_tags toyR toy_feats 4 0).
  - exact toyR_well_formed.
  - exact toyR_shape.
  - discriminate.
  - simpl; lia.
  - discriminate.
  - discriminate.
  - exact toyR_sentinel_rows.
  - exact toyR_transitions_within.
  - exact toyR_emissions_within.
  - simpl. lra.
Defined.

Lemma steepR_well_formed : well_formed steepR.
Proof.
  split; [split; [reflexivity | repeat constructor] | simpl; lia].
Qed.

Lemma exp_le_1 (x : R) : x <= 0 -> exp x <= 1.
Proof.
  intros [Hlt | ->]; [|rewrite exp_0; lra].
  left. rewrite <- exp_0. now apply exp_increasing.
Qed.

(** C1, as the spec has it, fails on [steepR] and one row of zero
    emissions.  Every path that leaves from START scores at most 0, so the
    logarithm of the sum over these paths is below 2; the forward score
    is 10000 or more, because the path that leaves from tag 0 with the
    -10000 of the initial vector and takes the step from tag 0 to itself
    scores 10000 and is in the sum of [_forward_alg]. *)
Lemma forward_alg_not_anchored :
  well_formed steepR /\ matrix_shape 1 3 [[0; 0; 0]] /\
  ln (anchored_partition steepR [[0; 0; 0]]) < 2 /\
  exists a, _forward_alg steepR [[0; 0; 0]] = Ok a /\ 10000 <= a /\
            a <> ln (anchored_partition steepR [[0; 0; 0]]).
Proof.
  assert (Hs : matrix_shape 1 3 [[0; 0; 0]])
    by (split; [reflexivity | repeat constructor]).
  assert (Ha : ln (anchored_partition steepR [[0; 0; 0]]) < 2).
  { assert (Hle : anchored_partition steepR [[0; 0; 0]] <= 3).
    { unfold anchored_partition.
      change (all_seqs (tagset_size steepR) (List.length [[0; 0; 0]]))
        with [[0%nat]; [1%nat]; [2%nat]].
      cbn [map]. rewrite !Rsum_cons. change (Rsum []) with 0.
      assert (H0 : exp (gold_path_score steepR [[0; 0; 0]] [0%nat]) <= 1).
      { apply exp_le_1. unfold gold_path_score. simpl. unfold Mat. simpl. lra. }
      assert (H1 : exp (gold_path_score steepR [[0; 0; 0]] [1%nat]) <= 1).
      { apply exp_le_1. unfold gold_path_score. simpl. unfold Mat. simpl. lra. }
      assert (H2 : exp (gold_path_score steepR [[0; 0; 0]] [2%nat]) <= 1).
      { apply exp_le_1. unfold gold_path_score. simpl. unfold Mat. simpl. lra. }
      lra. }
    pose proof (anchored_partition_pos steepR steepR_well_formed [[0; 0; 0]]) as Hpos.
    rewrite <- (ln_exp 2). apply ln_increasing; [assumption|].
    pose proof (exp_ineq1 2 ltac:(lra)). lra. }
  split; [exact steepR_well_formed|]. split; [exact Hs|]. split; [exact Ha|].
  exists (forward_recurrence steepR [[0; 0; 0]]).
  split; [exact (forward_alg_recurrence steepR steepR_well_formed [[0; 0; 0]] (proj2 Hs))|].
  assert (Hb : 10000 <= forward_recurrence steepR [[0; 0; 0]]).
  { rewrite (forward_recurrence_partition steepR ltac:(simpl; lia) [[0; 0; 0]]).
    rewrite <- (ln_exp 10000) at 1. apply ln_le_compat; [apply exp_pos|].
    replace 10000 with (path_weight steepR 0 [[0; 0; 0]] [0%nat])
      by (unfold path_weight, init_alpha; simpl; unfold Mat; simpl; lra).
    unfold partition.
    set (inner := fun s0 =>
           Rsum (map (fun tags => exp (path_weight steepR s0 [[0; 0; 0]] tags))
                     (all_seqs (tagset_size steepR) (List.length [[0; 0; 0]])))).
    apply Rle_trans with (inner 0%nat).
    - apply Rsum_ge_member.
      + apply Forall_forall. intros y Hy. apply in_map_iff in Hy as (t & <- & _).
        left. apply exp_pos.
      + apply (in_map (fun tags => exp (path_weight steepR 0 [[0; 0; 0]] tags))).
        simpl. now left.
    - apply Rsum_ge_member.
      + apply Forall_forall. intros y Hy. apply in_map_iff in Hy as (t & <- & _).
        unfold inner. apply Rsum_nonneg, Forall_forall.
        intros z Hz. apply in_map_iff in Hz as (u & <- & _). left. apply exp_pos.
      + apply (in_map inner). simpl. now left. }
  split; [exact Hb | lra].
Qed.

(** C6, as the spec has it, fails on [steepR]: the sentinel row and
    column are in place, the emission matrix has one row, and the trace
    ends at tag 0, not at START, so the assertion fails. *)
Lemma viterbi_assertion_can_fail :
  well_formed steepR /\ sentinel_rows steepR /\
  matrix_shape 1 3 [[0; 0; 0]] /\
  _viterbi_decode steepR [[0; 0; 0]] = Raise AssertionError.
Proof.
  assert (WF : well_formed steepR).
  { split; [split; [reflexivity | repeat constructor] | simpl; lia]. }
  split; [exact WF|]. split; [|split].
  - split; intros i Hi; tag_cases i; unfold Mat; simpl; reflexivity.
  - split; [reflexivity | repeat constructor].
  - destruct (viterbi_trace_optimal steepR WF [[0; 0; 0]])
      as (s0 & tags & Hs0 & Htags & Hlen & _ & Ed & Hopt).
    { repeat constructor. }
    rewrite Ed. destruct (Nat.eqb_spec s0 (START steepR)) as [->|]; [|reflexivity].
    exfalso.
    pose proof (Hopt 0%nat [0%nat] ltac:(simpl; lia) ltac:(repeat constructor; simpl; lia)
                  eq_refl) as Hbest.
    destruct tags as [|t [|? ?]]; try discriminate.
    inversion Htags as [|? ? Ht _]; subst. simpl in Ht.
    tag_cases t; unfold path_weight, init_alpha in Hbest; simpl in Hbest;
      unfold Mat in Hbest; simpl in Hbest; lra.
Qed.

(** ** The word dictionary *)

Close Scope R_scope.

Lemma lookup_mem (d : list (string * nat)) (k : string) :
  mem k d = true <-> exists v, lookup d k = Ok v.
Proof.
  induction d as [|[k' v'] d IH]; simpl.
  - split; [discriminate | intros [v E]; discriminate].
  - destruct (String.eqb k' k); simpl; [split; eauto | exact IH].
Qed.

Lemma lookup_Raise (d : list (string * nat)) (k : string) (e : exn) :
  lookup d k = Raise e -> e = KeyError /\ mem k d = false.
Proof.
  induction d as [|[k' v'] d IH]; simpl.
  - intros [= <-]. auto.
  - destruct (String.eqb k' k); simpl; [discriminate | exact IH].
Qed.

Lemma lookup_not_mem (d : list (string * nat)) (k : string) :
  mem k d = false -> lookup d k = Raise KeyError.
Proof.
  intros Hm. destruct (lookup d k) as [v|e] eqn:E.
  - assert (mem k d = true) by (apply lookup_mem; eauto). congruence.
  - apply lookup_Raise in E as [-> _]. reflexivity.
Qed.

Lemma lookup_In (d : list (string * nat)) (k : string) (v : nat) :
  lookup d k = Ok v -> In (k, v) d.
Proof.
  induction d as [|[k' v'] d IH]; simpl; [discriminate|].
  destruct (String.eqb_spec k' k) as [->|Hne].
  - intros [= ->]. now left.
  - intros E. right. now apply IH.
Qed.

Lemma mem_In (d : list (string * nat)) (k : string) :
  mem k d = true <-> In k (map fst d).
Proof.
  unfold mem. rewrite existsb_exists, in_map_iff. split.
  - intros ([k' v] & Hin & E). apply String.eqb_eq in E. simpl in E. subst.
    exists (k, v). auto.
  - intros ([k' v] & E & Hin). simpl in E. subst.
    exists (k, v). split; [assumption | apply String.eqb_refl].
Qed.

Lemma lookup_app_l (d d' : list (string * nat)) (k : string) (v : nat) :
  lookup d k = Ok v -> lookup (d ++ d') k = Ok v.
Proof.
  induction d as [|[k' v'] d IH]; simpl; [discriminate|].
  destruct (String.eqb k' k); auto.
Qed.

Lemma lookup_app_new (d : list (string * nat)) (k : string) (v : nat) :
  mem k d = false -> lookup (d ++ [(k, v)]) k = Ok v.
Proof.
  induction d as [|[k' v'] d IH]; simpl.
  - now rewrite String.eqb_refl.
  - destruct (String.eqb k' k); simpl; [discriminate | exact IH].
Qed.

Lemma extends_refl (d : list (string * nat)) : extends d d.
Proof. exists []. now rewrite app_nil_r. Qed.

Lemma extends_trans (d1 d2 d3 : list (string * nat)) :
  extends d1 d2 -> extends d2 d3 -> extends d1 d3.
Proof. intros [a ->] [b ->]. exists (a ++ b). now rewrite app_assoc. Qed.

Lemma extends_lookup (d d2 : list (string * nat)) (k : string) (v : nat) :
  extends d d2 -> lookup d k = Ok v -> lookup d2 k = Ok v.
Proof. intros [d' ->]. apply lookup_app_l. Qed.

Lemma extends_mem (d d2 : list (string * nat)) (k : string) :
  extends d d2 -> mem k d = true -> mem k d2 = true.
Proof.
  intros Hext Hm. apply lookup_mem in Hm as [v E].
  apply lookup_mem. exists v. eapply extends_lookup; eauto.
Qed.

Lemma extends_length (d d2 : list (string * nat)) :
  extends d d2 -> List.length d <= List.length d2.
Proof. intros [d' ->]. rewrite length_app. lia. Qed.

Lemma add_word_extends (d : list (string * nat)) (w : string) :
  extends d (add_word d w).
Proof.
  unfold add_word. destruct (mem w d); [apply extends_refl | eexists; eauto].
Qed.

Lemma add_word_mem (d : list (string * nat)) (w : string) :
  mem w (add_word d w) = true.
Proof.
  unfold add_word. destruct (mem w d) eqn:E; [assumption|].
  apply lookup_mem. eexists. now apply lookup_app_new.
Qed.

Lemma add_words_extends (sentence : list string) (d : list (string * nat)) :
  extends d (fold_left add_word sentence d).
Proof.
  revert d. induction sentence as [|w rest IH]; intros d; simpl.
  - apply extends_refl.
  - eapply extends_trans; [apply add_word_extends | apply IH].
Qed.

Lemma add_words_mem (sentence : list string) (d : list (string * nat)) (w : string) :
  In w sentence -> mem w (fold_left add_word sentence d) = true.
Proof.
  revert d. induction sentence as [|w' rest IH]; intros d; simpl; [tauto|].
  intros [->|Hin]; [|now apply IH].
  eapply extends_mem; [apply add_words_extends | apply add_word_mem].
Qed.

Lemma dict_load_extends (vocab : list (string * nat))
    (training_data : list (list string * list string)) :
  extends vocab (dict_load vocab training_data).
Proof.
  unfold dict_load. revert vocab.
  induction training_data as [|st rest IH]; intros vocab; simpl.
  - apply extends_refl.
  - eapply extends_trans; [apply add_words_extends | apply IH].
Qed.

(** X1. [dict_load] never changes or drops an entry of the dict it has
    read, and it returns a dict that holds every character of every
    training sentence. *)
Theorem dict_load_keeps_and_covers (vocab : list (string * nat))
    (training_data : list (list string * list string)) :
  (forall w i, lookup vocab w = Ok i ->
     lookup (dict_load vocab training_data) w = Ok i) /\
  (forall sentence tags w,
     In (sentence, tags) training_data -> In w sentence ->
     mem w (dict_load vocab training_data) = true) /\
  List.length vocab <= List.length (dict_load vocab training_data).
Proof.
  split; [|split].
  - intros w i. apply extends_lookup, dict_load_extends.
  - unfold dict_load. revert vocab.
    induction training_data as [|st rest IH]; intros vocab sentence tags w Hin Hw;
      simpl in *; [tauto|].
    destruct Hin as [->|Hin]; [|eapply IH; eauto].
    simpl. eapply extends_mem.
    + apply (dict_load_extends _ rest).
    + now apply add_words_mem.
  - apply extends_length, dict_load_extends.
Qed.

Lemma NoDup_snoc {A : Type} (l : list A) (a : A) :
  NoDup l -> ~ In a l -> NoDup (l ++ [a]).
Proof.
  intros Hl Ha. apply NoDup_app; [assumption | repeat constructor; auto |].
  intros x Hx [<-|[]]. contradiction.
Qed.

Lemma add_word_numbering (d : list (string * nat)) (w : string) :
  numbering d -> numbering (add_word d w).
Proof.
  intros (Hk & Hv & Hlt). unfold add_word.
  destruct (mem w d) eqn:Hm; [repeat split; assumption|].
  assert (Hfresh : ~ In (List.length d) (map snd d)).
  { intros Hin. apply in_map_iff in Hin as (p & E & Hp).
    rewrite Forall_forall in Hlt. specialize (Hlt p Hp). lia. }
  split; [|split].
  - rewrite map_app. simpl. apply NoDup_snoc; [assumption|].
    intros Hin. apply mem_In in Hin. congruence.
  - rewrite map_app. simpl. now apply NoDup_snoc.
  - rewrite length_app. simpl. apply Forall_app. split.
    + eapply Forall_impl; [|exact Hlt]. simpl. intros; lia.
    + repeat constructor. simpl. lia.
Qed.

Lemma add_words_numbering (sentence : list string) (d : list (string * nat)) :
  numbering d -> numbering (fold_left add_word sentence d).
Proof.
  revert d. induction sentence as [|w rest IH]; intros d Hd; simpl; auto.
  apply IH. now apply add_word_numbering.
Qed.

Lemma numbering_lookup (d : list (string * nat)) (w : string) (i : nat) :
  numbering d -> lookup d w = Ok i -> i < List.length d.
Proof.
  intros (_ & _ & Hlt) E. apply lookup_In in E.
  rewrite Forall_forall in Hlt. apply (Hlt _ E).
Qed.

Lemma NoDup_map_snd_inj (d : list (string * nat)) (k1 k2 : string) (v : nat) :
  NoDup (map snd d) -> In (k1, v) d -> In (k2, v) d -> k1 = k2.
Proof.
  induction d as [|[k' v'] d IH]; simpl; [tauto|].
  intros Hnd [E1|H1] [E2|H2]; inversion Hnd as [|? ? Hnot Hnd']; subst.
  - congruence.
  - injection E1 as -> ->. exfalso. apply Hnot.
    apply in_map_iff. exists (k2, v). auto.
  - injection E2 as -> ->. exfalso. apply Hnot.
    apply in_map_iff. exists (k1, v). auto.
  - now apply IH.
Qed.

Lemma dict_load_keeps_numbering (vocab : list (string * nat))
    (training_data : list (list string * list string)) :
  numbering vocab -> numbering (dict_load vocab training_data).
Proof.
  unfold dict_load. revert vocab.
  induction training_data as [|st rest IH]; intros vocab Hv; simpl; auto.
  apply IH. now apply add_words_numbering.
Qed.

(** X2. When the dict read from the vocabulary file numbers its keys by
    [0 .. len - 1], so does the dict that [dict_load] returns: its keys
    are distinct, its indices are distinct, and every index is below its
    length, which is the [vocab_size] the model is built with. *)
Theorem dict_load_numbering (vocab : list (string * nat))
    (training_data : list (list string * list string)) :
  numbering vocab -> numbering (dict_load vocab training_data).
Proof. apply dict_load_keeps_numbering. Qed.

Lemma add_words_known (sentence : list string) (d : list (string * nat)) :
  Forall (fun w => mem w d = true) sentence -> fold_left add_word sentence d = d.
Proof.
  induction 1 as [|w rest Hw Hrest IH]; simpl; [reflexivity|].
  unfold add_word at 2. now rewrite Hw.
Qed.

Lemma dict_load_known (d : list (string * nat))
    (training_data : list (list string * list string)) :
  Forall (fun st => Forall (fun w => mem w d = true) (fst st)) training_data ->
  dict_load d training_data = d.
Proof.
  unfold dict_load. induction 1 as [|st rest Hst Hrest IH]; simpl; [reflexivity|].
  now rewrite add_words_known.
Qed.

(** X3. [dict_load] adds nothing on a second pass: on the dict it has
    returned and the same training data it returns that dict again. *)
Theorem dict_load_idempotent (vocab : list (string * nat))
    (training_data : list (list string * list string)) :
  dict_load (dict_load vocab training_data) training_data =
  dict_load vocab training_data.
Proof.
  apply dict_load_known. apply Forall_forall. intros [sentence tags] Hin.
  apply Forall_forall. intros w Hw. simpl in Hw.
  unfold dict_load. revert vocab.
  induction training_data as [|st rest IH]; intros vocab; simpl in *; [tauto|].
  destruct Hin as [->|Hin]; [|now apply IH].
  simpl. eapply extends_mem.
  - apply (dict_load_extends _ rest).
  - now apply add_words_mem.
Qed.

(** ** The new words of [dict_load] *)

Lemma mem_keys (d : list (string * nat)) (w : string) :
  mem w d = existsb (fun k => String.eqb k w) (map fst d).
Proof.
  unfold mem. induction d as [|p d IH]; simpl; [reflexivity | now rewrite IH].
Qed.

Lemma seen_In (seen : list string) (w : string) :
  existsb (fun k => String.eqb k w) seen = true <-> In w seen.
Proof.
  rewrite existsb_exists. split.
  - intros (k & Hk & E). apply String.eqb_eq in E. now subst.
  - intros Hin. exists w. split; [assumption | apply String.eqb_refl].
Qed.

Lemma seen_not_In (seen : list string) (w : string) :
  existsb (fun k => String.eqb k w) seen = false <-> ~ In w seen.
Proof.
  rewrite <- seen_In. destruct (existsb _ seen); split; congruence.
Qed.

Lemma unseen_In (words seen : list string) (w : string) :
  In w (unseen seen words) <-> In w words /\ ~ In w seen.
Proof.
  revert seen. induction words as [|w0 rest IH]; intros seen; cbn [unseen].
  - simpl. tauto.
  - destruct (existsb (fun k => String.eqb k w0) seen) eqn:E.
    + apply seen_In in E. rewrite IH. simpl. split; [tauto|].
      intros [[->|Hin] Hn]; tauto.
    + apply seen_not_In in E. simpl. rewrite IH, in_app_iff. simpl.
      destruct (string_dec w0 w) as [->|Hne]; tauto.
Qed.

Lemma unseen_NoDup (words seen : list string) : NoDup (unseen seen words).
Proof.
  revert seen. induction words as [|w0 rest IH]; intros seen; cbn [unseen].
  - constructor.
  - destruct (existsb (fun k => String.eqb k w0) seen); [apply IH|].
    constructor; [|apply IH].
    rewrite unseen_In, in_app_iff. simpl. tauto.
Qed.

Lemma unseen_app (l1 l2 seen : list string) :
  unseen seen (l1 ++ l2) =
  unseen seen l1 ++ unseen (seen ++ unseen seen l1) l2.
Proof.
  revert seen. induction l1 as [|w0 rest IH]; intros seen; cbn [unseen app].
  - now rewrite app_nil_r.
  - destruct (existsb (fun k => String.eqb k w0) seen); [apply IH|].
    rewrite IH, <- app_assoc. reflexivity.
Qed.

(** The inner loop of [dict_load] appends the unseen words of the
    sentence and numbers them from the length of the dict. *)
Lemma add_words_appends (words : list string) (d : list (string * nat)) :
  fold_left add_word words d =
  d ++ combine (unseen (map fst d) words)
               (seq (List.length d) (List.length (unseen (map fst d) words))).
Proof.
  revert d. induction words as [|w rest IH]; intros d; cbn [fold_left unseen].
  - simpl. now rewrite app_nil_r.
  - rewrite <- mem_keys. unfold add_word at 2. destruct (mem w d).
    + apply IH.
    + rewrite IH, map_app, length_app, <- app_assoc. cbn [map fst List.length].
      replace (List.length d + 1) with (S (List.length d)) by lia.
      reflexivity.
Qed.

(** The two loops of [dict_load] run over the characters of the
    sentences one after the other. *)
Lemma dict_load_words (vocab : list (string * nat))
    (training_data : list (list string * list string)) :
  dict_load vocab training_data =
  fold_left add_word (List.concat (map fst training_data)) vocab.
Proof.
  unfold dict_load. revert vocab.
  induction training_data as [|st rest IH]; intros vocab; simpl; [reflexivity|].
  rewrite fold_left_app. apply IH.
Qed.

Lemma dict_load_appends (vocab : list (string * nat))
    (training_data : list (list string * list string)) :
  dict_load vocab training_data =
  vocab ++ combine (unseen (map fst vocab) (List.concat (map fst training_data)))
             (seq (List.length vocab)
                  (List.length (unseen (map fst vocab)
                                       (List.concat (map fst training_data))))).
Proof. rewrite dict_load_words. apply add_words_appends. Qed.

Lemma lookup_app_r (d d' : list (string * nat)) (k : string) :
  mem k d = false -> lookup (d ++ d') k = lookup d' k.
Proof.
  induction d as [|[k' v'] d IH]; simpl; [reflexivity|].
  destruct (String.eqb k' k); simpl; [discriminate | exact IH].
Qed.

Lemma lookup_combine_seq (pre post : list string) (w : string) (n : nat) :
  ~ In w pre ->
  lookup (combine (pre ++ w :: post)
                  (seq n (List.length (pre ++ w :: post)))) w =
  Ok (n + List.length pre).
Proof.
  revert n. induction pre as [|a pre IH]; intros n Hn; cbn [app List.length seq combine lookup].
  - rewrite String.eqb_refl. f_equal. lia.
  - destruct (String.eqb_spec a w) as [->|Hne]; [exfalso; apply Hn; now left|].
    rewrite IH by (intros Hin; apply Hn; now right).
    f_equal. lia.
Qed.

(** Every index of the dict that [dict_load] returns is an index of the
    dict it has read or lies below the length of the dict returned. *)
Lemma dict_load_indices (vocab : list (string * nat))
    (training_data : list (list string * list string)) (w : string) (i : nat) :
  In (w, i) (dict_load vocab training_data) ->
  In (w, i) vocab \/ i < List.length (dict_load vocab training_data).
Proof.
  rewrite dict_load_appends.
  set (news := unseen (map fst vocab) (List.concat (map fst training_data))).
  rewrite length_app, length_combine, length_seq, Nat.min_id.
  intros Hin. apply in_app_or in Hin as [Hin|Hin]; [now left|].
  right. apply in_combine_r, in_seq in Hin. lia.
Qed.

Lemma dict_load_covers (vocab : list (string * nat))
    (training_data : list (list string * list string))
    (sentence tags : list string) (w : string) :
  In (sentence, tags) training_data -> In w sentence ->
  mem w (dict_load vocab training_data) = true.
Proof.
  unfold dict_load. revert vocab.
  induction training_data as [|st rest IH]; intros vocab Hin Hw;
    simpl in *; [tauto|].
  destruct Hin as [->|Hin]; [|now apply IH].
  simpl. eapply extends_mem.
  - apply (dict_load_extends _ rest).
  - now apply add_words_mem.
Qed.

(** ** [prepare_sequence] *)

Lemma fits_long_lt (i : nat) : fits_long i = true <-> (Z.of_nat i < 2 ^ 63)%Z.
Proof. unfold fits_long. apply Z.ltb_lt. Qed.

Lemma fits_long_ge (i : nat) : fits_long i = false <-> (2 ^ 63 <= Z.of_nat i)%Z.
Proof. unfold fits_long. apply Z.ltb_ge. Qed.

Lemma Forall2_In_l {A B : Type} (P : A -> B -> Prop) (l : list A) (bs : list B)
    (a : A) :
  Forall2 P l bs -> In a l -> exists b, In b bs /\ P a b.
Proof.
  induction 1 as [|a' b l' bs' Hab F IH]; simpl; [tauto|].
  intros [<-|Hin]; [eauto|].
  destruct (IH Hin) as (b' & Hb & Hp). eauto.
Qed.

Lemma Forall2_In_r {A B : Type} (P : A -> B -> Prop) (l : list A) (bs : list B)
    (b : B) :
  Forall2 P l bs -> In b bs -> exists a, In a l /\ P a b.
Proof.
  induction 1 as [|a b' l' bs' Hab F IH]; simpl; [tauto|].
  intros [<-|Hin]; [eauto|].
  destruct (IH Hin) as (a' & Ha & Hp). eauto.
Qed.

Lemma forallb_false {A : Type} (f : A -> bool) (l : list A) :
  forallb f l = false -> exists a, In a l /\ f a = false.
Proof.
  induction l as [|a l IH]; simpl; [discriminate|].
  destruct (f a) eqn:E; simpl.
  - intros Hl. destruct (IH Hl) as (b & Hb & Eb). eauto.
  - eauto.
Qed.

Lemma mapM_lookup_Raise (seq : list string) (d : list (string * nat)) (e : exn) :
  mapM (lookup d) seq = Raise e ->
  e = KeyError /\ exists w, In w seq /\ mem w d = false.
Proof.
  induction seq as [|w rest IH]; simpl; [discriminate|].
  destruct (lookup d w) as [i|e'] eqn:E; simpl.
  - destruct (mapM (lookup d) rest) as [js|e''] eqn:E'; simpl; [discriminate|].
    intros [= <-]. destruct (IH eq_refl) as (-> & w' & Hin & Hm).
    split; [reflexivity|]. exists w'. auto.
  - intros [= <-]. apply lookup_Raise in E as [-> Hm].
    split; [reflexivity|]. exists w. auto.
Qed.

(** The three ways out of [prepare_sequence]: the tensor of the indices,
    the overflow of the tensor constructor, the [KeyError] of the dict. *)
Lemma prepare_sequence_cases (seq : list string) (d : list (string * nat)) :
  (exists idxs,
     Forall2 (fun w i => lookup d w = Ok i) seq idxs /\
     ((Forall (fun i => (Z.of_nat i < 2 ^ 63)%Z) idxs /\
       prepare_sequence seq d = Ok idxs) \/
      ((exists i, In i idxs /\ (2 ^ 63 <= Z.of_nat i)%Z) /\
       prepare_sequence seq d = Raise RuntimeError))) \/
  ((exists w, In w seq /\ mem w d = false) /\
   prepare_sequence seq d = Raise KeyError).
Proof.
  unfold prepare_sequence.
  destruct (mapM (lookup d) seq) as [idxs|e] eqn:E; cbn [bind].
  - left. exists idxs. split; [now apply mapM_Forall2|].
    destruct (forallb fits_long idxs) eqn:Ef.
    + left. split; [|reflexivity].
      apply Forall_forall. intros i Hi. apply fits_long_lt.
      rewrite forallb_forall in Ef. auto.
    + right. split; [|reflexivity].
      destruct (forallb_false fits_long idxs Ef) as (i & Hi & Hf).
      exists i. split; [assumption | now apply fits_long_ge].
  - right. apply mapM_lookup_Raise in E as [-> Hw]. auto.
Qed.

Lemma prepare_sequence_Ok (seq : list string) (d : list (string * nat)) :
  (forall w, In w seq ->
     exists i, lookup d w = Ok i /\ (Z.of_nat i < 2 ^ 63)%Z) ->
  exists idxs, prepare_sequence seq d = Ok idxs /\
               Forall2 (fun w i => lookup d w = Ok i) seq idxs.
Proof.
  intros Hall.
  destruct (prepare_sequence_cases seq d)
    as [(idxs & F & [[_ E] | [(i & Hi & Hbig) _]]) | [(w & Hw & Hm) _]].
  - eauto.
  - exfalso. destruct (Forall2_In_r _ _ _ i F Hi) as (w & Hw & Ew).
    destruct (Hall w Hw) as (i' & Ew' & Hlt). rewrite Ew in Ew'.
    injection Ew' as <-. lia.
  - exfalso. destruct (Hall w Hw) as (i & Ew & _).
    rewrite (lookup_not_mem d w Hm) in Ew. discriminate.
Qed.

Lemma prepare_sequence_lookups (seq : list string) (d : list (string * nat))
    (idxs : list nat) :
  prepare_sequence seq d = Ok idxs ->
  Forall2 (fun w i => lookup d w = Ok i) seq idxs.
Proof.
  intros E.
  destruct (prepare_sequence_cases seq d)
    as [(idxs' & F & [[_ E'] | [_ E']]) | [_ E']]; congruence.
Qed.

(** X4. [prepare_sequence] raises [KeyError] exactly when some word of
    the sequence is not a key of the dict.  It raises another error, the
    overflow of [torch.tensor(idxs, dtype=torch.long)], exactly when
    every word is a key and the index of some word is [2^63] or more.
    When every word is a key with an index below [2^63] it succeeds, and
    what it returns then has one index per word, each the dict's entry for
    that word and below [2^63]. *)
Theorem prepare_sequence_KeyError (seq : list string) (d : list (string * nat)) :
  ((exists w, In w seq /\ mem w d = false) <->
   prepare_sequence seq d = Raise KeyError) /\
  ((forall w, In w seq -> mem w d = true) /\
   (exists w i, In w seq /\ lookup d w = Ok i /\ (2 ^ 63 <= Z.of_nat i)%Z) <->
   exists e, prepare_sequence seq d = Raise e /\ e <> KeyError) /\
  ((forall w, In w seq ->
      exists i, lookup d w = Ok i /\ (Z.of_nat i < 2 ^ 63)%Z) <->
   exists idxs, prepare_sequence seq d = Ok idxs) /\
  (forall idxs, prepare_sequence seq d = Ok idxs ->
     List.length idxs = List.length seq /\
     Forall2 (fun w i => lookup d w = Ok i /\ (Z.of_nat i < 2 ^ 63)%Z)
             seq idxs).
Proof.
  assert (Hkey : forall idxs w,
            Forall2 (fun w i => lookup d w = Ok i) seq idxs ->
            In w seq -> mem w d = true).
  { intros idxs w F Hw. destruct (Forall2_In_l _ _ _ w F Hw) as (i & _ & Ew).
    apply lookup_mem. eauto. }
  pose proof (prepare_sequence_cases seq d) as Hc.
  split; [|split; [|split]].
  - split.
    + intros (w & Hw & Hm).
      destruct Hc as [(idxs & F & _) | [_ E]]; [|exact E].
      rewrite (Hkey idxs w F Hw) in Hm. discriminate.
    + intros E.
      destruct Hc as [(idxs & F & [[_ E'] | [_ E']]) | [Hw _]];
        [congruence | congruence | exact Hw].
  - split.
    + intros [Hall (w & i & Hw & Ew & Hbig)].
      destruct Hc as [(idxs & F & [[Hfit _] | [_ E]]) | [(w' & Hw' & Hm) _]].
      * exfalso. destruct (Forall2_In_l _ _ _ w F Hw) as (i' & Hi' & Ew').
        rewrite Ew in Ew'. injection Ew' as <-.
        rewrite Forall_forall in Hfit. specialize (Hfit i Hi'). lia.
      * exists RuntimeError. split; [exact E | discriminate].
      * rewrite (Hall w' Hw') in Hm. discriminate.
    + intros (e & E & Hne).
      destruct Hc as [(idxs & F & [[_ E'] | [(i & Hi & Hbig) _]]) | [_ E']];
        [congruence | | congruence].
      split; [intros w Hw; exact (Hkey idxs w F Hw)|].
      destruct (Forall2_In_r _ _ _ i F Hi) as (w & Hw & Ew). eauto.
  - split.
    + intros Hall. destruct (prepare_sequence_Ok seq d Hall) as (idxs & E & _).
      eauto.
    + intros (idxs & E) w Hw.
      destruct Hc as [(idxs' & F & [[Hfit _] | [_ E']]) | [_ E']];
        [| congruence | congruence].
      destruct (Forall2_In_l _ _ _ w F Hw) as (i & Hi & Ew).
      exists i. split; [assumption|].
      rewrite Forall_forall in Hfit. auto.
  - intros idxs E.
    destruct Hc as [(idxs' & F & [[Hfit E'] | [_ E']]) | [_ E']];
      [| congruence | congruence].
    rewrite E in E'. injection E' as <-.
    split; [symmetry; eapply Forall2_length; eauto|].
    clear E Hkey. induction F as [|w i ws js Hwi F IH]; constructor.
    + split; [assumption | now inversion Hfit].
    + apply IH. now inversion Hfit.
Qed.

(** X5. On a sentence of the training data, [prepare_sequence] with the
    dict that [dict_load] returns never raises [KeyError].  It succeeds
    and returns one index per character when every index of the dict read
    from the vocabulary file is below [2^63] and the dict returned has at
    most [2^63] entries; and when the dict read numbers its keys, every
    index returned is below the length of the dict returned. *)
Theorem prepare_sequence_after_dict_load (vocab : list (string * nat))
    (training_data : list (list string * list string))
    (sentence tags : list string) :
  In (sentence, tags) training_data ->
  prepare_sequence sentence (dict_load vocab training_data) <> Raise KeyError /\
  (Forall (fun p => (Z.of_nat (snd p) < 2 ^ 63)%Z) vocab ->
   (Z.of_nat (List.length (dict_load vocab training_data)) <= 2 ^ 63)%Z ->
   exists idxs,
     prepare_sequence sentence (dict_load vocab training_data) = Ok idxs /\
     List.length idxs = List.length sentence) /\
  (numbering vocab ->
   (Z.of_nat (List.length (dict_load vocab training_data)) <= 2 ^ 63)%Z ->
   exists idxs,
     prepare_sequence sentence (dict_load vocab training_data) = Ok idxs /\
     List.length idxs = List.length sentence /\
     Forall (fun i => i < List.length (dict_load vocab training_data)) idxs).
Proof.
  intros Hin.
  assert (Hcov : forall w, In w sentence ->
            mem w (dict_load vocab training_data) = true).
  { intros w Hw. exact (dict_load_covers vocab training_data sentence tags w Hin Hw). }
  assert (Hok : Forall (fun p => (Z.of_nat (snd p) < 2 ^ 63)%Z) vocab ->
            (Z.of_nat (List.length (dict_load vocab training_data)) <= 2 ^ 63)%Z ->
            exists idxs,
              prepare_sequence sentence (dict_load vocab training_data) = Ok idxs /\
              Forall2 (fun w i => lookup (dict_load vocab training_data) w = Ok i)
                      sentence idxs).
  { intros Hfit Hlen. apply prepare_sequence_Ok. intros w Hw.
    destruct (proj1 (lookup_mem _ w) (Hcov w Hw)) as [i Ei].
    exists i. split; [assumption|].
    destruct (dict_load_indices vocab training_data w i (lookup_In _ _ _ Ei))
      as [Hv|Hlt].
    - rewrite Forall_forall in Hfit. exact (Hfit (w, i) Hv).
    - lia. }
  split; [|split].
  - destruct (prepare_sequence_cases sentence (dict_load vocab training_data))
      as [(idxs & _ & [[_ E] | [_ E]]) | [(w & Hw & Hm) _]];
      [rewrite E; discriminate | rewrite E; discriminate |].
    rewrite (Hcov w Hw) in Hm. discriminate.
  - intros Hfit Hlen. destruct (Hok Hfit Hlen) as (idxs & E & F).
    exists idxs. split; [assumption|].
    symmetry. eapply Forall2_length; eauto.
  - intros Hnum Hlen.
    pose proof (dict_load_keeps_numbering vocab training_data Hnum) as Hnum'.
    destruct Hok as (idxs & E & F); [|assumption|].
    { destruct Hnum as (_ & _ & Hlt). eapply Forall_impl; [|exact Hlt].
      intros p Hp. simpl in Hp.
      pose proof (extends_length _ _ (dict_load_extends vocab training_data)).
      lia. }
    exists idxs. split; [assumption|]. split.
    + symmetry. eapply Forall2_length; eauto.
    + apply Forall_forall. intros i Hi.
      destruct (Forall2_In_r _ _ _ i F Hi) as (w & _ & Ew).
      exact (numbering_lookup _ w i Hnum' Ew).
Qed.

(** X6. On a dict with distinct indices [prepare_sequence] is injective:
    two sequences get the same indices exactly when they are the same
    sequence. *)
Theorem prepare_sequence_injective (d : list (string * nat))
    (seq1 seq2 : list string) (idxs1 idxs2 : list nat) :
  NoDup (map snd d) ->
  prepare_sequence seq1 d = Ok idxs1 -> prepare_sequence seq2 d = Ok idxs2 ->
  (idxs1 = idxs2 <-> seq1 = seq2).
Proof.
  intros Hv E1 E2. split; [|intros <-; congruence].
  intros <-.
  apply prepare_sequence_lookups in E1. apply prepare_sequence_lookups in E2.
  revert seq2 E2. induction E1 as [|w i ws js Hwi F IH]; intros seq2 E2.
  - inversion E2. reflexivity.
  - inversion E2 as [|w' ? ws' ? Hwi' F']; subst. f_equal; [|now apply IH].
    eapply NoDup_map_snd_inj; eauto using lookup_In.
Qed.

(** ** The bracketed output *)

Lemma append_assoc (a b c : string) :
  String.append (String.append a b) c = String.append a (String.append b c).
Proof. induction a as [|x a IH]; simpl; [reflexivity | now rewrite IH]. Qed.

Lemma append_nil_r (a : string) : String.append a EmptyString = a.
Proof. induction a as [|x a IH]; simpl; [reflexivity | now rewrite IH]. Qed.

Lemma length_append (a b : string) :
  String.length (String.append a b) = String.length a + String.length b.
Proof. induction a as [|x a IH]; simpl; [reflexivity | now rewrite IH]. Qed.

Lemma erase_append (x y : ascii) (a b : string) :
  erase x y (String.append a b) = String.append (erase x y a) (erase x y b).
Proof.
  induction a as [|c a IH]; simpl; [reflexivity|].
  destruct (Ascii.eqb c x || Ascii.eqb c y); simpl; now rewrite IH.
Qed.

Lemma count_char_append (x : ascii) (a b : string) :
  count_char x (String.append a b) = count_char x a + count_char x b.
Proof.
  induction a as [|c a IH]; simpl; [reflexivity|]. rewrite IH. lia.
Qed.

(** The loop of the source builds the string that [bracketed] describes. *)
Lemma infer_loop_bracketed (sentence : list string) (pre ts : list nat)
    (acc : string) :
  List.length sentence <= List.length ts ->
  infer_loop (List.length pre) sentence (pre ++ ts) acc =
  Ok (String.append acc
        (bracketed (nth_error pre (List.length pre - 1)) sentence ts)).
Proof.
  revert pre ts acc.
  induction sentence as [|c rest IH]; intros pre ts acc Hlen.
  - simpl. now rewrite append_nil_r.
  - destruct ts as [|t ts]; [simpl in Hlen; lia|].
    cbn [infer_loop bracketed]. unfold get at 1.
    rewrite nth_error_app2, Nat.sub_diag by lia. cbn [nth_error bind].
    assert (Hnext : forall acc',
              infer_loop (S (List.length pre)) rest (pre ++ t :: ts) acc' =
              Ok (String.append acc' (bracketed (Some t) rest ts))).
    { intros acc'. specialize (IH (pre ++ [t]) ts acc').
      rewrite length_app, <- app_assoc in IH. simpl in IH.
      rewrite Nat.add_1_r in IH. rewrite IH by (simpl in Hlen; lia).
      do 2 f_equal. replace (S (List.length pre) - 1) with (List.length pre) by lia.
      rewrite nth_error_app2, Nat.sub_diag by lia. reflexivity. }
    unfold mark. destruct (t =? 0) eqn:Et0.
    + rewrite Hnext. now rewrite !append_assoc.
    + destruct (Nat.eqb_spec (List.length pre) 0) as [H0|Hn0]; cbn [negb andb].
      * assert (Ep : nth_error pre (List.length pre - 1) = None)
          by (apply nth_error_None; lia).
        rewrite Ep, Hnext, append_assoc. reflexivity.
      * assert (Hp : exists p, nth_error pre (List.length pre - 1) = Some p).
        { destruct (nth_error pre (List.length pre - 1)) eqn:E; [eauto|].
          apply nth_error_None in E. lia. }
        destruct Hp as [p Ep]. rewrite Ep.
        destruct (t =? 2) eqn:Et2; cbn [andb].
        -- unfold get. rewrite nth_error_app1 by lia.
           rewrite Ep. cbn [bind].
           destruct (p =? 1); rewrite Hnext; now rewrite ?append_assoc.
        -- rewrite Hnext, append_assoc. reflexivity.
Qed.

Lemma infer_loop_IndexError (sentence : list string) (pre ts : list nat)
    (acc : string) :
  List.length ts < List.length sentence ->
  infer_loop (List.length pre) sentence (pre ++ ts) acc = Raise IndexError.
Proof.
  revert pre ts acc.
  induction sentence as [|c rest IH]; intros pre ts acc Hlen; [simpl in Hlen; lia|].
  cbn [infer_loop]. unfold get at 1.
  rewrite nth_error_app2, Nat.sub_diag by lia.
  destruct ts as [|t ts]; [reflexivity|]. cbn [nth_error bind].
  assert (Hnext : forall acc',
            infer_loop (S (List.length pre)) rest (pre ++ t :: ts) acc' =
            Raise IndexError).
  { intros acc'. specialize (IH (pre ++ [t]) ts acc').
    rewrite length_app, <- app_assoc in IH. simpl in IH.
    rewrite Nat.add_1_r in IH. apply IH. simpl in Hlen. lia. }
  destruct (t =? 0); [apply Hnext|].
  destruct (negb (List.length pre =? 0) && (t =? 2)); [|apply Hnext].
  destruct (get (pre ++ t :: ts) (List.length pre - 1)) as [p|e] eqn:Ep.
  - cbn [bind]. destruct (p =? 1); apply Hnext.
  - apply get_Raise in Ep as [-> _]. reflexivity.
Qed.

Lemma bracketed_erase (prev : option nat) (sentence : list string) (ts : list nat) :
  List.length sentence <= List.length ts ->
  erase open_bracket close_bracket (bracketed prev sentence ts) =
  erase open_bracket close_bracket (join sentence).
Proof.
  unfold join. revert prev ts. induction sentence as [|c rest IH]; intros prev ts Hlen.
  - reflexivity.
  - destruct ts as [|t ts]; [simpl in Hlen; lia|].
    cbn [bracketed fold_right]. rewrite !erase_append.
    rewrite (IH (Some t) ts) by (simpl in Hlen; lia).
    assert (Em : erase open_bracket close_bracket (mark prev t) = EmptyString).
    { unfold mark. destruct (t =? 0); [reflexivity|].
      destruct prev as [p|]; [|reflexivity].
      destruct ((t =? 2) && (p =? 1)); reflexivity. }
    rewrite Em. reflexivity.
Qed.

Lemma bracketed_count_open (prev : option nat) (sentence : list string)
    (ts : list nat) :
  List.length sentence <= List.length ts ->
  count_char open_bracket (bracketed prev sentence ts) =
  count_char open_bracket (join sentence)
  + count_occ Nat.eq_dec (firstn (List.length sentence) ts) 0.
Proof.
  unfold join. revert prev ts. induction sentence as [|c rest IH]; intros prev ts Hlen.
  - reflexivity.
  - destruct ts as [|t ts]; [simpl in Hlen; lia|].
    cbn [bracketed fold_right List.length firstn].
    rewrite !count_char_append, (IH (Some t) ts) by (simpl in Hlen; lia).
    unfold mark. cbn [count_occ].
    destruct (Nat.eq_dec t 0) as [->|Hne].
    + simpl. lia.
    + apply Nat.eqb_neq in Hne. rewrite Hne.
      destruct prev as [p|]; [destruct ((t =? 2) && (p =? 1))|]; simpl; lia.
Qed.

Lemma bracketed_count_close (sentence : list string) (p : nat) (ts : list nat) :
  List.length sentence <= List.length ts ->
  count_char close_bracket (bracketed (Some p) sentence ts) =
  count_char close_bracket (join sentence)
  + adjacent_IO (p :: firstn (List.length sentence) ts).
Proof.
  unfold join. revert p ts. induction sentence as [|c rest IH]; intros p ts Hlen.
  - reflexivity.
  - destruct ts as [|t ts]; [simpl in Hlen; lia|].
    cbn [bracketed fold_right List.length firstn].
    rewrite !count_char_append, (IH t ts) by (simpl in Hlen; lia).
    cbn [adjacent_IO].
    set (A := adjacent_IO (t :: firstn (List.length rest) ts)).
    unfold mark.
    destruct (t =? 0) eqn:Et0.
    + apply Nat.eqb_eq in Et0. subst t.
      rewrite Bool.andb_false_r. simpl. lia.
    + destruct (t =? 2), (p =? 1); simpl; lia.
Qed.

Lemma infer_sentence_Ok (sentence : list string) (tags : list nat) :
  List.length sentence <= List.length tags ->
  infer_sentence sentence tags = Ok (bracketed None sentence tags).
Proof. intros Hlen. exact (infer_loop_bracketed sentence [] tags EmptyString Hlen). Qed.

Lemma infer_sentence_short (sentence : list string) (tags : list nat) :
  List.length tags < List.length sentence ->
  infer_sentence sentence tags = Raise IndexError.
Proof. intros Hlen. exact (infer_loop_IndexError sentence [] tags EmptyString Hlen). Qed.

(** X7. The loop that builds the bracketed output succeeds exactly when
    there is a tag for every character, and raises [IndexError] otherwise;
    when it succeeds, the output with every bracket removed is the input
    with every bracket removed: the loop only inserts brackets. *)
Theorem infer_sentence_only_inserts_brackets (sentence : list string)
    (postcheck_tags : list nat) :
  (List.length sentence <= List.length postcheck_tags ->
     exists out,
       infer_sentence sentence postcheck_tags = Ok out /\
       erase open_bracket close_bracket out =
       erase open_bracket close_bracket (join sentence)) /\
  (List.length postcheck_tags < List.length sentence ->
     infer_sentence sentence postcheck_tags = Raise IndexError).
Proof.
  split; intros Hlen.
  - rewrite (infer_sentence_Ok sentence postcheck_tags Hlen).
    eexists. split; [reflexivity|]. now apply bracketed_erase.
  - now apply infer_sentence_short.
Qed.

Lemma infer_sentence_only_inserts_brackets_witness :
  (exists out,
     infer_sentence ["a"; "b"; "c"; "d"]%string [2; 0; 1; 2] = Ok out /\
     erase open_bracket close_bracket out = "abcd"%string) /\
  infer_sentence ["a"; "b"; "c"; "d"]%string [2; 0; 1] = Raise IndexError.
Proof.
  split.
  - apply (proj1 (infer_sentence_only_inserts_brackets
                    ["a"; "b"; "c"; "d"]%string [2; 0; 1; 2])).
    simpl. lia.
  - apply (proj2 (infer_sentence_only_inserts_brackets
                    ["a"; "b"; "c"; "d"]%string [2; 0; 1])).
    simpl. lia.
Defined.

(** X8. In the bracketed output the number of opening brackets added is
    the number of characters tagged 0 (B), and the number of closing
    brackets added is the number of places where a character tagged 1 (I)
    is directly followed by one tagged 2 (O): an entity that is followed by
    anything else, or that ends the sentence, is not closed. *)
Theorem infer_sentence_bracket_counts (sentence : list string)
    (postcheck_tags : list nat) (out : string) :
  infer_sentence sentence postcheck_tags = Ok out ->
  let tags := firstn (List.length sentence) postcheck_tags in
  count_char open_bracket out =
    count_char open_bracket (join sentence) + count_occ Nat.eq_dec tags 0 /\
  count_char close_bracket out =
    count_char close_bracket (join sentence) + adjacent_IO tags.
Proof.
  intros E tags.
  assert (Hlen : List.length sentence <= List.length postcheck_tags).
  { destruct (Nat.le_gt_cases (List.length sentence) (List.length postcheck_tags))
      as [Hle|Hgt]; [assumption|].
    rewrite (infer_sentence_short sentence postcheck_tags Hgt) in E.
    discriminate. }
  rewrite (infer_sentence_Ok sentence postcheck_tags Hlen) in E.
  injection E as <-.
  split; [now apply bracketed_count_open|].
  subst tags. destruct sentence as [|c rest]; [reflexivity|].
  destruct postcheck_tags as [|t ts]; [simpl in Hlen; lia|].
  cbn [bracketed List.length firstn]. unfold join. cbn [fold_right].
  rewrite !count_char_append.
  pose proof (bracketed_count_close rest t ts ltac:(simpl in Hlen; lia)) as Hc.
  unfold join in Hc. rewrite Hc.
  assert (Em : count_char close_bracket (mark None t) = 0)
    by (unfold mark; destruct (t =? 0); reflexivity).
  rewrite Em. lia.
Qed.

Lemma infer_sentence_bracket_counts_witness :
  count_char open_bracket "a[bc]d" =
    count_char open_bracket (join ["a"; "b"; "c"; "d"]%string)
    + count_occ Nat.eq_dec (firstn 4 [2; 0; 1; 2]) 0 /\
  count_char close_bracket "a[bc]d" =
    count_char close_bracket (join ["a"; "b"; "c"; "d"]%string)
    + adjacent_IO (firstn 4 [2; 0; 1; 2]).
Proof.
  apply (infer_sentence_bracket_counts ["a"; "b"; "c"; "d"]%string [2; 0; 1; 2]
           "a[bc]d"%string).
  reflexivity.
Defined.

(** ** [forward] and the decoder on any scores *)

Section ForwardFacts2.

Context {V : Type} `{Score V}.
Variable self : BiLSTM_CRF V.
Variable _get_lstm_features : list nat -> list (list V).

Lemma forward_decode (sentence : list nat) :
  forward self _get_lstm_features sentence =
  _viterbi_decode self (_get_lstm_features sentence).
Proof.
  unfold forward.
  destruct (_viterbi_decode self (_get_lstm_features sentence)) as [[s p]|e];
    reflexivity.
Qed.

(** X9. On a well-formed model whose emission model gives one row of [T]
    scores per input position, [forward] either returns one tag per
    position, each a tag index below [T], or raises [AssertionError]; it
    raises no other exception.  This holds for every way of adding and
    comparing scores. *)
Theorem forward_returns_valid_tags (sentence : list nat) :
  well_formed self ->
  matrix_shape (List.length sentence) (tagset_size self)
    (_get_lstm_features sentence) ->
  (forall score tag_seq,
     forward self _get_lstm_features sentence = Ok (score, tag_seq) ->
     List.length tag_seq = List.length sentence /\
     Forall (fun t => t < tagset_size self) tag_seq) /\
  (forall e, forward self _get_lstm_features sentence = Raise e ->
     e = AssertionError).
Proof.
  intros WF [Hl Hfeats]. rewrite forward_decode.
  destruct (viterbi_decode_run self WF (fun _ _ _ _ => True)
              (_get_lstm_features sentence))
    as (init & bps & fv & stop_row & best & s0 & tags & x & m & _ & _ & _ &
        _ & _ & _ & _ & _ & Hlen & _ & Htags & _ & _ & Ed); auto.
  rewrite Ed. destruct (s0 =? START self).
  - split; [|discriminate]. intros score tag_seq [= <- <-].
    split; [congruence | assumption].
  - split; [discriminate|]. now intros e [= <-].
Qed.

End ForwardFacts2.

Lemma forward_returns_valid_tags_witness :
  (forall score tag_seq,
     forward toy toy_emit [5; 6] = Ok (score, tag_seq) ->
     List.length tag_seq = 2 /\ Forall (fun t => t < 3) tag_seq) /\
  (forall e, forward toy toy_emit [5; 6] = Raise e -> e = AssertionError).
Proof.
  apply (forward_returns_valid_tags toy toy_emit [5; 6]).
  - split; [split; [reflexivity | repeat constructor] | simpl; lia].
  - split; [reflexivity | repeat constructor].
Defined.

(** X10. The tags that [forward] returns for a sentence are enough for the
    bracketed output: on a well-formed model whose emission model gives one
    row per character, the loop over the sentence and the returned tags
    does not raise. *)
Theorem forward_tags_fit_infer_sentence {V : Type} `{Score V}
    (self : BiLSTM_CRF V) (_get_lstm_features : list nat -> list (list V))
    (sentence : list string) (precheck_sent : list nat) (score : V)
    (tag_seq : list nat) :
  well_formed self ->
  List.length precheck_sent = List.length sentence ->
  matrix_shape (List.length precheck_sent) (tagset_size self)
    (_get_lstm_features precheck_sent) ->
  forward self _get_lstm_features precheck_sent = Ok (score, tag_seq) ->
  exists out, infer_sentence sentence tag_seq = Ok out.
Proof.
  intros WF Hlen Hshape E.
  destruct (viterbi_decode_run self WF (fun _ _ _ _ => True)
              (_get_lstm_features precheck_sent))
    as (init & bps & fv & stop_row & best & s0 & tags & x & m & _ & _ & _ &
        _ & _ & _ & _ & _ & Hl & _ & _ & _ & _ & Ed); auto.
  { apply Hshape. }
  rewrite forward_decode, Ed in E.
  destruct (s0 =? START self); [|discriminate]. injection E as <- <-.
  rewrite infer_sentence_Ok; [eauto|].
  destruct Hshape as [Hs _]. lia.
Qed.

Lemma forward_tags_fit_infer_sentence_witness :
  exists out, infer_sentence ["a"; "b"]%string [0; 0] = Ok out.
Proof.
  apply (forward_tags_fit_infer_sentence toy toy_emit ["a"; "b"]%string [5; 6]
           8%Z [0; 0]).
  - split; [split; [reflexivity | repeat constructor] | simpl; lia].
  - reflexivity.
  - split; [reflexivity | repeat constructor].
  - reflexivity.
Defined.

(** ** More on real scores: [argmax], [log_sum_exp], best paths *)

Open Scope R_scope.

Lemma argmax_from_first (l pre : list R) (bi : nat) (b : R) :
  (bi < List.length pre)%nat -> nth bi pre 0 = b ->
  (forall j, (j < bi)%nat -> nth j pre 0 < b) ->
  (forall j, (j < List.length pre)%nat -> nth j pre 0 <= b) ->
  let r := argmax_from bi b (List.length pre) l in
  (r < List.length (pre ++ l))%nat /\
  (forall j, (j < List.length (pre ++ l))%nat ->
     nth j (pre ++ l) 0 <= nth r (pre ++ l) 0) /\
  (forall j, (j < r)%nat -> nth j (pre ++ l) 0 < nth r (pre ++ l) 0).
Proof.
  revert pre bi b. induction l as [|x l IH]; intros pre bi b Hbi Hb Hlt Hle.
  - simpl. rewrite app_nil_r. rewrite Hb. auto.
  - cbn [argmax_from].
    assert (Happ : pre ++ x :: l = (pre ++ [x]) ++ l) by now rewrite <- app_assoc.
    assert (HS : S (List.length pre) = List.length (pre ++ [x]))
      by (rewrite length_app; simpl; lia).
    rewrite Happ, HS. change (sltb b x) with (Rltb b x).
    destruct (Rltb b x) eqn:Hc.
    + apply Rltb_true in Hc. apply IH.
      * rewrite length_app. simpl. lia.
      * rewrite app_nth2, Nat.sub_diag by lia. reflexivity.
      * intros j Hj. rewrite app_nth1 by lia.
        pose proof (Hle j Hj). lra.
      * intros j Hj. rewrite length_app in Hj. simpl in Hj.
        destruct (Nat.eq_dec j (List.length pre)) as [->|Hne].
        -- rewrite app_nth2, Nat.sub_diag by lia. simpl. lra.
        -- rewrite app_nth1 by lia. pose proof (Hle j ltac:(lia)). lra.
    + apply Rltb_false in Hc. apply IH.
      * rewrite length_app. simpl. lia.
      * rewrite app_nth1 by lia. assumption.
      * intros j Hj. rewrite app_nth1 by lia. auto.
      * intros j Hj. rewrite length_app in Hj. simpl in Hj.
        destruct (Nat.eq_dec j (List.length pre)) as [->|Hne].
        -- rewrite app_nth2, Nat.sub_diag by lia. simpl. lra.
        -- rewrite app_nth1 by lia. apply Hle. lia.
Qed.

(** X11. On real scores [argmax] raises [IndexError] on an empty row and
    otherwise returns the position of the first maximal entry: the entry
    there is the maximum of the row, and every entry before it is strictly
    smaller. *)
Theorem argmax_first_maximum (vec : list R) :
  (vec = [] -> argmax vec = Raise IndexError) /\
  (vec <> [] ->
     exists b, argmax vec = Ok b /\ (b < List.length vec)%nat /\
               nth b vec 0 = MaxRlist vec /\
               forall j, (j < b)%nat -> nth j vec 0 < MaxRlist vec).
Proof.
  split; [intros ->; reflexivity|]. intros Hne.
  destruct vec as [|x l]; [congruence|].
  exists (argmax_from 0 x 1 l). split; [reflexivity|].
  destruct (argmax_from_first l [x] 0%nat x) as (Hr & Hmax & Hfirst);
    try (simpl; lia); try reflexivity.
  { intros j Hj. destruct j; [simpl; lra | simpl in Hj; lia]. }
  change ([x] ++ l) with (x :: l) in *. change (List.length [x]) with 1%nat in *.
  set (r := argmax_from 0 x 1 l) in *.
  assert (Em : nth r (x :: l) 0 = MaxRlist (x :: l)).
  { apply Rle_antisym.
    - apply MaxRlist_P1. apply nth_In. exact Hr.
    - destruct (In_nth (x :: l) (MaxRlist (x :: l)) 0) as (j & Hj & Ej).
      { apply MaxRlist_P2. exists x. now left. }
      rewrite <- Ej. now apply Hmax. }
  split; [exact Hr|]. split; [exact Em|].
  intros j Hj. rewrite <- Em. now apply Hfirst.
Qed.

Lemma argmax_first_maximum_witness :
  exists b, argmax [1; 3; 2; 3] = Ok b /\ (b < 4)%nat /\
            nth b [1; 3; 2; 3] 0 = MaxRlist [1; 3; 2; 3] /\
            forall j, (j < b)%nat -> nth j [1; 3; 2; 3] 0 < MaxRlist [1; 3; 2; 3].
Proof.
  apply (proj2 (argmax_first_maximum [1; 3; 2; 3])). discriminate.
Defined.

Lemma Rsum_le_bound {A : Type} (f : A -> R) (l : list A) (M : R) :
  (forall a, In a l -> f a <= M) -> Rsum (map f l) <= INR (List.length l) * M.
Proof.
  intros Hf. induction l as [|a l IH]; [simpl; lra|].
  change (List.length (a :: l)) with (S (List.length l)).
  rewrite S_INR. cbn [map]. rewrite Rsum_cons.
  pose proof (Hf a (or_introl eq_refl)).
  assert (Rsum (map f l) <= INR (List.length l) * M)
    by (apply IH; intros; apply Hf; now right).
  lra.
Qed.

(** X12. The value of [log_sum_exp] lies between the maximum of the row
    and the maximum plus the logarithm of the length of the row. *)
Theorem log_sum_exp_bounds (vec : list R) (r : R) :
  log_sum_exp vec = Ok r ->
  MaxRlist vec <= r <= MaxRlist vec + ln (INR (List.length vec)).
Proof.
  intros E.
  assert (Hne : vec <> []).
  { intros ->. discriminate. }
  rewrite (log_sum_exp_eq vec Hne) in E. injection E as <-.
  unfold log_sum_exp_naive.
  assert (Hin : In (MaxRlist vec) vec).
  { apply MaxRlist_P2. destruct vec as [|x l]; [congruence|]. exists x. now left. }
  assert (Hpos : 0 < Rsum (map exp vec)).
  { apply (Rsum_exp_pos (fun x => x)). assumption. }
  assert (Hn : 0 < INR (List.length vec)).
  { apply lt_0_INR. destruct vec; [congruence | simpl; lia]. }
  split.
  - rewrite <- (ln_exp (MaxRlist vec)) at 1.
    apply ln_le_compat; [apply exp_pos|].
    apply Rsum_ge_member.
    + apply Forall_forall. intros y Hy. apply in_map_iff in Hy as (a & <- & _).
      left. apply exp_pos.
    + now apply in_map.
  - rewrite <- (ln_exp (MaxRlist vec)) at 1.
    rewrite Rplus_comm, <- ln_mult by (auto using exp_pos).
    apply ln_le_compat; [assumption|].
    apply Rsum_le_bound. intros a Ha.
    destruct (MaxRlist_P1 vec a Ha) as [Hlt | ->]; [|lra].
    left. now apply exp_increasing.
Qed.

Lemma log_sum_exp_bounds_witness :
  exists r, log_sum_exp [1; 3; 2] = Ok r /\
            MaxRlist [1; 3; 2] <= r <= MaxRlist [1; 3; 2] + ln (INR 3).
Proof.
  exists (log_sum_exp_naive [1; 3; 2]).
  assert (E : log_sum_exp [1; 3; 2] = Ok (log_sum_exp_naive [1; 3; 2]))
    by (apply log_sum_exp_eq; discriminate).
  split; [exact E|].
  exact (log_sum_exp_bounds [1; 3; 2] (log_sum_exp_naive [1; 3; 2]) E).
Defined.

Lemma all_seqs_length (T n : nat) : List.length (all_seqs T n) = (T ^ n)%nat.
Proof.
  induction n as [|n IH]; [reflexivity|].
  cbn [all_seqs]. rewrite (flat_map_constant_length (c := (T ^ n)%nat)).
  - rewrite length_seq. reflexivity.
  - intros k _. now rewrite length_map.
Qed.

(** X13. The path that [_viterbi_decode] returns is a best path: its score
    is what [_score_sentence] gives for it, and no legal tag sequence gets
    a higher score from [_score_sentence]. *)
Theorem viterbi_decode_is_best (self : BiLSTM_CRF R) (feats : list (list R))
    (score : R) (path : list nat) :
  well_formed self ->
  matrix_shape (List.length feats) (tagset_size self) feats ->
  _viterbi_decode self feats = Ok (score, path) ->
  _score_sentence self feats path = Ok score /\
  forall tags,
    List.length tags = List.length feats ->
    Forall (fun t => (t < tagset_size self)%nat) tags ->
    exists gold_score,
      _score_sentence self feats tags = Ok gold_score /\ gold_score <= score.
Proof.
  intros WF [_ Hfeats] E.
  destruct (viterbi_trace_optimal self WF feats Hfeats)
    as (s0 & best & Hs0 & Hbest & Hlen & _ & Ed & Hopt).
  rewrite E in Ed.
  destruct (Nat.eqb_spec s0 (START self)) as [->|]; [|discriminate].
  injection Ed as -> ->.
  assert (HS : (START self < tagset_size self)%nat) by apply WF.
  assert (Hgold : forall tags,
            List.length tags = List.length feats ->
            Forall (fun t => (t < tagset_size self)%nat) tags ->
            _score_sentence self feats tags =
              Ok (path_weight self (START self) feats tags)).
  { intros tags Hl Ht.
    rewrite (score_sentence_gold self WF feats tags); [|split; auto|assumption].
    now rewrite (gold_path_weight self WF feats tags Hl). }
  split; [now apply Hgold|].
  intros tags Hl Ht. exists (path_weight self (START self) feats tags).
  split; [now apply Hgold | now apply Hopt].
Qed.

Lemma toyR_decodes :
  exists score path, _viterbi_decode toyR toy_feats = Ok (score, path).
Proof.
  destruct (viterbi_trace_optimal toyR toyR_well_formed toy_feats (proj2 toyR_shape))
    as (s0 & best & Hs0 & Hbest & Hlen & _ & Ed & Hopt).
  assert (Es0 : s0 = START toyR).
  { destruct (Nat.eq_dec s0 (START toyR)) as [|Hne]; [assumption|exfalso].
    pose proof (weight_prefers_START toyR toyR_well_formed 4 ltac:(lra)
                  ltac:(discriminate) toyR_sentinel_rows toyR_transitions_within
                  toy_feats best s0 ltac:(lra) Hlen Hbest Hs0 Hne).
    pose proof (Hopt (START toyR) best ltac:(simpl; lia) Hbest Hlen). lra. }
  rewrite Es0, Nat.eqb_refl in Ed. eauto.
Qed.

Lemma viterbi_decode_is_best_witness :
  exists score path,
    _viterbi_decode toyR toy_feats = Ok (score, path) /\
    _score_sentence toyR toy_feats path = Ok score /\
    forall tags,
      List.length tags = 2%nat ->
      Forall (fun t => (t < 3)%nat) tags ->
      exists gold_score,
        _score_sentence toyR toy_feats tags = Ok gold_score /\ gold_score <= score.
Proof.
  destruct toyR_decodes as (score & path & Ed).
  exists score, path. split; [exact Ed|].
  exact (viterbi_decode_is_best toyR toy_feats score path toyR_well_formed
           toyR_shape Ed).
Defined.

(** X14. The score that [_viterbi_decode] returns is at most the forward
    score of [_forward_alg], and the forward score exceeds it by no more
    than [(L + 1) * ln T], the logarithm of the number of paths summed. *)
Theorem viterbi_score_below_forward_score (self : BiLSTM_CRF R)
    (feats : list (list R)) (score : R) (path : list nat) :
  well_formed self ->
  matrix_shape (List.length feats) (tagset_size self) feats ->
  _viterbi_decode self feats = Ok (score, path) ->
  exists forward_score,
    _forward_alg self feats = Ok forward_score /\
    score <= forward_score <=
      score + INR (List.length feats + 1) * ln (INR (tagset_size self)).
Proof.
  intros WF [_ Hfeats] E.
  assert (HT : (0 < tagset_size self)%nat).
  { destruct WF as (_ & HS & _). lia. }
  destruct (viterbi_trace_optimal self WF feats Hfeats)
    as (s0 & best & Hs0 & Hbest & Hlen & _ & Ed & Hopt).
  rewrite E in Ed.
  destruct (Nat.eqb_spec s0 (START self)) as [->|]; [|discriminate].
  injection Ed as -> ->.
  exists (forward_recurrence self feats).
  split; [now apply forward_alg_recurrence|].
  rewrite (forward_recurrence_partition self HT feats).
  pose proof (partition_pos self HT feats) as Hpos.
  split.
  - rewrite <- (gold_path_weight self WF feats best Hlen).
    rewrite <- (ln_exp (gold_path_score self feats best)).
    apply ln_le_compat; [apply exp_pos|].
    now apply gold_le_partition.
  - set (w := path_weight self (START self) feats best) in *.
    set (T := tagset_size self) in *. set (L := List.length feats) in *.
    assert (Hcount : partition self feats <= INR (T ^ (L + 1)) * exp w).
    { unfold partition. fold T L.
      apply Rle_trans with (INR T * (INR (T ^ L) * exp w)).
      - replace (INR T) with (INR (List.length (seq 0 T)))
          by (now rewrite length_seq).
        apply Rsum_le_bound.
        intros s0 Hin. apply in_seq in Hin.
        rewrite <- (all_seqs_length T L). apply Rsum_le_bound.
        intros tags Htags. apply all_seqs_spec in Htags as [Hl Ht].
        destruct (Hopt s0 tags ltac:(lia) Ht Hl) as [Hlt | ->]; [|lra].
        left. now apply exp_increasing.
      - rewrite Nat.add_1_r. cbn [Nat.pow]. rewrite mult_INR. lra. }
    assert (HTR : 0 < INR T) by (apply lt_0_INR; lia).
    assert (Hpow : 0 < INR (T ^ (L + 1))).
    { rewrite pow_INR. now apply pow_lt. }
    apply Rle_trans with (ln (INR (T ^ (L + 1)) * exp w)).
    + now apply ln_le_compat.
    + rewrite ln_mult by (auto using exp_pos).
      rewrite ln_exp, pow_INR, ln_pow by assumption. lra.
Qed.

Lemma viterbi_score_below_forward_score_witness :
  exists score path forward_score,
    _viterbi_decode toyR toy_feats = Ok (score, path) /\
    _forward_alg toyR toy_feats = Ok forward_score /\
    score <= forward_score <= score + INR (2 + 1) * ln (INR 3).
Proof.
  destruct toyR_decodes as (score & path & Ed).
  destruct (viterbi_score_below_forward_score toyR toy_feats score path
              toyR_well_formed toyR_shape Ed) as (f & Ef & Hb).
  exists score, path, f. auto.
Defined.

Close Scope R_scope.

(** ** Tag sequences of the wrong length *)

Section WrongLength.

Context {V : Type} `{Score V}.
Variable self : BiLSTM_CRF V.

Lemma trans_Raise (i j : nat) (e : exn) :
  trans self i j = Raise e -> e = IndexError.
Proof.
  unfold trans. destruct (get (transitions self) i) as [row|e'] eqn:E; simpl.
  - intros E'. now apply get_Raise in E' as [-> _].
  - intros [= <-]. now apply get_Raise in E as [-> _].
Qed.

Lemma walk_Raise (feats : list (list V)) (tags : list nat) (v : V) (prev : nat)
    (e : exn) :
  walk self v prev feats tags = Raise e -> e = IndexError.
Proof.
  revert tags v prev. induction feats as [|feat rest IH]; intros tags v prev;
    [discriminate|].
  destruct tags as [|t ts]; simpl; [now intros [= <-]|].
  destruct (trans self t prev) as [tr|e'] eqn:Et; simpl.
  - destruct (get feat t) as [x|e''] eqn:Ex; simpl; [apply IH|].
    intros [= <-]. now apply get_Raise in Ex as [-> _].
  - intros [= <-]. now apply trans_Raise in Et.
Qed.

Lemma walk_short (feats : list (list V)) (tags : list nat) (v : V) (prev : nat) :
  List.length tags < List.length feats ->
  walk self v prev feats tags = Raise IndexError.
Proof.
  revert tags v prev. induction feats as [|feat rest IH]; intros tags v prev Hl;
    [simpl in Hl; lia|].
  destruct tags as [|t ts]; [reflexivity|]. simpl.
  destruct (trans self t prev) as [tr|e] eqn:Et; simpl.
  - destruct (get feat t) as [x|e] eqn:Ex; simpl.
    + apply IH. simpl in Hl. lia.
    + now apply get_Raise in Ex as [-> _].
  - now apply trans_Raise in Et as ->.
Qed.

(** X15. [_score_sentence] raises [IndexError] whenever there are fewer
    tags than rows of emissions, and [IndexError] is the only exception it
    ever raises. *)
Theorem score_sentence_short_tags (feats : list (list V)) (tags : list nat) :
  (List.length tags < List.length feats ->
     _score_sentence self feats tags = Raise IndexError) /\
  (forall e, _score_sentence self feats tags = Raise e -> e = IndexError).
Proof.
  rewrite score_sentence_walk. split.
  - intros Hl. now rewrite walk_short.
  - intros e.
    destruct (walk self szero (START self) feats tags) as [s|e'] eqn:W; cbn [bind].
    + destruct (trans self (STOP self) (last (START self :: tags) (START self)))
        as [tr|e'] eqn:Et; cbn [bind]; [discriminate|].
      intros [= <-]. now apply trans_Raise in Et.
    + intros [= <-]. now apply walk_Raise in W.
Qed.

End WrongLength.

Lemma score_sentence_short_tags_witness :
  _score_sentence toy [[1; 2; 3]; [4; 0; 0]]%Z [0] = Raise IndexError.
Proof.
  apply (proj1 (score_sentence_short_tags toy [[1; 2; 3]; [4; 0; 0]]%Z [0])).
  simpl. lia.
Defined.

Open Scope R_scope.




(** X17. [neg_log_likelihood] on fewer tags than the emission model gives
    rows raises [IndexError]: the forward score is computed, and the gold
    score fails on the missing tag. *)
Theorem neg_log_likelihood_short_tags (self : BiLSTM_CRF R)
    (_get_lstm_features : list nat -> list (list R))
    (sentence tags : list nat) :
  well_formed self ->
  matrix_shape (List.length sentence) (tagset_size self)
    (_get_lstm_features sentence) ->
  (List.length tags < List.length sentence)%nat ->
  neg_log_likelihood self _get_lstm_features sentence tags = Raise IndexError.
Proof.
  intros WF [Hl Hfeats] Hshort. unfold neg_log_likelihood.
  rewrite (forward_alg_recurrence self WF _ Hfeats). cbn [bind].
  rewrite score_sentence_walk, walk_short by lia.
  reflexivity.
Qed.

Lemma neg_log_likelihood_short_tags_witness :
  neg_log_likelihood toyR (fun _ => toy_feats) [7; 8]%nat [0]%nat = Raise IndexError.
Proof.
  apply (neg_log_likelihood_short_tags toyR (fun _ => toy_feats) [7; 8]%nat [0]%nat).
  - exact toyR_well_formed.
  - exact toyR_shape.
  - simpl. lia.
Defined.

Close Scope R_scope.

(** ** [__init__] on a bad tag dict, and on a good one *)





Lemma init_entries {V : Type} `{Score V} (tag_to_ix : list (string * nat))
    (randn : list (list V)) (s t : nat) :
  lookup tag_to_ix START_TAG = Ok s -> lookup tag_to_ix STOP_TAG = Ok t ->
  s < List.length tag_to_ix -> t < List.length tag_to_ix ->
  matrix_shape (List.length tag_to_ix) (List.length tag_to_ix) randn ->
  exists m,
    __init__ tag_to_ix randn =
      Ok {| tagset_size := List.length tag_to_ix; START := s; STOP := t;
            transitions := m |} /\
    matrix_shape (List.length tag_to_ix) (List.length tag_to_ix) m /\
    (forall j, j < List.length tag_to_ix -> entry m s j = Some ssentinel) /\
    (forall i, i < List.length tag_to_ix -> entry m i t = Some ssentinel) /\
    (forall i j, i <> s -> j <> t -> entry m i j = entry randn i j).
Proof.
  intros Es Et Hs Ht Hshape. set (T := List.length tag_to_ix) in *.
  destruct (fill_row_spec randn T s Hshape Hs) as (m1 & E1 & Hshape1 & Hrow1 & Ho1).
  destruct (fill_column_spec m1 T T t Hshape1 Ht) as (m2 & E2 & Hshape2 & Hc2).
  exists m2. unfold __init__. rewrite Es. cbn [bind]. rewrite E1. cbn [bind].
  rewrite Et. cbn [bind]. rewrite E2. cbn [bind].
  split; [reflexivity|]. split; [assumption|]. split; [|split].
  - intros j Hj. unfold entry.
    destruct (Hc2 s _ Hrow1) as (row' & -> & Hv & Ho).
    destruct (Nat.eq_dec j t) as [->|Hne]; [assumption|].
    rewrite (Ho j Hne). now apply nth_error_repeat.
  - intros i Hi. unfold entry.
    destruct (nth_error m1 i) as [row|] eqn:Ei.
    + destruct (Hc2 i row Ei) as (row' & -> & Hv & _). assumption.
    + apply nth_error_None in Ei. destruct Hshape1 as [Hl _]. lia.
  - intros i j Hni Hnj. unfold entry. rewrite <- (Ho1 i Hni).
    destruct (nth_error m1 i) as [row|] eqn:Ei.
    + destruct (Hc2 i row Ei) as (row' & -> & _ & Ho). now apply Ho.
    + destruct (nth_error m2 i) as [row'|] eqn:Ei'; [|reflexivity].
      apply nth_error_None in Ei. destruct Hshape1 as [Hl1 _].
      destruct Hshape2 as [Hl2 _].
      assert (i < List.length m2) by (apply nth_error_Some; congruence). lia.
Qed.

Open Scope R_scope.

Lemma entry_Mat (self : BiLSTM_CRF R) (i j : nat) (x : R) :
  entry (transitions self) i j = Some x -> Mat self i j = x.
Proof.
  unfold entry, Mat. destruct (nth_error (transitions self) i) as [row|] eqn:E;
    [|discriminate].
  intros Ej. rewrite (nth_error_nth _ _ [] E). now apply nth_error_nth.
Qed.

(** X19. A model fresh from [__init__] always decodes: when START and STOP
    are different tag indices and the random draw is [T x T] with every
    entry within [B] of zero, [2 * B < 10000], then on every emission
    matrix of [L] rows of [T] scores [_viterbi_decode] passes its
    assertion and returns [L] tags. *)
Theorem fresh_model_decodes (tag_to_ix : list (string * nat))
    (randn : list (list R)) (s t : nat) (B : R) (feats : list (list R)) :
  let T := List.length tag_to_ix in
  lookup tag_to_ix START_TAG = Ok s -> lookup tag_to_ix STOP_TAG = Ok t ->
  (s < T)%nat -> (t < T)%nat -> s <> t ->
  matrix_shape T T randn ->
  Forall (Forall (fun x => - B <= x <= B)) randn ->
  2 * B < 10000 ->
  matrix_shape (List.length feats) T feats ->
  exists self score path,
    __init__ tag_to_ix randn = Ok self /\
    _viterbi_decode self feats = Ok (score, path) /\
    List.length path = List.length feats.
Proof.
  intros T Es Et Hs Ht Hst Hshape Hbound HB [_ Hfeats].
  destruct (init_entries tag_to_ix randn s t Es Et Hs Ht Hshape)
    as (m & Einit & Hm & Hrow & Hcol & Hother).
  set (self := {| tagset_size := T; START := s; STOP := t; transitions := m |}).
  assert (WF : well_formed self) by (repeat split; auto; apply Hm).
  assert (Hsent : sentinel_rows self).
  { split; intros k Hk; apply entry_Mat; [apply Hrow | apply Hcol]; exact Hk. }
  assert (Htrans : transitions_within self B).
  { intros i j Hi Hj HiS HjT. simpl in *.
    assert (Hx : exists x, entry randn i j = Some x /\ - B <= x <= B).
    { unfold entry. destruct Hshape as [Hl Hrows].
      destruct (nth_error randn i) as [row|] eqn:Ei;
        [|apply nth_error_None in Ei; lia].
      apply nth_error_In in Ei. rewrite Forall_forall in Hrows, Hbound.
      destruct (nth_error row j) as [x|] eqn:Ej.
      - exists x. split; [reflexivity|].
        specialize (Hbound row Ei). rewrite Forall_forall in Hbound.
        apply Hbound. eapply nth_error_In; eauto.
      - apply nth_error_None in Ej. rewrite (Hrows row Ei) in Ej. lia. }
    destruct Hx as (x & Ex & Hx).
    rewrite (entry_Mat self i j x); [assumption|].
    simpl. rewrite Hother; assumption. }
  assert (HB0 : 0 <= B).
  { pose proof (Htrans t s Ht Hs ltac:(simpl; congruence) ltac:(simpl; congruence)).
    lra. }
  destruct (viterbi_trace_optimal self WF feats Hfeats)
    as (s0 & tags & Hs0 & Htags & Hlen & _ & Ed & Hopt).
  assert (Es0 : s0 = START self).
  { destruct (Nat.eq_dec s0 (START self)) as [|Hne]; [assumption|exfalso].
    pose proof (weight_prefers_START self WF B HB0 Hst Hsent Htrans
                  feats tags s0 HB Hlen Htags Hs0 Hne).
    pose proof (Hopt (START self) tags Hs Htags Hlen). lra. }
  rewrite Es0, Nat.eqb_refl in Ed.
  exists self, (path_weight self (START self) feats tags), tags.
  repeat split; assumption.
Qed.

Lemma fresh_model_decodes_witness :
  exists self score path,
    __init__ main_tag_to_ix sample_randnR = Ok self /\
    _viterbi_decode self [[1; 0; 0; 0; 0]; [0; 1; 0; 0; 0]] = Ok (score, path) /\
    List.length path = 2%nat.
Proof.
  apply (fresh_model_decodes main_tag_to_ix sample_randnR 3 4 5
           [[1; 0; 0; 0; 0]; [0; 1; 0; 0; 0]]).
  - reflexivity.
  - reflexivity.
  - simpl; lia.
  - simpl; lia.
  - discriminate.
  - split; [reflexivity | repeat constructor].
  - repeat first [apply Forall_nil | apply Forall_cons]; split; lra.
  - lra.
  - split; [reflexivity | repeat constructor].
Defined.

Close Scope R_scope.

(** ** Workers without examples *)

Lemma fragment_shards {A : Type} (training_data : list A) (P : nat) :
  0 < P ->
  let N := List.length training_data in
  fragment training_data P =
    Ok (map (fun i => firstn (shard_size N P i)
                        (skipn (shard_offset N P i) training_data))
            (seq 0 P)) /\
  forall i, i < P -> shard_offset N P i + shard_size N P i <= N.
Proof.
  intros HP N. split.
  - unfold fragment, divmod. destruct (Nat.eqb_spec P 0) as [|_]; [lia|].
    cbn [bind]. f_equal. apply map_ext. intros i. unfold slice.
    fold N. f_equal.
    change (i * (N / P) + Nat.min i (N mod P)) with (shard_offset N P i).
    replace ((i + 1) * (N / P) + Nat.min (i + 1) (N mod P))
      with (shard_offset N P (S i))
      by (unfold shard_offset; now rewrite Nat.add_1_r).
    rewrite shard_offset_succ. lia.
  - intros i Hi. rewrite <- shard_offset_succ.
    rewrite <- (shard_offset_last N P HP) at 2.
    apply shard_offset_mono. lia.
Qed.

Lemma shard_size_zero (N P i : nat) :
  0 < P -> i < P -> (shard_size N P i = 0 <-> N <= i).
Proof.
  intros HP Hi. unfold shard_size.
  pose proof (Nat.div_mod_eq N P) as Hdm.
  pose proof (Nat.mod_upper_bound N P ltac:(lia)) as Hm.
  destruct (Nat.ltb_spec i (N mod P)) as [Hlt|Hge].
  - split; [lia|]. intros Hle. lia.
  - split.
    + intros H0. rewrite H0 in Hdm. lia.
    + intros Hle. assert (HNP : N < P) by lia.
      now apply Nat.div_small.
Qed.

(** X20. Worker [i] gets an empty shard exactly when the corpus has at
    most [i] examples; so every worker gets at least one example exactly
    when there are at least as many examples as workers. *)
Theorem fragment_empty_shards {A : Type} (training_data : list A) (P : nat)
    (shards : list (list A)) :
  0 < P ->
  fragment training_data P = Ok shards ->
  (forall i, i < P ->
     (nth_error shards i = Some [] <-> List.length training_data <= i)) /\
  (Forall (fun shard => shard <> []) shards <-> P <= List.length training_data).
Proof.
  intros HP E. set (N := List.length training_data).
  destruct (fragment_shards training_data P HP) as [Ef Hfit]. fold N in Ef, Hfit.
  rewrite Ef in E. injection E as <-.
  set (f := fun i => firstn (shard_size N P i)
                       (skipn (shard_offset N P i) training_data)).
  assert (Hlen : forall i, i < P -> List.length (f i) = shard_size N P i).
  { intros i Hi. unfold f. rewrite length_firstn, length_skipn.
    specialize (Hfit i Hi). fold N. lia. }
  assert (Hempty : forall i, i < P -> (f i = [] <-> N <= i)).
  { intros i Hi. rewrite <- (shard_size_zero N P i HP Hi), <- (Hlen i Hi).
    split; [intros ->; reflexivity | apply length_zero_iff_nil]. }
  split.
  - intros i Hi. rewrite nth_error_map, nth_error_seq0 by assumption.
    cbn [option_map]. fold (f i). rewrite <- (Hempty i Hi).
    split; [now intros [= ->] | now intros ->].
  - rewrite Forall_forall. split.
    + intros Hall. destruct (Nat.le_gt_cases P N) as [|Hgt]; [assumption|exfalso].
      apply (Hall (f (P - 1))).
      * apply in_map_iff. exists (P - 1). split; [reflexivity | apply in_seq; lia].
      * apply Hempty; lia.
    + intros Hle shard Hin Hnil. apply in_map_iff in Hin as (i & <- & Hi).
      apply in_seq in Hi. fold (f i) in Hnil. apply Hempty in Hnil; lia.
Qed.

Lemma fragment_empty_shards_witness :
  (forall i, i < 4 ->
     (nth_error [[0]; [1]; [2]; []] i = Some [] <-> List.length [0; 1; 2] <= i)) /\
  (Forall (fun shard => shard <> []) [[0]; [1]; [2]; []] <->
   4 <= List.length [0; 1; 2]).
Proof.
  apply (fragment_empty_shards [0; 1; 2] 4 [[0]; [1]; [2]; []]).
  - lia.
  - reflexivity.
Defined.

(** ** The indices of the new words, and runs of the dictionary code *)

(** X21. [dict_load] appends the new words to the dict it has read and
    numbers them consecutively from the length of that dict, in the order
    in which it meets them.  The new words are the characters of the
    training sentences, read sentence after sentence, that are not keys
    of the dict read, each taken once, where it is first met: the dict
    returned is the dict read followed by these words paired with
    [len], [len + 1], ...; and a new word first met after the characters
    [pre] has the index [len] plus the number of new words among [pre]. *)
Theorem dict_load_fresh_indices (vocab : list (string * nat))
    (training_data : list (list string * list string)) :
  dict_load vocab training_data =
    vocab ++ combine (unseen (map fst vocab) (List.concat (map fst training_data)))
               (seq (List.length vocab)
                    (List.length (unseen (map fst vocab)
                                         (List.concat (map fst training_data))))) /\
  NoDup (unseen (map fst vocab) (List.concat (map fst training_data))) /\
  (forall w,
     In w (unseen (map fst vocab) (List.concat (map fst training_data))) <->
     In w (List.concat (map fst training_data)) /\ mem w vocab = false) /\
  (forall pre w post,
     List.concat (map fst training_data) = pre ++ w :: post ->
     mem w vocab = false -> ~ In w pre ->
     unseen (map fst vocab) (List.concat (map fst training_data)) =
       unseen (map fst vocab) pre ++
       w :: unseen (map fst vocab ++ unseen (map fst vocab) pre ++ [w]) post /\
     lookup (dict_load vocab training_data) w =
       Ok (List.length vocab + List.length (unseen (map fst vocab) pre))).
Proof.
  split; [apply dict_load_appends|]. split; [apply unseen_NoDup|]. split.
  - intros w. rewrite unseen_In, mem_keys, seen_not_In. tauto.
  - intros pre w post Ew Hm Hpre.
    assert (Hnew : ~ In w (map fst vocab ++ unseen (map fst vocab) pre)).
    { rewrite in_app_iff, unseen_In. rewrite mem_keys, seen_not_In in Hm. tauto. }
    assert (Eu : unseen (map fst vocab) (List.concat (map fst training_data)) =
                 unseen (map fst vocab) pre ++
                 w :: unseen (map fst vocab ++ unseen (map fst vocab) pre ++ [w])
                        post).
    { rewrite Ew, unseen_app. cbn [unseen].
      rewrite (proj2 (seen_not_In _ w) Hnew), <- app_assoc. reflexivity. }
    split; [exact Eu|].
    rewrite dict_load_appends, Eu, lookup_app_r by assumption.
    apply lookup_combine_seq. rewrite unseen_In. tauto.
Qed.

Example dict_load_sample :
  dict_load sample_vocab sample_data =
  [("a", 0); ("b", 1); ("c", 2); ("d", 3)]%string.
Proof. reflexivity. Qed.

Lemma sample_vocab_numbering : numbering sample_vocab.
Proof.
  split; [|split].
  - constructor; [intros [E|[]]; discriminate|].
    constructor; [intros [] | constructor].
  - constructor; [intros [E|[]]; discriminate|].
    constructor; [intros [] | constructor].
  - repeat constructor.
Qed.

Lemma dict_load_keeps_and_covers_witness :
  lookup (dict_load sample_vocab sample_data) "b" = Ok 1 /\
  mem "d" (dict_load sample_vocab sample_data) = true.
Proof.
  destruct (dict_load_keeps_and_covers sample_vocab sample_data) as (Hk & Hc & _).
  split.
  - apply Hk. reflexivity.
  - apply (Hc ["d"; "a"]%string ["O"; "O"]%string "d"%string).
    + right. now left.
    + now left.
Defined.

Lemma dict_load_numbering_witness :
  numbering (dict_load sample_vocab sample_data).
Proof.
  apply (dict_load_numbering sample_vocab sample_data).
  exact sample_vocab_numbering.
Defined.

Lemma dict_load_fresh_indices_witness :
  lookup (dict_load sample_vocab sample_data) "d" = Ok 3.
Proof.
  refine (proj2 (proj2 (proj2 (proj2 (dict_load_fresh_indices sample_vocab sample_data)))
                   ["a"; "c"]%string "d"%string ["a"]%string eq_refl eq_refl _)).
  intros [E|[E|[]]]; discriminate.
Defined.

Lemma prepare_sequence_KeyError_witness :
  prepare_sequence ["a"; "z"]%string sample_vocab = Raise KeyError.
Proof.
  apply (proj1 (proj1 (prepare_sequence_KeyError ["a"; "z"]%string sample_vocab))).
  exists "z"%string. split; [right; now left | reflexivity].
Defined.

(** An index of [2^63] does not fit the tensor: the call raises, and not
    with [KeyError]. *)
Example prepare_sequence_overflow :
  exists e,
    prepare_sequence ["a"]%string [("a"%string, Z.to_nat (2 ^ 63))] = Raise e /\
    e <> KeyError.
Proof.
  exists RuntimeError. split; [|discriminate].
  unfold prepare_sequence. cbn -[Z.to_nat Z.pow fits_long].
  rewrite (proj2 (fits_long_ge (Z.to_nat (2 ^ 63)))) by lia.
  reflexivity.
Qed.

Lemma prepare_sequence_after_dict_load_witness :
  prepare_sequence ["d"; "a"]%string (dict_load sample_vocab sample_data)
    = Ok [3; 0] /\
  exists idxs,
    prepare_sequence ["d"; "a"]%string (dict_load sample_vocab sample_data) = Ok idxs /\
    List.length idxs = 2 /\
    Forall (fun i => i < List.length (dict_load sample_vocab sample_data)) idxs.
Proof.
  split; [reflexivity|].
  apply (proj2 (proj2 (prepare_sequence_after_dict_load sample_vocab sample_data
                         ["d"; "a"]%string ["O"; "O"]%string
                         (or_intror (or_introl eq_refl))))).
  - exact sample_vocab_numbering.
  - vm_compute. discriminate.
Defined.

Lemma prepare_sequence_injective_witness :
  prepare_sequence ["b"; "a"]%string [("a", 5); ("b", 1)]%string = Ok [1; 5] /\
  prepare_sequence ["a"; "b"]%string [("a", 5); ("b", 1)]%string = Ok [5; 1] /\
  ([1; 5] = [5; 1] <-> ["b"; "a"]%string = ["a"; "b"]%string).
Proof.
  split; [reflexivity|]. split; [reflexivity|].
  apply (prepare_sequence_injective [("a", 5); ("b", 1)]%string
           ["b"; "a"]%string ["a"; "b"]%string [1; 5] [5; 1]).
  - constructor; [intros [E|[]]; discriminate|].
    constructor; [intros [] | constructor].
  - reflexivity.
  - reflexivity.
Defined.
